(** * fastFileReader: the bounded-concurrency parallel chunk reader

    A shallow embedding of [src/fileReader.go] ([asyncReadFile] and
    [readChunk]) as an interleaving transition system over an explicit
    program state: the orchestrating goroutine, the worker goroutines it
    spawns, the buffered channel used as a semaphore, the global
    [sync.WaitGroup] and the borrowed [*os.File].

    Conventions.
    - Go's [int] and [int64] are 64-bit two's-complement integers, modelled
      as [Z] with the wrap-around written out ([wrap64]).
    - The bytes a read returns are discarded by the program
      ([_, _err := file.ReadAt(...)]), so a file is modelled by its size, its
      handle state and the faults its device raises, not by its contents.
    - Every shared-memory operation of a goroutine is one atomic step;
      computation on locals is folded into the step that follows it.
    - The two goroutine bodies are stated for any chunk size and any CPU
      count; the source fixes the first ([asyncChunkSize], 1 MiB) and asks
      the runtime for the second ([runtime.NumCPU()]).
    - A schedule is the list of goroutines that move, in order; the
      properties are stated for every schedule the program can follow. *)

From stdpp Require Import base numbers list relations.
From Stdlib Require Import Strings.Byte.

Local Open Scope Z_scope.

(** ** Machine integers *)

Definition wrap64 (z : Z) : Z := (z + 2 ^ 63) `mod` 2 ^ 64 - 2 ^ 63.

Definition int64_range (z : Z) : Prop := - 2 ^ 63 ≤ z < 2 ^ 63.

(** Go's [/] and [%] on integers truncate toward zero; the one quotient
    that does not fit, of the least integer by -1, wraps around. *)
Definition go_div (a b : Z) : Z := wrap64 (a `quot` b).
Definition go_rem (a b : Z) : Z := a `rem` b.

(** ** Outcomes of sequential code *)

Inductive outcome (A : Type) : Type :=
  | Done (a : A)
  | Panicked
  | OutOfFuel.
Arguments Done {A} a.
Arguments Panicked {A}.
Arguments OutOfFuel {A}.

(** ** Errors and the file handle *)

Inductive error : Type :=
  | io_EOF              (* io.EOF *)
  | ErrClosed           (* os.ErrClosed : use of closed file *)
  | ErrNegativeOffset   (* readat: negative offset *)
  | EIO.                (* an errno raised by the device *)

#[global] Instance error_eq_dec : EqDecision error.
Proof. solve_decision. Defined.

(** The state behind a [*os.File]: what the caller opened, the state that
    the handle's operations may change (closed flag, read cursor), and the
    faults of the underlying device. *)
Record File : Type := mkFile {
  f_size : Z;            (* size reported by fstat *)
  f_closed : bool;       (* Close has been called *)
  f_cursor : Z;          (* shared read cursor, moved by Read and Seek *)
  f_stat_fault : bool;   (* fstat fails *)
  f_bad : list Z         (* offsets at which a read of the device fails *)
}.

(** [file.Stat()]: the size, or an error; the handle is not changed. *)
Definition Stat (f : File) : (Z + error) * File :=
  if f_closed f then (inr ErrClosed, f)
  else if f_stat_fault f then (inr EIO, f)
  else (inl (f_size f), f).

(** [file.ReadAt(b, off)] with [len(b) = len]: the number of bytes read and
    the error. It returns a non-nil error whenever fewer than [len] bytes
    were read, [io.EOF] at the end of the file. The cursor is not used and
    not moved. *)
Definition ReadAt (f : File) (len off : Z) : (Z * option error) * File :=
  if f_closed f then ((0, Some ErrClosed), f)
  else if decide (off < 0) then ((0, Some ErrNegativeOffset), f)
  else if decide (len ≤ 0) then ((0, None), f)
  else if decide (off ∈ f_bad f) then ((0, Some EIO), f)
  else if decide (off + len ≤ f_size f) then ((len, None), f)
  else ((Z.max 0 (f_size f - off), Some io_EOF), f).

(** [file.Read(b)] with [len(b) = len]: the sequential read used by the
    line scanner of [syncReadFile]. It reads at the shared cursor and moves
    it on by the bytes read; a read of the device at that offset may fail,
    as for [ReadAt]; at the end of the file it returns [io.EOF]. *)
Definition Read (f : File) (len : Z) : (Z * option error) * File :=
  if f_closed f then ((0, Some ErrClosed), f)
  else if decide (0 < len ∧ f_cursor f ∈ f_bad f) then ((0, Some EIO), f)
  else
    let n := Z.max 0 (Z.min len (f_size f - f_cursor f)) in
    if decide (n = 0 ∧ 0 < len) then ((0, Some io_EOF), f)
    else ((n, None),
          mkFile (f_size f) (f_closed f) (f_cursor f + n) (f_stat_fault f) (f_bad f)).

(** [file.Close()]. *)
Definition Close (f : File) : option error * File :=
  if f_closed f then (Some ErrClosed, f)
  else (None, mkFile (f_size f) true (f_cursor f) (f_stat_fault f) (f_bad f)).

(** ** The chunk planner (fileReader.go, lines 66-85) *)

Definition asyncChunkSize : Z := 1024 * 1024.

Section Planner.
(** The planner is stated for any chunk size; the program instantiates it
    with [asyncChunkSize]. *)
Variable chunkSize : Z.

(** Lines 69-73: the number of goroutines to spawn. *)
Definition numChunks (filesize : Z) : Z :=
  let concurrency := go_div filesize chunkSize in
  if decide (go_rem filesize chunkSize ≠ 0)
  then wrap64 (concurrency + 1)
  else concurrency.

(** Line 78: [make([]int64, n)] panics on a negative length. *)
Definition make_slice (n : Z) : outcome (list Z) :=
  if decide (n < 0) then Panicked else Done (replicate (Z.to_nat n) 0).

(** Lines 83-85: [for i := 0; i < concurrency; i++ { chunkOffset[i] =
    int64(asyncChunkSize * i) }], an indexed store into the slice, which
    panics out of range. *)
Fixpoint fillOffsets (fuel : nat) (i concurrency : Z) (chunkOffset : list Z)
  : outcome (list Z) :=
  if decide (i < concurrency) then
    match fuel with
    | O => OutOfFuel
    | S fuel' =>
        if decide (0 ≤ i < Z.of_nat (length chunkOffset)) then
          fillOffsets fuel' (wrap64 (i + 1)) concurrency
            (<[Z.to_nat i := wrap64 (chunkSize * i)]> chunkOffset)
        else Panicked
    end
  else Done chunkOffset.

(** Lines 66-85. *)
Definition chunkPlan (filesize : Z) : outcome (list Z) :=
  let concurrency := numChunks filesize in
  match make_slice concurrency with
  | Done chunkOffset => fillOffsets (Z.to_nat concurrency) 0 concurrency chunkOffset
  | Panicked => Panicked
  | OutOfFuel => OutOfFuel
  end.
End Planner.

(** ** Program state *)

(** Goroutines: the orchestrator running [asyncReadFile], and the workers
    running [readChunk], numbered in the order they are spawned. *)
Inductive tid : Type :=
  | Orch
  | Worker (k : nat).

#[global] Instance tid_eq_dec : EqDecision tid.
Proof. solve_decision. Defined.

(** Program points of [asyncReadFile]. *)
Inductive opc : Type :=
  | OStat                (* l.60: file.Stat() *)
  | OLogErr (e : error)  (* l.62: log.Println(e), then return *)
  | OPlan (size : Z)     (* l.66-88: plan the chunks, make the channel *)
  | OLoop (i : Z)        (* l.102-103: loop test, then wg.Add(1) *)
  | OSend (i : Z)        (* l.104: gochannel <- 1 *)
  | OGo (i : Z)          (* l.105: go readChunk(gochannel, file, chunkOffset, i) *)
  | OWait                (* l.108: wg.Wait() *)
  | OReturned            (* control is back with the caller *)
  | OPanicked.

#[global] Instance opc_eq_dec : EqDecision opc.
Proof. solve_decision. Defined.

(** Program points of [readChunk]. *)
Inductive wpc : Type :=
  | WReadAt (i : Z)      (* l.113: file.ReadAt(make([]byte, asyncChunkSize), chunkOffset[i]) *)
  | WLog (e : error)     (* l.116: log.Println(_err), then return *)
  | WRecv                (* l.120: <-gochannel *)
  | WDoneCall            (* l.121: wg.Done() *)
  | WReturned            (* fell off the end of the body, l.122 *)
  | WReturnedEarly       (* left through the return of l.117 *)
  | WPanicked.

#[global] Instance wpc_eq_dec : EqDecision wpc.
Proof. solve_decision. Defined.

(** The operations on shared objects, in the order they took effect
    (newest first). *)
Inductive event : Type :=
  | EvStat (err : option error)
  | EvLog (t : tid) (e : error)
  | EvPlan (chunkOffset : list Z)
  | EvAdd
  | EvSend (v : Z)
  | EvGo (k : nat) (i : Z)
  | EvReadAt (k : nat) (off len n : Z) (err : option error)
  | EvRecv (k : nat) (v : Z)
  | EvDone (k : nat)
  | EvWaitOver.

Record state : Type := State {
  st_file : File;            (* the handle borrowed from the caller *)
  st_wg : Z;                 (* counter of the global WaitGroup [wg] *)
  st_gochannel : list Z;          (* buffer of [gochannel], oldest first *)
  st_chunkOffset : list Z;          (* the slice [chunkOffset] *)
  st_concurrency : Z;               (* the local [concurrency] *)
  st_orch : opc;
  st_workers : list wpc;     (* worker k is the k-th goroutine spawned *)
  st_trace : list event;
  st_alive : bool            (* false once a panic has killed the process *)
}.

Definition with_file (f : File) (s : state) : state :=
  State f (st_wg s) (st_gochannel s) (st_chunkOffset s) (st_concurrency s) (st_orch s)
        (st_workers s) (st_trace s) (st_alive s).
Definition with_wg (n : Z) (s : state) : state :=
  State (st_file s) n (st_gochannel s) (st_chunkOffset s) (st_concurrency s) (st_orch s)
        (st_workers s) (st_trace s) (st_alive s).
Definition with_chan (c : list Z) (s : state) : state :=
  State (st_file s) (st_wg s) c (st_chunkOffset s) (st_concurrency s) (st_orch s)
        (st_workers s) (st_trace s) (st_alive s).
Definition with_plan (n : Z) (offs : list Z) (s : state) : state :=
  State (st_file s) (st_wg s) (st_gochannel s) offs n (st_orch s)
        (st_workers s) (st_trace s) (st_alive s).
Definition with_orch (pc : opc) (s : state) : state :=
  State (st_file s) (st_wg s) (st_gochannel s) (st_chunkOffset s) (st_concurrency s) pc
        (st_workers s) (st_trace s) (st_alive s).
Definition with_workers (ws : list wpc) (s : state) : state :=
  State (st_file s) (st_wg s) (st_gochannel s) (st_chunkOffset s) (st_concurrency s) (st_orch s)
        ws (st_trace s) (st_alive s).
Definition set_worker (k : nat) (pc : wpc) (s : state) : state :=
  with_workers (<[k := pc]> (st_workers s)) s.
Definition emit (ev : event) (s : state) : state :=
  State (st_file s) (st_wg s) (st_gochannel s) (st_chunkOffset s) (st_concurrency s) (st_orch s)
        (st_workers s) (ev :: st_trace s) (st_alive s).
Definition crash (s : state) : state :=
  State (st_file s) (st_wg s) (st_gochannel s) (st_chunkOffset s) (st_concurrency s) (st_orch s)
        (st_workers s) (st_trace s) false.

(** The state in which [main] calls [asyncReadFile(file)]: the zero-valued
    WaitGroup, no channel and no worker yet. *)
Definition init (f : File) : state :=
  State f 0 [] [] 0 OStat [] [] true.

(** ** The two goroutine bodies *)

Section Program.
Variable chunkSize : Z.   (* asyncChunkSize *)
Variable NumCPU : Z.      (* runtime.NumCPU() *)

(** What [readChunk] does with the error of its read (l.115). *)
Definition after_read (err : option error) : wpc :=
  match err with
  | Some e => if decide (e = io_EOF) then WRecv else WLog e
  | None => WRecv
  end.

(** One step of [asyncReadFile]. [None]: it is blocked, or has returned.
    [make(chan int64, n)] panics for a negative [n]. A send on the
    buffered channel blocks while the buffer is full; with capacity 0 the
    channel is unbuffered and the send would wait for a receiver, of which
    there is none before the worker is spawned. The planner never runs out
    of fuel ([chunkPlan_total]). *)
Definition asyncReadFile_step (s : state) : option state :=
  match st_orch s with
  | OStat =>
      let '(r, f') := Stat (st_file s) in
      match r with
      | inl size => Some (emit (EvStat None) (with_file f' (with_orch (OPlan size) s)))
      | inr e => Some (emit (EvStat (Some e)) (with_file f' (with_orch (OLogErr e) s)))
      end
  | OLogErr e => Some (emit (EvLog Orch e) (with_orch OReturned s))
  | OPlan size =>
      let filesize := wrap64 size in
      match chunkPlan chunkSize filesize with
      | Done chunkOffset =>
          if decide (NumCPU < 0) then Some (crash (with_orch OPanicked s))
          else Some (emit (EvPlan chunkOffset)
                       (with_plan (numChunks chunkSize filesize) chunkOffset
                          (with_orch (OLoop 0) s)))
      | Panicked => Some (crash (with_orch OPanicked s))
      | OutOfFuel => None
      end
  | OLoop i =>
      if decide (i < st_concurrency s)
      then Some (emit EvAdd (with_wg (st_wg s + 1) (with_orch (OSend i) s)))
      else Some (with_orch OWait s)
  | OSend i =>
      if decide (Z.of_nat (length (st_gochannel s)) < NumCPU)
      then Some (emit (EvSend 1) (with_chan (st_gochannel s ++ [1]) (with_orch (OGo i) s)))
      else None
  | OGo i =>
      Some (emit (EvGo (length (st_workers s)) i)
              (with_workers (st_workers s ++ [WReadAt i])
                 (with_orch (OLoop (wrap64 (i + 1))) s)))
  | OWait =>
      if decide (st_wg s = 0)
      then Some (emit EvWaitOver (with_orch OReturned s))
      else None
  | OReturned | OPanicked => None
  end.

(** One step of the [readChunk] of worker [k]. [None]: the worker does
    not exist, is blocked on the empty channel, or has returned. An index
    out of range and a negative WaitGroup counter panic. *)
Definition readChunk_step (k : nat) (s : state) : option state :=
  match st_workers s !! k with
  | Some (WReadAt i) =>
      match (if decide (0 ≤ i) then st_chunkOffset s !! Z.to_nat i else None) with
      | Some off =>
          let '((n, err), f') := ReadAt (st_file s) chunkSize off in
          Some (emit (EvReadAt k off chunkSize n err)
                  (with_file f' (set_worker k (after_read err) s)))
      | None => Some (crash (set_worker k WPanicked s))
      end
  | Some (WLog e) =>
      Some (emit (EvLog (Worker k) e) (set_worker k WReturnedEarly s))
  | Some WRecv =>
      match st_gochannel s with
      | v :: rest => Some (emit (EvRecv k v) (with_chan rest (set_worker k WDoneCall s)))
      | [] => None
      end
  | Some WDoneCall =>
      if decide (st_wg s - 1 < 0)
      then Some (crash (set_worker k WPanicked s))
      else Some (emit (EvDone k) (with_wg (st_wg s - 1) (set_worker k WReturned s)))
  | Some WReturned | Some WReturnedEarly | Some WPanicked | None => None
  end.

(** One step of the program: the scheduler picks a goroutine. *)
Definition step (t : tid) (s : state) : option state :=
  if st_alive s then
    match t with
    | Orch => asyncReadFile_step s
    | Worker k => readChunk_step k s
    end
  else None.

(** Running a schedule; [None] if it picks a goroutine that cannot move. *)
Fixpoint run (sched : list tid) (s : state) : option state :=
  match sched with
  | [] => Some s
  | t :: sched' =>
      match step t s with
      | Some s' => run sched' s'
      | None => None
      end
  end.

(** The step relation, and the states an invocation on [f] can reach. *)
Definition steps (s s' : state) : Prop := ∃ t, step t s = Some s'.
Definition reachable (f : File) (s : state) : Prop := rtc steps (init f) s.

(** The goroutines that can move, and a scheduler that always runs the
    first of them. *)
Definition threads (s : state) : list tid :=
  Orch :: map Worker (seq 0 (length (st_workers s))).
Definition enabled (s : state) : list tid :=
  filter (λ t, is_Some (step t s)) (threads s).
Fixpoint run_first (fuel : nat) (s : state) : state :=
  match fuel with
  | O => s
  | S fuel' =>
      match enabled s with
      | t :: _ => match step t s with
                  | Some s' => run_first fuel' s'
                  | None => s
                  end
      | [] => s
      end
  end.
End Program.

(** ** Observations on a state *)

(** The number of elements of a list that satisfy a test. *)
Definition count {A : Type} (p : A → bool) (l : list A) : nat :=
  length (filter (λ x, p x = true) l).

(** A worker is executing its chunk read while it holds its admission slot:
    from the moment it is spawned until it has taken an element back out of
    the channel or has returned. *)
Definition executing (w : wpc) : bool :=
  match w with
  | WReadAt _ | WLog _ | WRecv => true
  | _ => false
  end.

(** The workers whose element is still in the channel. *)
Definition holds_slot (w : wpc) : bool :=
  match w with
  | WReadAt _ | WLog _ | WRecv | WReturnedEarly => true
  | _ => false
  end.

(** The workers that have received from the channel (l.120), and those that
    have called [wg.Done] (l.121). *)
Definition released (w : wpc) : bool :=
  match w with
  | WDoneCall | WReturned => true
  | _ => false
  end.
Definition signalled (w : wpc) : bool :=
  match w with
  | WReturned => true
  | _ => false
  end.

(** The workers that took the error branch of l.115, and those that went on
    past it. *)
Definition failed (w : wpc) : bool :=
  match w with
  | WLog _ | WReturnedEarly => true
  | _ => false
  end.
Definition succeeded (w : wpc) : bool :=
  match w with
  | WRecv | WDoneCall | WReturned => true
  | _ => false
  end.

(** The goroutine has returned. *)
Definition finished (w : wpc) : bool :=
  match w with
  | WReturned | WReturnedEarly | WPanicked => true
  | _ => false
  end.

Definition count_executing (s : state) : nat := count executing (st_workers s).

(** The test of l.115 on the result of the read at [off]. *)
Definition read_fails (chunkSize : Z) (f : File) (off : Z) : bool :=
  match (ReadAt f chunkSize off).1.2 with
  | Some e => bool_decide (e ≠ io_EOF)
  | None => false
  end.

(** The orchestrator is between [wg.Add(1)] and the spawn of the worker the
    call announces; it is between the send and that spawn. *)
Definition adds_pending (pc : opc) : Z :=
  match pc with
  | OSend _ | OGo _ => 1
  | _ => 0
  end.
Definition sends_pending (pc : opc) : nat :=
  match pc with
  | OGo _ => 1%nat
  | _ => 0%nat
  end.

(** Events of the trace. *)
Definition is_recv (k : nat) (ev : event) : bool :=
  match ev with EvRecv k' _ => bool_decide (k' = k) | _ => false end.
Definition is_done (k : nat) (ev : event) : bool :=
  match ev with EvDone k' => bool_decide (k' = k) | _ => false end.
Definition is_log (t : tid) (ev : event) : bool :=
  match ev with EvLog t' _ => bool_decide (t' = t) | _ => false end.
Definition is_go (ev : event) : bool :=
  match ev with EvGo _ _ => true | _ => false end.
Definition is_plan (ev : event) : bool :=
  match ev with EvPlan _ => true | _ => false end.
Definition is_read (k : nat) (ev : event) : bool :=
  match ev with EvReadAt k' _ _ _ _ => bool_decide (k' = k) | _ => false end.
Definition is_send (ev : event) : bool :=
  match ev with EvSend _ => true | _ => false end.
Definition is_add (ev : event) : bool :=
  match ev with EvAdd => true | _ => false end.
Definition is_any_recv (ev : event) : bool :=
  match ev with EvRecv _ _ => true | _ => false end.
Definition is_any_done (ev : event) : bool :=
  match ev with EvDone _ => true | _ => false end.

(** How often worker [k] has received from the channel, has called
    [wg.Done], and how many lines goroutine [t] has logged. *)
Definition releases (k : nat) (s : state) : nat := count (is_recv k) (st_trace s).
Definition signals (k : nat) (s : state) : nat := count (is_done k) (st_trace s).
Definition logged (t : tid) (s : state) : nat := count (is_log t) (st_trace s).

(** The quotient rounded up. *)
Definition ceil_div (a b : Z) : Z := (a + b - 1) `div` b.

(** ** The invariant of an invocation *)

(** The events of worker [k]. *)
Definition about (k : nat) (ev : event) : bool :=
  is_recv k ev || is_done k ev || is_log (Worker k) ev || is_read k ev.

(** Worker [k] has left no event in the trace yet. *)
Definition fresh (k : nat) (tr : list event) : Prop :=
  count (is_recv k) tr = 0%nat ∧ count (is_done k) tr = 0%nat
  ∧ count (is_log (Worker k)) tr = 0%nat ∧ count (is_read k) tr = 0%nat.

Section Invariant.
Variable chunkSize : Z.
Variable NumCPU : Z.
Variable f : File.

(** What the program point [w] of worker [k] says about its past, given
    the plan [offs] and the trace [tr]. *)
Record worker_ok (offs : list Z) (tr : list event) (k : nat) (w : wpc) : Prop := {
  wk_no_panic : w ≠ WPanicked;
  wk_index : ∀ i, w = WReadAt i → i = Z.of_nat k;
  wk_reads : count (is_read k) tr
             = Nat.b2n (negb (bool_decide (w = WReadAt (Z.of_nat k))));
  wk_releases : count (is_recv k) tr = Nat.b2n (released w);
  wk_signals : count (is_done k) tr = Nat.b2n (signalled w);
  wk_logged : count (is_log (Worker k)) tr = Nat.b2n (bool_decide (w = WReturnedEarly));
  wk_read : ∃ off, offs !! k = Some off
                   ∧ (failed w = true → read_fails chunkSize f off = true)
                   ∧ (succeeded w = true → read_fails chunkSize f off = false)
}.

(** Every read in the trace is the read of a planned offset with a buffer
    of the chunk size, and has the result the file gives there. *)
Definition read_ok (offs : list Z) (ev : event) : Prop :=
  match ev with
  | EvReadAt k off len n err =>
      len = chunkSize ∧ offs !! k = Some off
      ∧ ReadAt f chunkSize off = ((n, err), f)
  | _ => True
  end.

(** The plan in the state is the plan of the size [Stat] gave. *)
Definition planned (s : state) : Prop :=
  ∃ size, (Stat f).1 = inl size
          ∧ chunkPlan chunkSize (wrap64 size) = Done (st_chunkOffset s).

Definition plan_ok (s : state) : Prop :=
  match st_orch s with
  | OStat => True
  | OPanicked => ∃ size, (Stat f).1 = inl size
                         ∧ (NumCPU < 0 ∨ chunkPlan chunkSize (wrap64 size) = Panicked)
  | OLogErr e => (Stat f).1 = inr e
  | OPlan size => (Stat f).1 = inl size
  | OReturned => ((∃ e, (Stat f).1 = inr e) ∧ st_concurrency s = 0) ∨ planned s
  | OLoop _ | OSend _ | OGo _ | OWait => planned s
  end.

Definition orch_ok (s : state) : Prop :=
  match st_orch s with
  | OStat | OLogErr _ | OPlan _ | OPanicked =>
      st_workers s = [] ∧ st_concurrency s = 0
  | OLoop i => Z.of_nat (length (st_workers s)) = i ∧ i ≤ st_concurrency s
  | OSend i | OGo i => Z.of_nat (length (st_workers s)) = i ∧ i < st_concurrency s
  | OWait => Z.of_nat (length (st_workers s)) = st_concurrency s
  | OReturned => Z.of_nat (length (st_workers s)) = st_concurrency s ∧ st_wg s = 0
  end.

Record Inv (s : state) : Prop := {
  inv_file : st_file s = f;
  inv_conc : Z.of_nat (length (st_chunkOffset s)) = st_concurrency s
             ∧ st_concurrency s < 2 ^ 63;
  inv_orch : orch_ok s;
  inv_wg : st_wg s = Z.of_nat (length (st_workers s)) + adds_pending (st_orch s)
                     - Z.of_nat (count signalled (st_workers s));
  inv_chan : length (st_gochannel s)
             = (sends_pending (st_orch s) + count holds_slot (st_workers s))%nat;
  inv_cap : (length (st_gochannel s) ≤ Z.to_nat NumCPU)%nat;
  inv_alive : st_alive s = false → st_orch s = OPanicked;
  inv_worker : ∀ k w, st_workers s !! k = Some w →
                      worker_ok (st_chunkOffset s) (st_trace s) k w;
  inv_fresh : ∀ k, (length (st_workers s) ≤ k)%nat → fresh k (st_trace s);
  inv_plan : plan_ok s;
  inv_reads : Forall (read_ok (st_chunkOffset s)) (st_trace s);
  inv_chan_acct : (length (st_gochannel s) + count is_any_recv (st_trace s)
                   = count is_send (st_trace s))%nat;
  inv_wg_acct : st_wg s + Z.of_nat (count is_any_done (st_trace s))
                = Z.of_nat (count is_add (st_trace s));
  inv_go_acct : count is_go (st_trace s) = length (st_workers s)
}.
End Invariant.

(** ** Scenarios *)

(** [file.Seek(pos, io.SeekStart)]: moves the shared cursor. *)
Definition Seek (f : File) (pos : Z) : File :=
  mkFile (f_size f) (f_closed f) pos (f_stat_fault f) (f_bad f).

(** A healthy file of 2,500,000 bytes. *)
Definition scenario_file : File := mkFile 2500000 false 0 false [].

(** A file of one byte whose device fails the read at offset 0. *)
Definition faulty_file : File := mkFile 1 false 0 false [0].

(** A file whose size cannot be queried. *)
Definition unreadable_file : File := mkFile 2500000 false 0 true [].

(** The steps a worker past its read has left: the receive and [wg.Done]. *)
Definition steps_left (w : wpc) : nat :=
  match w with
  | WRecv => 2%nat
  | WDoneCall => 1%nat
  | _ => 0%nat
  end.

(** The three states of an invocation whose size query fails with [e]. *)
Definition stat_failed (f : File) (e : error) : state :=
  emit (EvStat (Some e)) (with_orch (OLogErr e) (init f)).
Definition stat_reported (f : File) (e : error) : state :=
  emit (EvLog Orch e) (with_orch OReturned (stat_failed f e)).

(** The schedule [run_first] follows. *)
Fixpoint sched_first (chunkSize NumCPU : Z) (fuel : nat) (s : state) : list tid :=
  match fuel with
  | O => []
  | S fuel' =>
      match enabled chunkSize NumCPU s with
      | t :: _ => match step chunkSize NumCPU t s with
                  | Some s' => t :: sched_first chunkSize NumCPU fuel' s'
                  | None => []
                  end
      | [] => []
      end
  end.

(** The orchestrator dispatches the only chunk of [faulty_file] and goes to
    [wg.Wait]; then the worker runs. *)
Definition faulty_schedule : list tid :=
  [Orch; Orch; Orch; Orch; Orch; Orch; Worker 0; Worker 0].

(** The steps a worker on the error branch has left: the log line. *)
Definition steps_left_failed (w : wpc) : nat :=
  match w with
  | WLog _ => 1%nat
  | _ => 0%nat
  end.

(** The run of [asyncReadFile] on [scenario_file] with two CPUs in which
    the first goroutine that can move always does. *)
Definition scenario_schedule : list tid :=
  sched_first asyncChunkSize 2 64 (init scenario_file).
Definition scenario_final : state :=
  run_first asyncChunkSize 2 64 (init scenario_file).

(** The state in which the run of [faulty_schedule] ends. *)
Definition faulty_final : state :=
  run_first asyncChunkSize 1 64 (init faulty_file).

(** The orchestrator dispatches the first chunk of [scenario_file], and the
    worker reads it. *)
Definition midway_schedule : list tid :=
  [Orch; Orch; Orch; Orch; Orch; Worker 0].
Definition midway : state :=
  default (init scenario_file)
    (run asyncChunkSize 2 midway_schedule (init scenario_file)).

(** With one CPU: the first worker of [scenario_file] has taken its element
    back out of the channel and is about to call [wg.Done]; the
    orchestrator has already spawned the second. *)
Definition overlap_schedule : list tid :=
  [Orch; Orch; Orch; Orch; Orch; Worker 0; Worker 0; Orch; Orch; Orch].
Definition overlap : state :=
  default (init scenario_file)
    (run asyncChunkSize 1 overlap_schedule (init scenario_file)).

(** The goroutines of workers that have not returned yet. *)
Definition count_live (s : state) : nat :=
  count (λ w, negb (finished w)) (st_workers s).

(** ** A measure of the steps left *)

Definition worker_measure (w : wpc) : nat :=
  match w with
  | WReadAt _ => 3%nat
  | WLog _ => 1%nat
  | WRecv => 2%nat
  | WDoneCall => 1%nat
  | _ => 0%nat
  end.

Definition orch_measure (chunkSize : Z) (f : File) (n : Z) (pc : opc) : nat :=
  match pc with
  | OStat => (6 * Z.to_nat (numChunks chunkSize (wrap64 (f_size f))) + 4)%nat
  | OLogErr _ => 1%nat
  | OPlan size => (6 * Z.to_nat (numChunks chunkSize (wrap64 size)) + 3)%nat
  | OLoop i => (6 * Z.to_nat (n - i) + 2)%nat
  | OSend i => (6 * Z.to_nat (n - i) + 1)%nat
  | OGo i => (6 * Z.to_nat (n - i))%nat
  | OWait => 1%nat
  | OReturned | OPanicked => 0%nat
  end.

Definition measure (chunkSize : Z) (f : File) (s : state) : nat :=
  (orch_measure chunkSize f (st_concurrency s) (st_orch s)
   + sum_list_with worker_measure (st_workers s))%nat.

(** ** Further observations on a state *)

(** The workers that left through the return of l.117. *)
Definition returned_early (w : wpc) : bool :=
  match w with
  | WReturnedEarly => true
  | _ => false
  end.

(** Worker [k] is past its read. *)
Definition has_read (o : option wpc) : bool :=
  match o with
  | Some (WReadAt _) | None => false
  | Some _ => true
  end.

(** The number of bytes the read at [off] returns. *)
Definition chunk_bytes (chunkSize : Z) (f : File) (off : Z) : Z :=
  (ReadAt f chunkSize off).1.1.

(** The bytes the reads of the trace returned, in total. *)
Definition read_bytes (ev : event) : Z :=
  match ev with
  | EvReadAt _ _ _ n _ => n
  | _ => 0
  end.
Definition bytes_read (s : state) : Z :=
  foldr (λ ev acc, read_bytes ev + acc) 0 (st_trace s).

(** The bytes of the planned chunks, from the one of index [k] on, that no
    read has returned yet. *)
Fixpoint owed_from (chunkSize : Z) (f : File) (k : nat) (offs : list Z)
    (ws : list wpc) : Z :=
  match offs with
  | [] => 0
  | off :: offs' =>
      (if has_read (ws !! k) then 0 else chunk_bytes chunkSize f off)
      + owed_from chunkSize f (S k) offs' ws
  end.

(** The spawns of the trace, oldest first: the worker and the index [i] it
    is given. *)
Definition spawn_of (ev : event) : option (nat * Z) :=
  match ev with
  | EvGo k i => Some (k, i)
  | _ => None
  end.
Definition spawns (s : state) : list (nat * Z) :=
  omap spawn_of (reverse (st_trace s)).

(** The same state with the cursor of the handle at [pos]. *)
Definition reseek (pos : Z) (s : state) : state :=
  with_file (Seek (st_file s) pos) s.

(** A file of two chunks whose device fails the read of the first. *)
Definition leak_file : File := mkFile (2 * 1048576) false 0 false [0].

(** With one CPU: the first worker of [leak_file] fails and returns; the
    orchestrator comes to the send for the second chunk. *)
Definition leak_schedule : list tid :=
  [Orch; Orch; Orch; Orch; Orch; Worker 0; Worker 0; Orch].
Definition leak_state : state :=
  default (init leak_file) (run asyncChunkSize 1 leak_schedule (init leak_file)).

(** The trace holds the failed read of worker [k] with the error [e]. *)
Definition read_failed_with (k : nat) (e : error) (tr : list event) : Prop :=
  e ≠ io_EOF ∧ ∃ off len n, EvReadAt k off len n (Some e) ∈ tr.

(** What stands behind the log lines of a state. *)
Definition logs_ok (f : File) (s : state) : Prop :=
  (∀ k e, st_workers s !! k = Some (WLog e) → read_failed_with k e (st_trace s))
  ∧ (∀ k e, EvLog (Worker k) e ∈ st_trace s → read_failed_with k e (st_trace s))
  ∧ (∀ e, EvLog Orch e ∈ st_trace s → (Stat f).1 = inr e).

(** With three CPUs: the orchestrator has dispatched the three workers of
    [scenario_file], and none of them has run yet. *)
Definition dispatched_schedule : list tid := replicate 11 Orch.
Definition dispatched : state :=
  default (init scenario_file)
    (run asyncChunkSize 3 dispatched_schedule (init scenario_file)).

(** ** The sequential scan (fileReader.go, lines 124-133)

    [syncReadFile] reads the file through a [bufio.Scanner] with the default
    split function [bufio.ScanLines]. The scanner is modelled as in
    [bufio/scan.go]; of its buffer only the window [s.buf[s.start:s.end]]
    that it looks at is kept. Indices into the buffer are natural numbers:
    they stay below the buffer length. *)

Definition syncBufferSize : Z := 512 * 1024.

#[global] Instance byte_eq_decision : EqDecision byte := byte_eq_dec.

(** [file.Read(b)] with the bytes it puts into [b]: the [len(b)] bytes from
    the cursor on, or fewer at the end of the file. [data] are the bytes of
    the file. *)
Definition ReadBytes (data : list byte) (f : File) (len : Z)
  : (list byte * option error) * File :=
  let '((n, err), f') := Read f len in
  ((take (Z.to_nat n) (drop (Z.to_nat (f_cursor f)) data), err), f').

(** [bytes.IndexByte]. *)
Fixpoint IndexByte (data : list byte) (c : byte) : option nat :=
  match data with
  | [] => None
  | b :: data' => if decide (b = c) then Some 0%nat else S <$> IndexByte data' c
  end.

(** [dropCR] drops a terminal carriage return. *)
Definition dropCR (data : list byte) : list byte :=
  match last data with
  | Some x0d => take (length data - 1) data
  | _ => data
  end.

(** [bufio.ScanLines]: the advance and the token; no token asks for more
    data. *)
Definition ScanLines (data : list byte) (atEOF : bool) : nat * option (list byte) :=
  if atEOF && bool_decide (data = []) then (0%nat, None)
  else
    match IndexByte data x0a with
    | Some i => ((i + 1)%nat, Some (dropCR (take i data)))
    | None => if atEOF then (length data, Some (dropCR data)) else (0%nat, None)
    end.

Inductive scan_error : Type :=
  | ReaderError (e : error)   (* the error of the reader, [io.EOF] among them *)
  | ErrTooLong                (* bufio.Scanner: token too long *)
  | ErrNoProgress.            (* io.ErrNoProgress *)

#[global] Instance scan_error_eq_dec : EqDecision scan_error.
Proof. solve_decision. Defined.

Record Scanner : Type := mkScanner {
  sc_r : File;                  (* s.r: the reader *)
  sc_len : nat;                 (* len(s.buf) *)
  sc_maxTokenSize : nat;        (* s.maxTokenSize *)
  sc_start : nat;               (* s.start *)
  sc_held : list byte;          (* s.buf[s.start:s.end] *)
  sc_err : option scan_error    (* s.err *)
}.

Definition sc_end (s : Scanner) : nat := (sc_start s + length (sc_held s))%nat.

(** [startBufSize], [MaxScanTokenSize] and the largest [int]. *)
Definition startBufSize : nat := 4096.
Definition MaxScanTokenSize : nat := 64 * 1024.
Definition maxInt : Z := 2 ^ 63 - 1.

(** [bufio.NewScanner(r)] and [s.Buffer(buf, max)] with [cap(buf) = cap]. *)
Definition NewScanner (r : File) : Scanner :=
  mkScanner r 0 MaxScanTokenSize 0 [] None.
Definition Buffer (s : Scanner) (cap max : nat) : Scanner :=
  mkScanner (sc_r s) cap max (sc_start s) (sc_held s) (sc_err s).

(** [s.setErr(err)] records the first error that is not [io.EOF]. *)
Definition setErr (err : scan_error) (s : Scanner) : Scanner :=
  match sc_err s with
  | None | Some (ReaderError io_EOF) =>
      mkScanner (sc_r s) (sc_len s) (sc_maxTokenSize s) (sc_start s) (sc_held s) (Some err)
  | _ => s
  end.

(** [s.advance(n)] for an [n] within the window. *)
Definition advance (n : nat) (s : Scanner) : Scanner :=
  mkScanner (sc_r s) (sc_len s) (sc_maxTokenSize s) (sc_start s + n)
            (drop n (sc_held s)) (sc_err s).

(** The shift of the window to the beginning of the buffer, and the buffer
    grown to [n] bytes. *)
Definition shifted (s : Scanner) : Scanner :=
  mkScanner (sc_r s) (sc_len s) (sc_maxTokenSize s) 0 (sc_held s) (sc_err s).
Definition grown (n : nat) (s : Scanner) : Scanner :=
  mkScanner (sc_r s) n (sc_maxTokenSize s) 0 (sc_held s) (sc_err s).

(** The end of scanning: [s.start = 0; s.end = 0]. *)
Definition shut_down (s : Scanner) : Scanner :=
  mkScanner (sc_r s) (sc_len s) (sc_maxTokenSize s) 0 [] (sc_err s).

(** What a read brought: the bytes appended to the window, the reader moved
    on, the error recorded. A reader that returns no byte and no error keeps
    doing so, until the scanner gives up with [io.ErrNoProgress]. *)
Definition filled (bytes : list byte) (err : option error) (r : File) (s : Scanner)
  : Scanner :=
  let s' := mkScanner r (sc_len s) (sc_maxTokenSize s) (sc_start s)
                      (sc_held s ++ bytes) (sc_err s) in
  match err with
  | Some e => setErr (ReaderError e) s'
  | None => if bool_decide (bytes = []) then setErr ErrNoProgress s' else s'
  end.

(** The token the scanner can give from what it holds, with the advance:
    [s.split(s.buf[s.start:s.end], s.err != nil)], called if there are data
    or an error. *)
Definition held_token (s : Scanner) : nat * option (list byte) :=
  if bool_decide (sc_start s < sc_end s)%nat || bool_decide (sc_err s ≠ None)
  then ScanLines (sc_held s) (bool_decide (sc_err s ≠ None))
  else (0%nat, None).

(** The data are shifted to the beginning of the buffer if there is lots of
    empty space or space is needed. *)
Definition make_room (s : Scanner) : Scanner :=
  if bool_decide (0 < sc_start s)%nat
     && (bool_decide (sc_end s = sc_len s)
         || bool_decide (sc_len s / 2 < sc_start s)%nat)
  then shifted s else s.

(** A full buffer is not resized beyond the maximum token size. *)
Definition cannot_grow (s : Scanner) : bool :=
  bool_decide (sc_maxTokenSize s ≤ sc_len s)%nat
  || bool_decide (maxInt `div` 2 < Z.of_nat (sc_len s)).
Definition grown_size (s : Scanner) : nat :=
  let newSize := (sc_len s * 2)%nat in
  let newSize := if bool_decide (newSize = 0%nat) then startBufSize else newSize in
  Nat.min newSize (sc_maxTokenSize s).

(** [s.r.Read(s.buf[s.end:len(s.buf)])]. *)
Definition read_more (data : list byte) (s : Scanner) : Scanner :=
  let '((bytes, err), r) :=
    ReadBytes data (sc_r s) (Z.of_nat (sc_len s - sc_end s)) in
  filled bytes err r s.

(** [s.Scan()]: the token, if the call returns [true], and the scanner
    after the call. [data] are the bytes of the file behind the reader.
    [ScanLines] returns no error and never an empty token without an
    advance at the end of the input, so the branches of [Scan] for these,
    the panic after too many empty tokens among them, are not taken. *)
Fixpoint Scan (fuel : nat) (data : list byte) (s : Scanner)
  : outcome (option (list byte) * Scanner) :=
  match fuel with
  | O => OutOfFuel
  | S fuel' =>
      (* See if we can get a token with what we already have. *)
      let '(n, token) := held_token s in
      let s := advance n s in
      match token with
      | Some t => Done (Some t, s)
      | None =>
          (* We cannot generate a token with what we are holding. If we have
             already hit EOF or an I/O error, we are done. *)
          if bool_decide (sc_err s ≠ None) then Done (None, shut_down s)
          else
            (* Must read more data. *)
            let s := make_room s in
            (* Is the buffer full? If so, resize. *)
            if bool_decide (sc_end s = sc_len s) then
              if cannot_grow s then Done (None, setErr ErrTooLong s)
              else Scan fuel' data (read_more data (grown (grown_size s) s))
            else Scan fuel' data (read_more data s)
      end
  end.

(** The loop of l.130-132; the texts are discarded by the program and kept
    here for the record. *)
Fixpoint scan_all (fuel : nat) (data : list byte) (s : Scanner)
    (texts : list (list byte)) : outcome (list (list byte) * Scanner) :=
  match fuel with
  | O => OutOfFuel
  | S fuel' =>
      match Scan (length data + 2) data s with
      | Done (Some t, s') => scan_all fuel' data s' (texts ++ [t])
      | Done (None, s') => Done (texts, s')
      | Panicked => Panicked
      | OutOfFuel => OutOfFuel
      end
  end.

Section SyncRead.
Variable bufSize : nat.   (* syncBufferSize *)

(** Lines 124-133. The result is the texts scanned and the scanner left
    behind, with the file handle in it. *)
Definition syncReadFile (data : list byte) (file : File)
  : outcome (list (list byte) * Scanner) :=
  let scanner := NewScanner file in
  let scanner := Buffer scanner bufSize bufSize in
  scan_all (length data + 1) data scanner [].
End SyncRead.

(** ** What the scan is to find *)

(** The lines of [rest] for a scanner that holds at most [max] bytes: the
    texts up to the end of the data, or up to the first line that has no
    newline among its first [max] bytes; and the bytes consumed. *)
Inductive scan_end : Type :=
  | AtEOF
  | TooLong.

(** The next line of [rest]: its text and the bytes it takes, or the end. *)
Definition next_line (max : nat) (rest : list byte)
  : (list byte * nat) + scan_end :=
  match rest with
  | [] => inr AtEOF
  | _ =>
      match IndexByte (take max rest) x0a with
      | Some i => inl (dropCR (take i rest), S i)
      | None =>
          if bool_decide (length rest < max)%nat
          then inl (dropCR rest, length rest)
          else inr TooLong
      end
  end.

Fixpoint lines_upto (fuel : nat) (max : nat) (rest : list byte)
  : list (list byte) * nat * scan_end :=
  match fuel with
  | O => ([], 0%nat, AtEOF)
  | S fuel' =>
      match next_line max rest with
      | inl (t, n) =>
          let '(texts, m, e) := lines_upto fuel' max (drop n rest) in
          (t :: texts, (n + m)%nat, e)
      | inr e => ([], 0%nat, e)
      end
  end.

(** Every [max] bytes in a row of [rest] hold a newline. *)
Definition short_lines (max : nat) (rest : list byte) : bool :=
  forallb (λ i, bool_decide (x0a ∈ take max (drop i rest)))
          (seq 0 (length rest + 1 - max)).

(** The lines [raws], each one followed by a newline. *)
Definition terminated (raws : list (list byte)) : list byte :=
  concat ((λ raw, raw ++ [x0a]) <$> raws).

(** ** The scanner between two calls of [Scan]

    [p] is the offset in the file of the first byte the scanner still
    holds; [f] is the handle as [syncReadFile] received it. *)
Record scanning (bufSize : nat) (data : list byte) (f : File) (p : nat)
    (s : Scanner) : Prop := {
  sg_len : sc_len s = bufSize;
  sg_max : sc_maxTokenSize s = bufSize;
  sg_reader : sc_r s = Seek f (Z.of_nat (p + length (sc_held s)));
  sg_held : sc_held s = take (length (sc_held s)) (drop p data);
  sg_bound : (p + length (sc_held s) ≤ length data)%nat;
  sg_fits : (sc_start s + length (sc_held s) ≤ bufSize)%nat;
  sg_err : sc_err s = None
           ∨ (sc_err s = Some (ReaderError io_EOF)
              ∧ (p + length (sc_held s))%nat = length data
              ∧ (sc_start s + length (sc_held s) < bufSize)%nat)
}.

(** The iterations a call of [Scan] may still need. *)
Definition scan_measure (data : list byte) (p : nat) (s : Scanner) : nat :=
  match sc_err s with
  | Some _ => 1%nat
  | None => (length data - (p + length (sc_held s)) + 2)%nat
  end.

(** ** The scanner, whatever the reads return

    The scanner of [syncReadFile] on the handle [f]: the buffer and the
    limit are those of l.128-129, the reader is [f] but for its cursor,
    which stands within the file, and the window is within the buffer. *)
Record scanner_ok (bufSize : nat) (f : File) (s : Scanner) : Prop := {
  so_len : sc_len s = bufSize;
  so_max : sc_maxTokenSize s = bufSize;
  so_reader : sc_r s = Seek f (f_cursor (sc_r s));
  so_cursor : 0 ≤ f_cursor (sc_r s) ≤ f_size f;
  so_fits : (sc_start s + length (sc_held s) ≤ bufSize)%nat
}.

(** The bytes not yet given: those held and those behind the cursor. *)
Definition unscanned (s : Scanner) : nat :=
  (length (sc_held s) + Z.to_nat (f_size (sc_r s) - f_cursor (sc_r s)))%nat.

(** The iterations a call of [Scan] may still need. *)
Definition read_measure (s : Scanner) : nat :=
  match sc_err s with
  | Some _ => 1%nat
  | None => (Z.to_nat (f_size (sc_r s) - f_cursor (sc_r s)) + 2)%nat
  end.

(** ** Two small files

    With a buffer of eight bytes: a file of four short lines, one of them
    empty, one ended by a carriage return and the last without a newline;
    and a file whose second line is longer than the buffer. *)
Definition lines_data : list byte :=
  [x61; x62; x0d; x0a; x63; x64; x0a; x0a; x65; x66].
Definition lines_file : File := mkFile 10 false 0 false [].

(** A file of one line that the device cannot read. *)
Definition broken_data : list byte := [x61; x0a].
Definition broken_file : File := mkFile 2 false 0 false [0].


(** * Properties *)

(** ** Machine arithmetic and the planner *)

Lemma wrap64_id (z : Z) : int64_range z → wrap64 z = z.
Proof.
  unfold int64_range, wrap64. intros Hz.
  rewrite Z.mod_small by lia. lia.
Qed.

Lemma wrap64_range (z : Z) : int64_range (wrap64 z).
Proof.
  unfold int64_range, wrap64.
  pose proof (Z.mod_pos_bound (z + 2 ^ 63) (2 ^ 64) ltac:(lia)). lia.
Qed.

Lemma ceil_div_bounds (a b : Z) :
  0 ≤ a → 0 < b → (ceil_div a b - 1) * b < a ≤ ceil_div a b * b.
Proof.
  intros Ha Hb. unfold ceil_div.
  pose proof (Z.div_mod (a + b - 1) b ltac:(lia)) as Hdm.
  pose proof (Z.mod_pos_bound (a + b - 1) b Hb) as Hm.
  nia.
Qed.

Lemma ceil_div_unique (a b n : Z) :
  0 < b → (n - 1) * b < a ≤ n * b → ceil_div a b = n.
Proof.
  intros Hb Hn. unfold ceil_div.
  symmetry. apply (Z.div_unique_pos _ _ _ (a + b - 1 - n * b)); lia.
Qed.

Section PlannerFacts.
Variable chunkSize : Z.
Hypothesis chunk_pos : 0 < chunkSize.
Hypothesis chunk_int : chunkSize < 2 ^ 63.

Lemma numChunks_ceil (filesize : Z) :
  0 ≤ filesize < 2 ^ 63 →
  numChunks chunkSize filesize = ceil_div filesize chunkSize.
Proof using chunk_pos chunk_int.
  intros Hfs. unfold numChunks, go_div, go_rem.
  rewrite Z.quot_div_nonneg, Z.rem_mod_nonneg by lia.
  pose proof (Z.div_mod filesize chunkSize ltac:(lia)) as Hdm.
  pose proof (Z.mod_pos_bound filesize chunkSize chunk_pos) as Hm.
  assert (0 ≤ filesize `div` chunkSize) as Hq by (apply Z.div_pos; lia).
  rewrite (wrap64_id (filesize `div` chunkSize)) by (unfold int64_range; nia).
  case_decide as Hr.
  - assert (2 ≤ chunkSize) as H2.
    { destruct (decide (chunkSize = 1)) as [->|]; [|lia].
      rewrite Z.mod_1_r in Hr. done. }
    rewrite wrap64_id by (unfold int64_range; nia).
    symmetry. apply ceil_div_unique; [done|]. nia.
  - symmetry. apply ceil_div_unique; [done|]. nia.
Qed.

Lemma ceil_div_nonneg (filesize : Z) : 0 ≤ filesize → 0 ≤ ceil_div filesize chunkSize.
Proof using chunk_pos.
  intros Hfs. pose proof (ceil_div_bounds filesize chunkSize Hfs chunk_pos). nia.
Qed.

(** The loop of lines 83-85 from index [i] on: the first [i] elements are
    kept and the others are overwritten with the offsets. *)
Lemma fillOffsets_from (n : Z) (m : nat) :
  ∀ (fuel : nat) (i : Z) (chunkOffset : list Z),
    Z.of_nat m = n - i → 0 ≤ i → n < 2 ^ 63 →
    (∀ j, 0 ≤ j < n → int64_range (chunkSize * j)) →
    Z.of_nat (length chunkOffset) = n → (m ≤ fuel)%nat →
    fillOffsets chunkSize fuel i n chunkOffset
    = Done (take (Z.to_nat i) chunkOffset ++ (Z.mul chunkSize <$> seqZ i (n - i))).
Proof.
  induction m as [|m IH]; intros fuel i co Hm Hi Hn Hrange Hlen Hfuel.
  - assert (i = n) as -> by lia.
    destruct fuel; simpl; (case_decide; [lia|]).
    all: rewrite Z.sub_diag, seqZ_nil, app_nil_r by lia.
    all: rewrite firstn_all2 by lia; done.
  - destruct fuel as [|fuel]; [lia|]. simpl.
    case_decide; [|lia]. case_decide; [|lia].
    rewrite wrap64_id by (unfold int64_range; lia).
    rewrite (wrap64_id (chunkSize * i)) by (apply Hrange; lia).
    rewrite IH; [|lia|lia|done|done|by rewrite length_insert|lia].
    f_equal.
    replace (Z.to_nat (i + 1)) with (S (Z.to_nat i)) by lia.
    rewrite (take_S_r _ _ (chunkSize * i)) by (apply list_lookup_insert_eq; lia).
    rewrite take_insert_ge by lia.
    rewrite <- app_assoc. f_equal.
    rewrite (seqZ_cons i) by lia. simpl. do 3 f_equal; lia.
Qed.

(** The plan is the list of the multiples of the chunk size below the
    file size. *)
Lemma chunkPlan_eq (filesize : Z) :
  0 ≤ filesize < 2 ^ 63 →
  chunkPlan chunkSize filesize
  = Done (Z.mul chunkSize <$> seqZ 0 (ceil_div filesize chunkSize)).
Proof using chunk_pos chunk_int.
  intros Hfs. unfold chunkPlan. rewrite numChunks_ceil by done.
  pose proof (ceil_div_bounds filesize chunkSize ltac:(lia) chunk_pos) as Hb.
  pose proof (ceil_div_nonneg filesize ltac:(lia)) as Hn.
  set (n := ceil_div filesize chunkSize) in *.
  unfold make_slice. case_decide; [lia|].
  rewrite (fillOffsets_from n (Z.to_nat n)); try lia.
  - simpl. by rewrite Z.sub_0_r.
  - nia.
  - intros j Hj. unfold int64_range. nia.
  - rewrite length_replicate. lia.
Qed.
End PlannerFacts.

Lemma fillOffsets_length (chunkSize : Z) (fuel : nat) :
  ∀ (i n : Z) (co co' : list Z),
    fillOffsets chunkSize fuel i n co = Done co' → length co' = length co.
Proof.
  induction fuel as [|fuel IH]; intros i n co co' H; simpl in H.
  - case_decide; by simplify_eq.
  - case_decide; [|by simplify_eq]. case_decide; [|done].
    apply IH in H. by rewrite length_insert in H.
Qed.

Lemma numChunks_range (chunkSize filesize : Z) :
  int64_range (numChunks chunkSize filesize).
Proof. unfold numChunks, go_div. case_decide; apply wrap64_range. Qed.

Lemma chunkPlan_length (chunkSize filesize : Z) (offs : list Z) :
  chunkPlan chunkSize filesize = Done offs →
  Z.of_nat (length offs) = numChunks chunkSize filesize.
Proof.
  unfold chunkPlan, make_slice. case_decide as Hneg; [done|]. intros Hfill.
  apply fillOffsets_length in Hfill. rewrite Hfill, length_replicate. lia.
Qed.

(** The fuel [chunkPlan] gives the loop of l.83-85 is always enough. *)
Lemma fillOffsets_fuel (chunkSize : Z) (fuel : nat) :
  ∀ (i n : Z) (co : list Z),
    n < 2 ^ 63 → 0 ≤ i → n - i ≤ Z.of_nat fuel →
    fillOffsets chunkSize fuel i n co ≠ OutOfFuel.
Proof.
  induction fuel as [|fuel IH]; intros i n co Hn Hi Hfuel; simpl.
  - case_decide; [lia|done].
  - case_decide; [|done]. case_decide; [|done].
    rewrite wrap64_id by (unfold int64_range; lia).
    apply IH; lia.
Qed.

Lemma chunkPlan_total (chunkSize filesize : Z) :
  chunkPlan chunkSize filesize ≠ OutOfFuel.
Proof.
  unfold chunkPlan, make_slice.
  pose proof (numChunks_range chunkSize filesize) as Hr. unfold int64_range in Hr.
  case_decide; [done|]. apply fillOffsets_fuel; lia.
Qed.

(** ** The file handle *)

Lemma ReadAt_file (f : File) (len off : Z) : (ReadAt f len off).2 = f.
Proof. unfold ReadAt. repeat case_match; done. Qed.

Lemma Stat_file (f : File) : (Stat f).2 = f.
Proof. unfold Stat. repeat case_match; done. Qed.

(** The operations that would change the handle, none of which
    [asyncReadFile] or [readChunk] applies. *)
Lemma handle_changing_operations :
  (Read scenario_file 10).2 ≠ scenario_file
  ∧ (Close scenario_file).2 ≠ scenario_file
  ∧ Seek scenario_file 10 ≠ scenario_file.
Proof. split_and!; vm_compute; discriminate. Qed.

(** ** Counting *)

Lemma count_nil {A} (p : A → bool) : count p [] = 0%nat.
Proof. done. Qed.

Lemma count_cons {A} (p : A → bool) (x : A) (l : list A) :
  count p (x :: l) = (Nat.b2n (p x) + count p l)%nat.
Proof.
  unfold count. rewrite filter_cons.
  destruct (p x); done.
Qed.

Lemma count_cons_false {A} (p : A → bool) (x : A) (l : list A) :
  p x = false → count p (x :: l) = count p l.
Proof. intros H. by rewrite count_cons, H. Qed.

Lemma count_cons_true {A} (p : A → bool) (x : A) (l : list A) :
  p x = true → count p (x :: l) = S (count p l).
Proof. intros H. by rewrite count_cons, H. Qed.

Lemma count_app {A} (p : A → bool) (l1 l2 : list A) :
  count p (l1 ++ l2) = (count p l1 + count p l2)%nat.
Proof. unfold count. by rewrite filter_app, length_app. Qed.

Lemma count_le_length {A} (p : A → bool) (l : list A) : (count p l ≤ length l)%nat.
Proof. apply length_filter. Qed.

Lemma count_insert {A} (p : A → bool) (l : list A) (k : nat) (x y : A) :
  l !! k = Some x →
  (count p (<[k := y]> l) + Nat.b2n (p x) = count p l + Nat.b2n (p y))%nat.
Proof.
  intros Hk. pose proof (lookup_lt_Some _ _ _ Hk) as Hlt.
  rewrite insert_take_drop by done.
  rewrite <- (take_drop_middle l k x Hk) at 3.
  rewrite !count_app, !count_cons. lia.
Qed.

Lemma count_all {A} (p : A → bool) (l : list A) :
  count p l = length l → ∀ k x, l !! k = Some x → p x = true.
Proof.
  induction l as [|y l IH]; intros Hc k x Hk; [done|].
  rewrite count_cons in Hc. simpl in Hc.
  pose proof (count_le_length p l).
  destruct (p y) eqn:Hy; simpl in Hc; [|lia].
  destruct k as [|k]; simplify_eq/=; [done|].
  eapply IH; [lia|done].
Qed.

Lemma count_lookup_pos {A} (p : A → bool) (l : list A) (k : nat) (x : A) :
  l !! k = Some x → p x = true → (0 < count p l)%nat.
Proof.
  intros Hk Hp. rewrite <- (take_drop_middle l k x Hk).
  rewrite count_app, count_cons, Hp. simpl. lia.
Qed.

Lemma count_lookup_lt {A} (p : A → bool) (l : list A) (k : nat) (x : A) :
  l !! k = Some x → p x = false → (count p l < length l)%nat.
Proof.
  intros Hk Hp. rewrite <- (take_drop_middle l k x Hk).
  rewrite count_app, count_cons, Hp, length_app. simpl.
  pose proof (count_le_length p (take k l)).
  pose proof (count_le_length p (drop (S k) l)). lia.
Qed.

Lemma count_pos_lookup {A} (p : A → bool) (l : list A) :
  (0 < count p l)%nat → ∃ k x, l !! k = Some x ∧ p x = true.
Proof.
  induction l as [|y l IH]; [rewrite count_nil; lia|].
  rewrite count_cons. destruct (p y) eqn:Hy.
  - intros _. by exists 0%nat, y.
  - simpl. intros Hpos. destruct (IH Hpos) as (k & x & Hk & Hx).
    by exists (S k), x.
Qed.

Lemma count_lt_lookup {A} (p : A → bool) (l : list A) :
  (count p l < length l)%nat → ∃ k x, l !! k = Some x ∧ p x = false.
Proof.
  induction l as [|y l IH]; [simpl; lia|].
  rewrite count_cons. destruct (p y) eqn:Hy.
  - simpl. intros Hlt. destruct IH as (k & x & Hk & Hx); [lia|].
    by exists (S k), x.
  - intros _. by exists 0%nat, y.
Qed.

Lemma count_mono {A} (p q : A → bool) (l : list A) :
  (∀ x, p x = true → q x = true) → (count p l ≤ count q l)%nat.
Proof.
  intros Hpq. induction l as [|x l IH]; [done|].
  rewrite !count_cons. specialize (Hpq x).
  destruct (p x); simpl; [rewrite Hpq by done; simpl; lia|lia].
Qed.

Lemma sum_list_with_insert {A} (g : A → nat) (l : list A) (k : nat) (x y : A) :
  l !! k = Some x →
  (sum_list_with g (<[k := y]> l) + g x = sum_list_with g l + g y)%nat.
Proof.
  intros Hk. pose proof (lookup_lt_Some _ _ _ Hk) as Hlt.
  rewrite insert_take_drop by done.
  rewrite <- (take_drop_middle l k x Hk) at 3.
  rewrite !sum_list_with_app. simpl. lia.
Qed.

(** ** The invariant holds in every reachable state *)

Lemma about_false (k : nat) (ev : event) :
  about k ev = false →
  is_recv k ev = false ∧ is_done k ev = false
  ∧ is_log (Worker k) ev = false ∧ is_read k ev = false.
Proof.
  unfold about. intros H.
  destruct (orb_false_elim _ _ H) as [H3 ?].
  destruct (orb_false_elim _ _ H3) as [H2 ?].
  destruct (orb_false_elim _ _ H2) as [? ?]. done.
Qed.

Section Frame.
Variable chunkSize : Z.
Variable f : File.

(** An event of another goroutine leaves what is known of worker [k]. *)
Lemma worker_ok_emit (offs : list Z) (tr : list event) (k : nat) (w : wpc) (ev : event) :
  about k ev = false →
  worker_ok chunkSize f offs tr k w → worker_ok chunkSize f offs (ev :: tr) k w.
Proof.
  intros (Hr & Hd & Hl & Hrd)%about_false [].
  split; rewrite ?count_cons_false by done; done.
Qed.

Lemma fresh_emit (tr : list event) (k : nat) (ev : event) :
  about k ev = false → fresh k tr → fresh k (ev :: tr).
Proof.
  intros (Hr & Hd & Hl & Hrd)%about_false (? & ? & ? & ?).
  unfold fresh. rewrite !count_cons_false by done. done.
Qed.

(** What a step of worker [j] leaves of the other workers. *)
Lemma others_ok (offs : list Z) (tr : list event) (ws : list wpc)
    (j : nat) (w' : wpc) (ev : event) :
  (∀ k, k ≠ j → about k ev = false) →
  (∀ k w, ws !! k = Some w → worker_ok chunkSize f offs tr k w) →
  worker_ok chunkSize f offs (ev :: tr) j w' →
  ∀ k w, <[j := w']> ws !! k = Some w → worker_ok chunkSize f offs (ev :: tr) k w.
Proof.
  intros Hev Hwk Hj k w Hk.
  destruct (decide (k = j)) as [->|Hne].
  - pose proof (lookup_lt_Some _ _ _ Hk) as Hlt. rewrite length_insert in Hlt.
    rewrite list_lookup_insert_eq in Hk by done. by simplify_eq.
  - rewrite list_lookup_insert_ne in Hk by done.
    apply worker_ok_emit; [by apply Hev|by apply Hwk].
Qed.

Lemma others_fresh (tr : list event) (ws : list wpc) (j : nat) (w' : wpc) (ev : event) :
  (j < length ws)%nat →
  (∀ k, k ≠ j → about k ev = false) →
  (∀ k, (length ws ≤ k)%nat → fresh k tr) →
  ∀ k, (length (<[j := w']> ws) ≤ k)%nat → fresh k (ev :: tr).
Proof.
  intros Hj Hev Hfr k Hk. rewrite length_insert in Hk.
  apply fresh_emit; [apply Hev; lia|by apply Hfr].
Qed.

(** While no worker has read, the trace holds no read. *)
Lemma read_ok_fresh (offs : list Z) (tr : list event) :
  (∀ k, fresh k tr) → Forall (read_ok chunkSize f offs) tr.
Proof.
  intros Hfr. apply Forall_forall. intros ev Hev.
  destruct ev as [| | | | | |k off len n err| | |]; try done.
  destruct (Hfr k) as (_ & _ & _ & Hr).
  apply list_elem_of_lookup in Hev as [i Hi].
  pose proof (count_lookup_pos (is_read k) tr i _ Hi) as Hpos.
  simpl in Hpos. rewrite bool_decide_eq_true_2 in Hpos by done.
  specialize (Hpos eq_refl). lia.
Qed.

Lemma about_other (j k : nat) (ev : event) :
  k ≠ j →
  match ev with
  | EvReadAt j' _ _ _ _ | EvRecv j' _ | EvDone j' | EvLog (Worker j') _ => j' = j
  | _ => True
  end →
  about k ev = false.
Proof.
  intros Hne Hev. unfold about.
  destruct ev as [|[|]| | | | | | | |]; simpl; try done; subst;
    rewrite bool_decide_eq_false_2 by congruence; done.
Qed.
End Frame.

(** Closes the fields of the invariant that a step leaves as they were. *)
Ltac inv_frame Hwk Hfr :=
  try done; try lia; try (split; lia);
  try (rewrite ?count_cons; simpl; lia);
  try (apply Forall_cons; split; done);
  try (let k := fresh "k" in let w := fresh "w" in let Hk := fresh "Hk" in
       intros k w Hk; apply worker_ok_emit; [done|by apply Hwk]);
  try (let k := fresh "k" in let Hk := fresh "Hk" in
       intros k Hk; apply fresh_emit; [done|by apply Hfr]).

Section Safety.
Variable chunkSize : Z.
Variable NumCPU : Z.
Variable f : File.

Local Abbreviation Inv := (Inv chunkSize NumCPU f).
Local Abbreviation worker_ok := (worker_ok chunkSize f).

Lemma Inv_init : Inv (init f).
Proof. split; simpl; try done. lia. Qed.

Lemma Inv_asyncReadFile_step (s s' : state) :
  Inv s → st_alive s = true → asyncReadFile_step chunkSize NumCPU s = Some s' → Inv s'.
Proof.
  destruct s as [f0 wg ch offs n pc ws tr al].
  intros [Hf [Hlen Hn] Ho Hwg Hch Hcap _ Hwk Hfr Hpl Hrds Hca Hwa Hga] Hal.
  unfold asyncReadFile_step, orch_ok, plan_ok, planned in *; simpl in *. subst f0 al.
  destruct pc as [|e|size|i|i|i| | |]; simpl in *.
  - (* l.60 *)
    pose proof (Stat_file f) as Hsf.
    destruct (Stat f) as [[size|e] f'] eqn:HS; simpl in Hsf; subst f';
      intros; simplify_eq; split; unfold orch_ok, plan_ok, planned; simpl in *;
      inv_frame Hwk Hfr; by rewrite HS.
  - (* l.62 *)
    intros; simplify_eq. destruct Ho as [-> Hz].
    split; unfold orch_ok, plan_ok, planned; simpl in *; inv_frame Hwk Hfr.
    left. split; [by exists e|done].
  - (* l.66-88 *)
    destruct Ho as [-> Hz].
    destruct (chunkPlan chunkSize (wrap64 size)) as [co| |] eqn:Hplan;
      [|intros; simplify_eq; split; try done; exists size; auto|done].
    case_decide; intros; simplify_eq; [split; try done; exists size; auto|].
    pose proof (chunkPlan_length _ _ _ Hplan) as Hl.
    pose proof (numChunks_range chunkSize (wrap64 size)) as Hr.
    unfold int64_range in Hr.
    split; unfold orch_ok, plan_ok, planned; simpl in *; inv_frame Hwk Hfr.
    + by exists size.
    + apply Forall_cons. split; [done|].
      apply read_ok_fresh. intros k. apply Hfr. lia.
  - (* l.102-103 *)
    destruct Ho as [Hi Hle].
    case_decide; intros; simplify_eq; split; unfold orch_ok, plan_ok, planned; simpl in *;
      inv_frame Hwk Hfr.
  - (* l.104 *)
    case_decide; intros; simplify_eq; split; unfold orch_ok, plan_ok, planned; simpl in *;
      inv_frame Hwk Hfr.
    + rewrite length_app, Hch. simpl. lia.
    + rewrite length_app. simpl. lia.
    + rewrite length_app, !count_cons. simpl. lia.
  - (* l.105 *)
    destruct Ho as [Hi Hlt].
    intros; simplify_eq; split; unfold orch_ok, plan_ok, planned; simpl in *; inv_frame Hwk Hfr.
    + rewrite wrap64_id by (unfold int64_range; lia).
      rewrite length_app. simpl. lia.
    + rewrite length_app, count_app, count_cons, count_nil. simpl. lia.
    + rewrite count_app, count_cons, count_nil. simpl in *. lia.
    + intros k w Hk.
      destruct (decide (k < length ws)%nat) as [Hlt'|Hge].
      * rewrite lookup_app_l in Hk by done.
        apply worker_ok_emit; [done|by apply Hwk].
      * rewrite lookup_app_r in Hk by lia.
        destruct (k - length ws)%nat as [|?] eqn:Hd; simplify_eq/=.
        assert (k = length ws) as -> by lia.
        destruct (Hfr (length ws) ltac:(lia)) as (Hr & Hd' & Hl & Hrd).
        destruct (lookup_lt_is_Some_2 offs (length ws) ltac:(lia)) as [off Hoff].
        split; simpl; rewrite ?count_cons_false by done; try done.
        -- intros ? [= <-]. done.
        -- rewrite bool_decide_eq_true_2 by done. done.
        -- exists off. done.
    + intros k Hk. rewrite length_app in Hk. simpl in Hk.
      apply fresh_emit; [done|apply Hfr; lia].
    + rewrite length_app, count_cons. simpl. lia.
  - (* l.108 *)
    case_decide; intros; simplify_eq; split; unfold orch_ok, plan_ok, planned; simpl in *;
      inv_frame Hwk Hfr.
    by right.
  - done.
  - done.
Qed.

Lemma Inv_readChunk_step (j : nat) (s s' : state) :
  Inv s → st_alive s = true → readChunk_step chunkSize j s = Some s' → Inv s'.
Proof.
  destruct s as [f0 wg ch offs n pc ws tr al].
  intros [Hf [Hlen Hn] Ho Hwg Hch Hcap _ Hwk Hfr Hpl Hrds Hca Hwa Hga] Hal.
  unfold readChunk_step, orch_ok, plan_ok, planned in *. simpl in *. subst f0 al.
  destruct (ws !! j) as [w|] eqn:Hj; [|done].
  pose proof (lookup_lt_Some _ _ _ Hj) as Hjlt.
  pose proof (Hwk j w Hj) as [Hnp Hidx Hrd Hrel Hsig Hlog (off & Hoff & Hfail & Hsucc)].
  simpl in *.
  destruct w as [i|e| | | | |]; try done.
  - (* l.113-115 *)
    pose proof (Hidx i eq_refl) as ->.
    rewrite decide_True, Nat2Z.id, Hoff by lia.
    pose proof (ReadAt_file f chunkSize off) as Hrf.
    destruct (ReadAt f chunkSize off) as [[m err] f'] eqn:HR.
    simpl in Hrf. subst f'. intros [= <-].
    pose proof (count_insert holds_slot _ j _ (after_read err) Hj) as Hc1.
    pose proof (count_insert signalled _ j _ (after_read err) Hj) as Hc2.
    assert (holds_slot (after_read err) = true ∧ signalled (after_read err) = false
            ∧ released (after_read err) = false
            ∧ after_read err ≠ WPanicked ∧ after_read err ≠ WReturnedEarly
            ∧ (∀ i', after_read err ≠ WReadAt i')) as (Hh & Hs & Hr & Hp & He & Hi).
    { unfold after_read. destruct err as [e|]; [destruct (decide (e = io_EOF))|]; done. }
    rewrite Hh, Hs in *. simpl in Hc1, Hc2.
    split; unfold orch_ok, plan_ok, planned; simpl in *; try done.
    + destruct pc; rewrite ?length_insert; try done;
        destruct Ho as [-> ?]; simpl in Hjlt; lia.
    + rewrite length_insert. lia.
    + lia.
    + apply others_ok; [intros; by apply (about_other j)|done|].
      split; simpl; rewrite ?count_cons_false by done; rewrite ?Hr, ?Hs; try done.
      * intros i' Hi'. by destruct (Hi i').
      * rewrite count_cons_true by (simpl; by rewrite bool_decide_eq_true_2).
        rewrite Hrd, !bool_decide_eq_true_2 by done.
        rewrite bool_decide_eq_false_2 by apply Hi. done.
      * by rewrite bool_decide_eq_false_2.
      * exists off. split; [done|].
        unfold read_fails. rewrite HR. simpl.
        unfold after_read. destruct err as [e|]; [|done].
        destruct (decide (e = io_EOF)) as [->|Hne]; simpl; split; intros ?; try done.
        by apply bool_decide_eq_true_2.
    + apply others_fresh; [done|intros; by apply (about_other j)|done].
    + apply Forall_cons. by split.
    + by rewrite length_insert, count_cons.
  - (* l.116-117 *)
    intros [= <-].
    pose proof (count_insert holds_slot _ j _ WReturnedEarly Hj) as Hc1.
    pose proof (count_insert signalled _ j _ WReturnedEarly Hj) as Hc2.
    simpl in Hc1, Hc2.
    split; unfold orch_ok, plan_ok, planned; simpl in *; try done.
    + destruct pc; rewrite ?length_insert; try done;
        destruct Ho as [-> ?]; simpl in Hjlt; lia.
    + rewrite length_insert. lia.
    + lia.
    + apply others_ok; [intros; by apply (about_other j)|done|].
      split; simpl; rewrite ?count_cons_false by done; try done.
      * rewrite count_cons_true by (simpl; by rewrite bool_decide_eq_true_2).
        by rewrite Hlog.
      * exists off. done.
    + apply others_fresh; [done|intros; by apply (about_other j)|done].
    + apply Forall_cons. by split.
    + by rewrite length_insert, count_cons.
  - (* l.120 *)
    destruct ch as [|v rest]; [done|]. intros [= <-].
    pose proof (count_insert holds_slot _ j _ WDoneCall Hj) as Hc1.
    pose proof (count_insert signalled _ j _ WDoneCall Hj) as Hc2.
    simpl in Hc1, Hc2.
    split; unfold orch_ok, plan_ok, planned; simpl in *; try done.
    + destruct pc; rewrite ?length_insert; try done;
        destruct Ho as [-> ?]; simpl in Hjlt; lia.
    + rewrite length_insert. lia.
    + lia.
    + lia.
    + apply others_ok; [intros; by apply (about_other j)|done|].
      split; simpl; rewrite ?count_cons_false by done; try done.
      * rewrite count_cons_true by (simpl; by rewrite bool_decide_eq_true_2).
        by rewrite Hrel.
      * exists off. done.
    + apply others_fresh; [done|intros; by apply (about_other j)|done].
    + apply Forall_cons. by split.
    + rewrite !count_cons. simpl. lia.
    + by rewrite length_insert, count_cons.
  - (* l.121 *)
    pose proof (count_insert holds_slot _ j _ WReturned Hj) as Hc1.
    pose proof (count_insert signalled _ j _ WReturned Hj) as Hc2.
    pose proof (count_lookup_lt signalled _ _ _ Hj eq_refl) as Hc3.
    simpl in Hc1, Hc2.
    assert (0 ≤ adds_pending pc) as Hap by (by destruct pc).
    destruct (decide (wg - 1 < 0)) as [Hneg|Hnn]; [lia|]. intros [= <-].
    split; unfold orch_ok, plan_ok, planned; simpl in *; try done.
    + destruct pc; rewrite ?length_insert; try done; try lia;
        destruct Ho as [? ?]; simplify_eq/=; lia.
    + rewrite length_insert. lia.
    + lia.
    + apply others_ok; [intros; by apply (about_other j)|done|].
      split; simpl; rewrite ?count_cons_false by done; try done.
      * rewrite count_cons_true by (simpl; by rewrite bool_decide_eq_true_2).
        by rewrite Hsig.
      * exists off. done.
    + apply others_fresh; [done|intros; by apply (about_other j)|done].
    + apply Forall_cons. by split.
    + rewrite !count_cons. simpl. lia.
    + by rewrite length_insert, count_cons.
Qed.

Lemma Inv_step (t : tid) (s s' : state) :
  Inv s → step chunkSize NumCPU t s = Some s' → Inv s'.
Proof.
  unfold step. intros HI. destruct (st_alive s) eqn:Hal; [|done].
  destruct t; [by apply Inv_asyncReadFile_step|by apply Inv_readChunk_step].
Qed.

Lemma Inv_run (sched : list tid) :
  ∀ s s', Inv s → run chunkSize NumCPU sched s = Some s' → Inv s'.
Proof.
  induction sched as [|t sched IH]; intros s s' HI; simpl.
  - by intros [= <-].
  - destruct (step chunkSize NumCPU t s) as [s1|] eqn:Hs; [|done].
    apply IH. by eapply Inv_step.
Qed.

Lemma Inv_reachable (s : state) : reachable chunkSize NumCPU f s → Inv s.
Proof.
  unfold reachable. intros Hr. pose proof Inv_init as HI.
  induction Hr as [|s0 s1 s2 [t Ht] _ IH]; [done|].
  apply IH. by eapply Inv_step.
Qed.

(** Schedules and the step relation reach the same states. *)
Lemma run_app (sched1 sched2 : list tid) (s : state) :
  run chunkSize NumCPU (sched1 ++ sched2) s
  = run chunkSize NumCPU sched1 s ≫= run chunkSize NumCPU sched2.
Proof.
  revert s. induction sched1 as [|t sched1 IH]; intros s; simpl; [done|].
  destruct (step chunkSize NumCPU t s); simpl; [apply IH|done].
Qed.

Lemma reachable_run (s : state) :
  reachable chunkSize NumCPU f s ↔ ∃ sched, run chunkSize NumCPU sched (init f) = Some s.
Proof.
  split.
  - unfold reachable. intros Hr.
    induction Hr as [|s0 s1 s2 [t Ht] _ [sched IH]]; [by exists []|].
    exists (t :: sched). simpl. by rewrite Ht.
  - intros [sched Hrun]. unfold reachable.
    revert Hrun. generalize (init f). induction sched as [|t sched IH]; intros s0; simpl.
    + intros [= <-]. constructor.
    + destruct (step chunkSize NumCPU t s0) as [s1|] eqn:Hs; [|done].
      intros Hrun. eapply rtc_l; [by exists t|by apply IH].
Qed.
End Safety.

(** ** Consequences of the invariant *)

Section Consequences.
Variable chunkSize : Z.
Variable NumCPU : Z.
Variable f : File.

Lemma Inv_of_run (sched : list tid) (s : state) :
  run chunkSize NumCPU sched (init f) = Some s → Inv chunkSize NumCPU f s.
Proof. intros Hrun. eapply Inv_run; [apply Inv_init|done]. Qed.

(** Workers exist only while the process is alive. *)
Lemma worker_alive (s : state) (k : nat) (w : wpc) :
  Inv chunkSize NumCPU f s → st_workers s !! k = Some w → st_alive s = true.
Proof.
  intros HI Hk. destruct (st_alive s) eqn:Hal; [done|].
  pose proof (inv_alive _ _ _ _ HI Hal) as Hpc.
  pose proof (inv_orch _ _ _ _ HI) as Ho. unfold orch_ok in Ho.
  rewrite Hpc in Ho. destruct Ho as [Hws _]. by rewrite Hws in Hk.
Qed.

(** When [asyncReadFile] is back with its caller, every worker has gone
    through [wg.Done]. *)
Lemma returned_all_signalled (s : state) :
  Inv chunkSize NumCPU f s → st_orch s = OReturned →
  Z.of_nat (length (st_workers s)) = st_concurrency s
  ∧ ∀ k w, st_workers s !! k = Some w → w = WReturned.
Proof.
  intros HI Hpc.
  pose proof (inv_orch _ _ _ _ HI) as Ho. unfold orch_ok in Ho.
  pose proof (inv_wg _ _ _ _ HI) as Hwg.
  rewrite Hpc in Ho, Hwg. simpl in Hwg. destruct Ho as [Hlen Hz].
  split; [done|]. intros k w Hk.
  pose proof (count_le_length signalled (st_workers s)).
  assert (signalled w = true) as Hs.
  { eapply count_all; [|done]. lia. }
  by destruct w.
Qed.

(** A worker whose read failed never gets to [wg.Done], so the
    orchestrator never gets past [wg.Wait]. *)
Lemma failure_blocks_return (s : state) (size : Z) (offs : list Z) (k : nat) (off : Z) :
  (Stat f).1 = inl size →
  chunkPlan chunkSize (wrap64 size) = Done offs →
  offs !! k = Some off → read_fails chunkSize f off = true →
  Inv chunkSize NumCPU f s → st_orch s ≠ OReturned.
Proof.
  intros HS Hplan Hoff Hfail HI Hpc.
  destruct (returned_all_signalled s HI Hpc) as [Hlen Hall].
  pose proof (inv_plan _ _ _ _ HI) as Hpl. unfold plan_ok, planned in Hpl.
  rewrite Hpc in Hpl.
  destruct Hpl as [[[e He] _]|(size' & HS' & Hplan')]; [congruence|].
  assert (size' = size) as -> by congruence.
  assert (st_chunkOffset s = offs) as Hoffs by congruence.
  pose proof (inv_conc _ _ _ _ HI) as [Hn _].
  pose proof (lookup_lt_Some _ _ _ Hoff) as Hk.
  destruct (lookup_lt_is_Some_2 (st_workers s) k) as [w Hw].
  { rewrite Hoffs in Hn. lia. }
  pose proof (Hall k w Hw) as ->.
  destruct (inv_worker _ _ _ _ HI k _ Hw) as [_ _ _ _ _ _ (off' & Hoff' & _ & Hsucc)].
  rewrite Hoffs, Hoff in Hoff'. simplify_eq.
  specialize (Hsucc eq_refl). congruence.
Qed.
End Consequences.

Section PlanInState.
Variable chunkSize : Z.
Variable NumCPU : Z.
Variable f : File.

Lemma Stat_size (size : Z) : (Stat f).1 = inl size → size = f_size f.
Proof. unfold Stat. repeat case_match; simpl; congruence. Qed.

(** The slice [chunkOffset] is empty until the plan is made, and is the
    plan of the file's size from then on. *)
Lemma offs_of_state (s : state) :
  Inv chunkSize NumCPU f s →
  st_chunkOffset s = [] ∨ planned chunkSize f s.
Proof.
  intros HI.
  pose proof (inv_plan _ _ _ _ HI) as Hpl.
  pose proof (inv_orch _ _ _ _ HI) as Ho.
  pose proof (inv_conc _ _ _ _ HI) as [Hn _].
  unfold plan_ok, orch_ok in *.
  assert (st_concurrency s = 0 → st_chunkOffset s = []) as Hnil.
  { intros Hz. apply nil_length_inv. lia. }
  destruct (st_orch s); try (by right); try (left; apply Hnil; apply Ho).
  destruct Hpl as [[_ Hz]|Hp]; [left; by apply Hnil|by right].
Qed.

Lemma workers_le_plan (s : state) :
  Inv chunkSize NumCPU f s → (length (st_workers s) ≤ length (st_chunkOffset s))%nat.
Proof.
  intros HI.
  pose proof (inv_orch _ _ _ _ HI) as Ho.
  pose proof (inv_conc _ _ _ _ HI) as [Hn _].
  unfold orch_ok in Ho.
  destruct (st_orch s); try lia; destruct Ho as [Hws ?]; try lia;
    rewrite Hws; simpl; lia.
Qed.

(** Where no planned read fails, no worker takes the error branch and no
    worker logs. *)
Lemma no_failure_no_log (s : state) :
  Inv chunkSize NumCPU f s →
  (∀ k off, st_chunkOffset s !! k = Some off → read_fails chunkSize f off = false) →
  (∀ k w, st_workers s !! k = Some w → failed w = false)
  ∧ (∀ k, logged (Worker k) s = 0%nat).
Proof.
  intros HI Hok.
  assert (∀ k w, st_workers s !! k = Some w → failed w = false) as Hnf.
  { intros k w Hk.
    destruct (inv_worker _ _ _ _ HI k w Hk) as [_ _ _ _ _ _ (off & Hoff & Hf & _)].
    destruct (failed w); [|done]. rewrite (Hok k off Hoff) in Hf. by specialize (Hf eq_refl). }
  split; [done|]. intros k.
  destruct (st_workers s !! k) as [w|] eqn:Hk.
  - destruct (inv_worker _ _ _ _ HI k w Hk) as [_ _ _ _ _ Hlog _].
    unfold logged. rewrite Hlog. rewrite bool_decide_eq_false_2; [done|].
    intros ->. by specialize (Hnf k _ Hk).
  - apply lookup_ge_None in Hk.
    by destruct (inv_fresh _ _ _ _ HI k Hk) as (_ & _ & ? & _).
Qed.
End PlanInState.

Section WorkerTail.
Variable chunkSize : Z.
Variable NumCPU : Z.
Variable f : File.

(** l.121: a worker at [wg.Done()] decrements the counter and returns. *)
Lemma step_done (s : state) (k : nat) :
  Inv chunkSize NumCPU f s → st_workers s !! k = Some WDoneCall →
  step chunkSize NumCPU (Worker k) s
  = Some (emit (EvDone k) (with_wg (st_wg s - 1) (set_worker k WReturned s))).
Proof.
  intros HI Hk. unfold step, readChunk_step.
  rewrite (worker_alive _ _ _ _ _ _ HI Hk), Hk.
  pose proof (inv_wg _ _ _ _ HI) as Hwg.
  pose proof (count_lookup_lt signalled _ _ _ Hk eq_refl) as Hlt.
  assert (0 ≤ adds_pending (st_orch s)) by (by destruct (st_orch s)).
  rewrite decide_False by lia. done.
Qed.

(** l.120: a worker at the receive finds an element in the channel. *)
Lemma step_recv (s : state) (k : nat) :
  Inv chunkSize NumCPU f s → st_workers s !! k = Some WRecv →
  ∃ v rest, st_gochannel s = v :: rest
    ∧ step chunkSize NumCPU (Worker k) s
      = Some (emit (EvRecv k v) (with_chan rest (set_worker k WDoneCall s))).
Proof.
  intros HI Hk. unfold step, readChunk_step.
  rewrite (worker_alive _ _ _ _ _ _ HI Hk), Hk.
  pose proof (inv_chan _ _ _ _ HI) as Hch.
  pose proof (count_lookup_pos holds_slot _ _ _ Hk eq_refl) as Hpos.
  destruct (st_gochannel s) as [|v rest]; [simpl in Hch; lia|].
  by exists v, rest.
Qed.

(** l.116-117: a worker on the error branch logs and returns. *)
Lemma step_log (s : state) (k : nat) (e : error) :
  Inv chunkSize NumCPU f s → st_workers s !! k = Some (WLog e) →
  step chunkSize NumCPU (Worker k) s
  = Some (emit (EvLog (Worker k) e) (set_worker k WReturnedEarly s)).
Proof.
  intros HI Hk. unfold step, readChunk_step.
  by rewrite (worker_alive _ _ _ _ _ _ HI Hk), Hk.
Qed.

Lemma set_worker_lookup (s : state) (k : nat) (w w' : wpc) :
  st_workers s !! k = Some w → st_workers (set_worker k w' s) !! k = Some w'.
Proof.
  intros Hk. simpl. apply list_lookup_insert_eq. by eapply lookup_lt_Some.
Qed.
End WorkerTail.

(** ** The size query fails *)

Section StatFailure.
Variable chunkSize : Z.
Variable NumCPU : Z.
Variable f : File.
Variable e : error.
Hypothesis stat_fails : (Stat f).1 = inr e.

Lemma stat_failure_step (t : tid) (s s' : state) :
  s = init f ∨ s = stat_failed f e ∨ s = stat_reported f e →
  step chunkSize NumCPU t s = Some s' →
  s' = stat_failed f e ∨ s' = stat_reported f e.
Proof using stat_fails.
  pose proof (Stat_file f) as Hsf.
  destruct (Stat f) as [r f'] eqn:HS. simpl in *. subst r f'.
  intros [-> | [-> | ->]]; destruct t as [|k]; unfold step; simpl;
    unfold asyncReadFile_step, readChunk_step; simpl; rewrite ?HS; intros; simplify_eq; auto.
Qed.

Lemma stat_failure_states (sched : list tid) (s : state) :
  run chunkSize NumCPU sched (init f) = Some s →
  s = init f ∨ s = stat_failed f e ∨ s = stat_reported f e.
Proof using stat_fails.
  assert (∀ s0, s0 = init f ∨ s0 = stat_failed f e ∨ s0 = stat_reported f e →
                run chunkSize NumCPU sched s0 = Some s →
                s = init f ∨ s = stat_failed f e ∨ s = stat_reported f e) as Hgen.
  { induction sched as [|t sched IH]; intros s0 H0; simpl.
    - by intros [= <-].
    - destruct (step chunkSize NumCPU t s0) as [s1|] eqn:Hs; [|done].
      apply IH. right. by eapply stat_failure_step. }
  apply Hgen. by left.
Qed.
End StatFailure.

(** ** Every execution is finite *)

Section Termination.
Variable chunkSize : Z.
Variable NumCPU : Z.
Variable f : File.

Lemma readChunk_step_frame (k : nat) (s s' : state) :
  readChunk_step chunkSize k s = Some s' →
  st_orch s' = st_orch s ∧ st_concurrency s' = st_concurrency s
  ∧ ∃ w w', st_workers s !! k = Some w
            ∧ st_workers s' = <[k := w']> (st_workers s)
            ∧ (worker_measure w' < worker_measure w)%nat.
Proof.
  unfold readChunk_step. intros Hst.
  destruct (st_workers s !! k) as [w|] eqn:Hk; [|done].
  destruct w as [i|e| | | | |]; try done.
  - destruct (if decide (0 ≤ i) then st_chunkOffset s !! Z.to_nat i else None) as [off|].
    + destruct (ReadAt (st_file s) chunkSize off) as [[n err] f'].
      simplify_eq/=. split_and!; try done.
      exists (WReadAt i), (after_read err). split_and!; try done.
      unfold after_read. destruct err; [case_decide|]; simpl; lia.
    + simplify_eq/=. split_and!; try done.
      exists (WReadAt i), WPanicked. split_and!; try done. simpl; lia.
  - simplify_eq/=. split_and!; try done.
    exists (WLog e), WReturnedEarly. split_and!; try done. simpl; lia.
  - destruct (st_gochannel s); [done|]. simplify_eq/=. split_and!; try done.
    exists WRecv, WDoneCall. split_and!; try done. simpl; lia.
  - case_decide; simplify_eq/=; (split_and!; try done).
    + exists WDoneCall, WPanicked. split_and!; try done. simpl; lia.
    + exists WDoneCall, WReturned. split_and!; try done. simpl; lia.
Qed.

Lemma step_measure (t : tid) (s s' : state) :
  Inv chunkSize NumCPU f s → step chunkSize NumCPU t s = Some s' →
  (measure chunkSize f s' < measure chunkSize f s)%nat.
Proof.
  intros HI. unfold step. destruct (st_alive s); [|done].
  destruct t as [|k].
  - (* the orchestrator *)
    pose proof (inv_orch _ _ _ _ HI) as Ho.
    pose proof (inv_conc _ _ _ _ HI) as [Hlen Hn].
    pose proof (inv_file _ _ _ _ HI) as Hf.
    unfold measure, asyncReadFile_step, orch_ok in *.
    destruct s as [f0 wg ch offs n pc ws tr al]. simpl in *. subst f0.
    destruct pc as [|e|size|i|i|i| | |]; simpl in *; try done.
    + pose proof (Stat_size f) as Hsz.
      destruct (Stat f) as [[size|e] f']; intros; simplify_eq/=; [|lia].
      rewrite (Hsz size eq_refl). lia.
    + intros; simplify_eq/=. lia.
    + destruct (chunkPlan chunkSize (wrap64 size)); [|intros; simplify_eq/=; lia|done].
      case_decide; intros; simplify_eq/=; lia.
    + case_decide; intros; simplify_eq/=; lia.
    + case_decide; intros; simplify_eq/=; lia.
    + intros; simplify_eq/=. destruct Ho as [Hi Hlt].
      rewrite wrap64_id by (unfold int64_range; lia).
      rewrite sum_list_with_app. simpl. lia.
    + case_decide; intros; simplify_eq/=; lia.
  - (* a worker *)
    intros Hst.
    destruct (readChunk_step_frame k s s' Hst) as (Hpc & Hc & w & w' & Hk & Hws & Hlt).
    unfold measure. rewrite Hpc, Hc, Hws.
    pose proof (sum_list_with_insert worker_measure _ k w w' Hk). lia.
Qed.

Lemma run_measure (sched : list tid) :
  ∀ s s', Inv chunkSize NumCPU f s → run chunkSize NumCPU sched s = Some s' →
          (length sched + measure chunkSize f s' ≤ measure chunkSize f s)%nat.
Proof.
  induction sched as [|t sched IH]; intros s s' HI; simpl.
  - intros [= <-]. lia.
  - destruct (step chunkSize NumCPU t s) as [s1|] eqn:Hst; [|done].
    intros Hrun.
    pose proof (step_measure t s s1 HI Hst).
    pose proof (IH s1 s' (Inv_step _ _ _ _ _ _ HI Hst) Hrun). lia.
Qed.
End Termination.

(** ** Without a failed read, the invocation returns *)

Section Progress.
Variable chunkSize : Z.
Variable NumCPU : Z.
Variable f : File.
Hypothesis chunk_range : 0 < chunkSize < 2 ^ 63.
Hypothesis cpu_pos : 1 ≤ NumCPU.
Hypothesis size_range : 0 ≤ f_size f < 2 ^ 63.
Hypothesis reads_ok :
  ∀ offs k off, chunkPlan chunkSize (f_size f) = Done offs →
                offs !! k = Some off → read_fails chunkSize f off = false.

Lemma state_reads_ok (s : state) :
  Inv chunkSize NumCPU f s →
  ∀ k off, st_chunkOffset s !! k = Some off → read_fails chunkSize f off = false.
Proof using reads_ok size_range.
  intros HI k off Hk.
  destruct (offs_of_state _ _ _ s HI) as [Hnil|(size & HS & Hp)].
  - by rewrite Hnil in Hk.
  - apply Stat_size in HS. subst size.
    rewrite wrap64_id in Hp by (unfold int64_range; lia).
    by eapply reads_ok.
Qed.

(** A worker that has not returned can move. *)
Lemma worker_can_move (s : state) (k : nat) (w : wpc) :
  Inv chunkSize NumCPU f s → st_workers s !! k = Some w →
  w ≠ WReturned →
  ∃ s', step chunkSize NumCPU (Worker k) s = Some s'.
Proof using reads_ok size_range.
  intros HI Hk Hw.
  destruct (inv_worker _ _ _ _ HI k w Hk) as [Hnp Hidx _ _ _ _ (off & Hoff & _ & _)].
  destruct (no_failure_no_log _ _ _ s HI (state_reads_ok s HI)) as [Hnf _].
  specialize (Hnf k w Hk).
  destruct w as [i|e| | | | |]; try done.
  - pose proof (Hidx i eq_refl) as ->. unfold step, readChunk_step.
    rewrite (worker_alive _ _ _ _ _ _ HI Hk), Hk.
    rewrite decide_True, Nat2Z.id, Hoff by lia.
    destruct (ReadAt (st_file s) chunkSize off) as [[n err] f']. by eexists.
  - destruct (step_recv _ _ _ s k HI Hk) as (v & rest & _ & Hst). by eexists.
  - rewrite (step_done _ _ _ s k HI Hk). by eexists.
Qed.

(** Until [asyncReadFile] has returned, some goroutine can move. *)
Lemma progress (s : state) :
  Inv chunkSize NumCPU f s → st_orch s ≠ OReturned →
  ∃ t s', step chunkSize NumCPU t s = Some s'.
Proof using reads_ok size_range cpu_pos chunk_range.
  intros HI Hpc.
  pose proof (inv_orch _ _ _ _ HI) as Ho.
  pose proof (inv_plan _ _ _ _ HI) as Hpl.
  pose proof (inv_wg _ _ _ _ HI) as Hwg.
  pose proof (inv_chan _ _ _ _ HI) as Hch.
  pose proof (inv_alive _ _ _ _ HI) as Hal.
  unfold orch_ok, plan_ok in *.
  destruct (st_orch s) as [|e|size|i|i|i| | |] eqn:Hpc'; try done.
  - (* l.60 *)
    exists Orch. unfold step, asyncReadFile_step.
    destruct (st_alive s); [|by specialize (Hal eq_refl)]. rewrite Hpc'.
    destruct (Stat (st_file s)) as [[size|e] f']; by eexists.
  - exists Orch. unfold step, asyncReadFile_step.
    destruct (st_alive s); [|by specialize (Hal eq_refl)]. rewrite Hpc'. by eexists.
  - (* l.66-88 *)
    exists Orch. unfold step, asyncReadFile_step.
    destruct (st_alive s); [|by specialize (Hal eq_refl)]. rewrite Hpc'.
    apply Stat_size in Hpl. subst size.
    rewrite wrap64_id by (unfold int64_range; lia).
    rewrite chunkPlan_eq by (done || lia).
    rewrite decide_False by lia. by eexists.
  - exists Orch. unfold step, asyncReadFile_step.
    destruct (st_alive s); [|by specialize (Hal eq_refl)]. rewrite Hpc'.
    case_decide; by eexists.
  - (* l.104: either the channel has room, or a worker holds a slot *)
    destruct (decide (Z.of_nat (length (st_gochannel s)) < NumCPU)) as [Hroom|Hfull].
    + exists Orch. unfold step, asyncReadFile_step.
      destruct (st_alive s); [|by specialize (Hal eq_refl)]. rewrite Hpc'.
      rewrite decide_True by done. by eexists.
    + simpl in Hch.
      destruct (count_pos_lookup holds_slot (st_workers s)) as (k & w & Hk & Hw); [lia|].
      exists (Worker k). apply (worker_can_move s k w HI Hk). by intros ->.
  - exists Orch. unfold step, asyncReadFile_step.
    destruct (st_alive s); [|by specialize (Hal eq_refl)]. rewrite Hpc'. by eexists.
  - (* l.108: either the counter is zero, or a worker has not signalled *)
    destruct (decide (st_wg s = 0)) as [Hz|Hnz].
    + exists Orch. unfold step, asyncReadFile_step.
      destruct (st_alive s); [|by specialize (Hal eq_refl)]. rewrite Hpc'.
      rewrite decide_True by done. by eexists.
    + simpl in Hwg. pose proof (count_le_length signalled (st_workers s)).
      destruct (count_lt_lookup signalled (st_workers s)) as (k & w & Hk & Hw); [lia|].
      exists (Worker k). apply (worker_can_move s k w HI Hk). by intros ->.
  - (* a panic: excluded *)
    destruct Hpl as (size & HS & [Hneg|Hpanic]); [lia|].
    apply Stat_size in HS. subst size.
    rewrite wrap64_id in Hpanic by (unfold int64_range; lia).
    rewrite chunkPlan_eq in Hpanic by (done || lia). done.
Qed.

Lemma step_in_threads (t : tid) (s s' : state) :
  step chunkSize NumCPU t s = Some s' → t ∈ enabled chunkSize NumCPU s.
Proof.
  intros Hst. unfold enabled. apply list_elem_of_filter. split; [by rewrite Hst|].
  unfold threads. destruct t as [|k]; [left|right].
  apply list_elem_of_fmap. exists k. split; [done|].
  apply elem_of_seq. split; [lia|]. simpl.
  unfold step in Hst. destruct (st_alive s); [|done].
  unfold readChunk_step in Hst.
  destruct (st_workers s !! k) eqn:Hk; [|done].
  by apply lookup_lt_Some in Hk.
Qed.

(** The scheduler that runs the first goroutine that can move brings
    [asyncReadFile] back to its caller. *)
Lemma run_first_returns (fuel : nat) :
  ∀ s, Inv chunkSize NumCPU f s → (measure chunkSize f s ≤ fuel)%nat →
       st_orch (run_first chunkSize NumCPU fuel s) = OReturned.
Proof using reads_ok size_range cpu_pos chunk_range.
  induction fuel as [|fuel IH]; intros s HI Hm; simpl.
  - destruct (decide (st_orch s = OReturned)) as [|Hpc]; [done|].
    destruct (progress s HI Hpc) as (t & s' & Hst).
    pose proof (step_measure _ _ _ t s s' HI Hst). lia.
  - destruct (enabled chunkSize NumCPU s) as [|t ts] eqn:Hen.
    + destruct (decide (st_orch s = OReturned)) as [|Hpc]; [done|].
      destruct (progress s HI Hpc) as (t & s' & Hst).
      apply step_in_threads in Hst. rewrite Hen in Hst. by apply elem_of_nil in Hst.
    + assert (t ∈ enabled chunkSize NumCPU s) as Ht by (rewrite Hen; left).
      apply list_elem_of_filter in Ht as [[s' Hst] _]. rewrite Hst.
      pose proof (step_measure _ _ _ t s s' HI Hst).
      apply IH; [by eapply Inv_step|lia].
Qed.
End Progress.

(** * The claims *)

(** C1, on the failure path: in every execution, a worker whose read failed
    with an error other than [io.EOF] has neither received from the channel
    nor called [wg.Done]; it returns after its log line, and then can never
    move again, leaving the channel and the counter as they were. *)
Theorem failed_worker_skips_release (chunkSize NumCPU : Z) (f : File)
    (sched : list tid) (s : state) (k : nat) (w : wpc) :
  run chunkSize NumCPU sched (init f) = Some s →
  st_workers s !! k = Some w → failed w = true →
  releases k s = 0%nat ∧ signals k s = 0%nat
  ∧ (∃ off, st_chunkOffset s !! k = Some off ∧ read_fails chunkSize f off = true)
  ∧ ∃ s', run chunkSize NumCPU (replicate (steps_left_failed w) (Worker k)) s = Some s'
      ∧ st_workers s' !! k = Some WReturnedEarly
      ∧ releases k s' = 0%nat ∧ signals k s' = 0%nat
      ∧ st_gochannel s' = st_gochannel s ∧ st_wg s' = st_wg s
      ∧ step chunkSize NumCPU (Worker k) s' = None.
Proof.
  intros Hrun Hk Hfailed. pose proof (Inv_of_run _ _ _ _ _ Hrun) as HI.
  destruct (inv_worker _ _ _ _ HI k w Hk) as [_ _ _ Hrel Hsig _ (off & Hoff & Hf & _)].
  assert (released w = false ∧ signalled w = false) as [Hr Hs] by (by destruct w).
  unfold releases, signals. rewrite Hrel, Hsig, Hr, Hs.
  split; [done|]. split; [done|]. split; [exists off; auto|].
  destruct w; try done; simpl.
  - rewrite (step_log _ _ _ s k e HI Hk).
    eexists. split; [done|].
    pose proof (Inv_step _ _ _ _ _ _ HI (step_log _ _ _ s k e HI Hk)) as HI1.
    pose proof (set_worker_lookup s k _ WReturnedEarly Hk) as Hk1.
    destruct (inv_worker _ _ _ _ HI1 k _ Hk1) as [_ _ _ Hrel1 Hsig1 _ _].
    split_and!; try done.
    unfold step, readChunk_step. simpl in *. rewrite Hk1. by destruct (st_alive s).
  - exists s. split_and!; try done.
    unfold step, readChunk_step. rewrite Hk. by destruct (st_alive s).
Qed.

Lemma failed_worker_skips_release_witness :
  releases 0 faulty_final = 0%nat ∧ signals 0 faulty_final = 0%nat
  ∧ st_workers faulty_final = [WReturnedEarly]
  ∧ st_gochannel faulty_final = [1] ∧ st_wg faulty_final = 1.
Proof.
  pose proof (failed_worker_skips_release asyncChunkSize 1 faulty_file
                faulty_schedule faulty_final 0 WReturnedEarly
                ltac:(vm_compute; reflexivity) ltac:(vm_compute; reflexivity)
                ltac:(reflexivity)) as (H1 & H2 & _).
  split; [exact H1|]. split; [exact H2|]. vm_compute. done.
Defined.

(** C2, where a chunk read fails: if the read of any planned offset fails
    with an error other than [io.EOF], no execution of [asyncReadFile]
    returns to the caller. *)
Theorem failed_read_blocks_return (chunkSize NumCPU : Z) (f : File)
    (size : Z) (offs : list Z) (k : nat) (off : Z) (sched : list tid) (s : state) :
  (Stat f).1 = inl size →
  chunkPlan chunkSize (wrap64 size) = Done offs →
  offs !! k = Some off → read_fails chunkSize f off = true →
  run chunkSize NumCPU sched (init f) = Some s →
  st_orch s ≠ OReturned.
Proof.
  intros HS Hplan Hoff Hfail Hrun.
  eapply failure_blocks_return; [done..|]. by eapply Inv_of_run.
Qed.

Lemma failed_read_blocks_return_witness :
  st_orch faulty_final ≠ OReturned
  ∧ st_orch faulty_final = OWait
  ∧ enabled asyncChunkSize 1 faulty_final = [].
Proof.
  split; [|vm_compute; done].
  apply (failed_read_blocks_return asyncChunkSize 1 faulty_file 1 [0] 0 0
           faulty_schedule faulty_final); vm_compute; reflexivity.
Defined.

(** What does hold of the completion barrier: [asyncReadFile] is back with
    its caller only when the counter is zero and every worker it dispatched,
    one per planned offset, has returned through [wg.Done]. *)
Lemma returns_only_after_all_workers (chunkSize NumCPU : Z) (f : File)
    (sched : list tid) (s : state) :
  run chunkSize NumCPU sched (init f) = Some s → st_orch s = OReturned →
  st_wg s = 0
  ∧ length (st_workers s) = length (st_chunkOffset s)
  ∧ count is_go (st_trace s) = length (st_chunkOffset s)
  ∧ ∀ k w, st_workers s !! k = Some w → w = WReturned.
Proof.
  intros Hrun Hpc. pose proof (Inv_of_run _ _ _ _ _ Hrun) as HI.
  destruct (returned_all_signalled _ _ _ s HI Hpc) as [Hlen Hall].
  pose proof (inv_orch _ _ _ _ HI) as Ho. unfold orch_ok in Ho. rewrite Hpc in Ho.
  pose proof (inv_conc _ _ _ _ HI) as [Hn _].
  pose proof (inv_go_acct _ _ _ _ HI) as Hgo.
  split_and!; [apply Ho|lia|lia|done].
Qed.

(** X13. Where no read fails, the invocation does return: if the read of
    no planned offset fails with an error other than [io.EOF], every execution
    of [asyncReadFile] is finite, can stop only with the orchestrator back
    at its caller, and the scheduler that runs the first goroutine able to
    move gets it there. *)
Theorem fault_free_read_returns (chunkSize NumCPU : Z) (f : File) :
  0 < chunkSize < 2 ^ 63 → 1 ≤ NumCPU → 0 ≤ f_size f < 2 ^ 63 →
  (∀ offs k off, chunkPlan chunkSize (f_size f) = Done offs →
                 offs !! k = Some off → read_fails chunkSize f off = false) →
  (∀ sched s, run chunkSize NumCPU sched (init f) = Some s →
     (length sched ≤ measure chunkSize f (init f))%nat
     ∧ (st_orch s = OReturned ∨ ∃ t s', step chunkSize NumCPU t s = Some s'))
  ∧ st_orch (run_first chunkSize NumCPU (measure chunkSize f (init f)) (init f))
    = OReturned.
Proof.
  intros Hchunk Hcpu Hsize Hreads. split.
  - intros sched s Hrun. pose proof (Inv_of_run _ _ _ _ _ Hrun) as HI.
    pose proof (run_measure _ _ _ sched _ _ (Inv_init _ _ _) Hrun).
    split; [lia|].
    destruct (decide (st_orch s = OReturned)) as [|Hpc]; [by left|right].
    by apply (progress chunkSize NumCPU f).
  - apply (run_first_returns chunkSize NumCPU f); [done..|apply Inv_init|done].
Qed.

Lemma fault_free_read_returns_witness :
  st_orch (run_first asyncChunkSize 2
             (measure asyncChunkSize scenario_file (init scenario_file))
             (init scenario_file)) = OReturned.
Proof.
  apply (fault_free_read_returns asyncChunkSize 2 scenario_file);
    [unfold asyncChunkSize; lia|lia|simpl; lia|].
  intros offs k off Hplan Hk.
  assert (offs = [0; 1048576; 2097152]) as ->.
  { vm_compute in Hplan. by injection Hplan. }
  destruct k as [|[|[|k]]]; simplify_eq/=; vm_compute; reflexivity.
Defined.

(** C3. In every state of every execution the number of workers that are
    executing their chunk read (spawned and still holding their slot) is at
    most the number of elements in the channel, which is at most
    [runtime.NumCPU()]; and the send that precedes the spawn of a further
    worker can take place exactly when the channel is not full. *)
Theorem concurrency_bounded (chunkSize NumCPU : Z) (f : File)
    (sched : list tid) (s : state) :
  0 ≤ NumCPU →
  run chunkSize NumCPU sched (init f) = Some s →
  Z.of_nat (count_executing s) ≤ NumCPU
  ∧ (count_executing s + sends_pending (st_orch s) ≤ length (st_gochannel s))%nat
  ∧ Z.of_nat (length (st_gochannel s)) ≤ NumCPU
  ∧ (∀ i, st_orch s = OSend i →
       (is_Some (step chunkSize NumCPU Orch s)
        ↔ Z.of_nat (length (st_gochannel s)) < NumCPU))
  ∧ (∀ i s', st_orch s = OGo i → step chunkSize NumCPU Orch s = Some s' →
       length (st_workers s') = S (length (st_workers s))
       ∧ st_gochannel s' = st_gochannel s).
Proof.
  intros Hcpu Hrun. pose proof (Inv_of_run _ _ _ _ _ Hrun) as HI.
  pose proof (inv_chan _ _ _ _ HI) as Hch.
  pose proof (inv_cap _ _ _ _ HI) as Hcap.
  assert (count_executing s ≤ count holds_slot (st_workers s))%nat as Hex.
  { apply count_mono. by intros []. }
  split_and!; try lia.
  - intros i Hpc. unfold step, asyncReadFile_step.
    destruct (st_alive s) eqn:Hal.
    + rewrite Hpc. case_decide; split; try done; try lia.
    + pose proof (inv_alive _ _ _ _ HI Hal). congruence.
  - intros i s' Hpc. unfold step, asyncReadFile_step.
    destruct (st_alive s); [|done]. rewrite Hpc. intros [= <-]. simpl.
    rewrite length_app. simpl. split; [lia|done].
Qed.

Lemma concurrency_bounded_witness :
  Z.of_nat (count_executing scenario_final) ≤ 2
  ∧ Z.of_nat (length (st_gochannel scenario_final)) ≤ 2.
Proof.
  pose proof (concurrency_bounded asyncChunkSize 2 scenario_file
                scenario_schedule scenario_final ltac:(lia)
                ltac:(vm_compute; reflexivity)) as H.
  split; apply H.
Defined.

(** A worker stops executing its read, in the sense of [executing], when it
    takes its element out of the channel; its goroutine lives on until
    [wg.Done] has returned. Counting goroutines instead, with one CPU two
    workers can be live at once: one about to call [wg.Done], one reading. *)
Remark live_goroutines_after_release :
  run asyncChunkSize 1 overlap_schedule (init scenario_file) = Some overlap
  ∧ st_workers overlap = [WDoneCall; WReadAt 1]
  ∧ count_executing overlap = 1%nat
  ∧ count_live overlap = 2%nat.
Proof. vm_compute. done. Qed.

(** C4. For every file size [fileSize ≥ 0] and every chunk size
    [chunkSize > 0] (both 64-bit integers) the planner of lines 66-85
    returns a plan, without panicking; the plan has exactly
    ceil(fileSize / chunkSize) offsets; its i-th offset is [i * chunkSize];
    every offset is strictly below [fileSize]; for [fileSize = 0] the plan
    is empty; and in every execution on a file of that size the workers
    dispatched are at most as many as the offsets of the plan, so none for
    [fileSize = 0]. *)
Theorem chunk_plan_correct (fileSize chunkSize : Z) :
  0 ≤ fileSize < 2 ^ 63 → 0 < chunkSize < 2 ^ 63 →
  ∃ plan : list Z,
    chunkPlan chunkSize fileSize = Done plan
    ∧ Z.of_nat (length plan) = ceil_div fileSize chunkSize
    ∧ (ceil_div fileSize chunkSize - 1) * chunkSize < fileSize
      ≤ ceil_div fileSize chunkSize * chunkSize
    ∧ numChunks chunkSize fileSize = Z.of_nat (length plan)
    ∧ (∀ (i : nat) (off : Z), plan !! i = Some off →
         off = Z.of_nat i * chunkSize ∧ off < fileSize)
    ∧ (∀ i : nat, Z.of_nat i < ceil_div fileSize chunkSize →
         plan !! i = Some (Z.of_nat i * chunkSize))
    ∧ (fileSize = 0 → plan = [])
    ∧ (∀ (NumCPU : Z) (f : File) (sched : list tid) (s : state),
         f_size f = fileSize →
         run chunkSize NumCPU sched (init f) = Some s →
         (length (st_workers s) ≤ length plan)%nat
         ∧ count is_go (st_trace s) = length (st_workers s)
         ∧ (fileSize = 0 → st_workers s = [])).
Proof.
  intros Hfs [Hc1 Hc2].
  pose proof (ceil_div_bounds fileSize chunkSize ltac:(lia) Hc1) as Hb.
  pose proof (ceil_div_nonneg chunkSize Hc1 fileSize ltac:(lia)) as Hn.
  pose proof (chunkPlan_eq chunkSize Hc1 Hc2 fileSize Hfs) as Hplan.
  assert (fileSize = 0 → ceil_div fileSize chunkSize = 0) as Hzero.
  { intros ->. apply ceil_div_unique; lia. }
  eexists. split; [exact Hplan|].
  rewrite length_fmap, length_seqZ, numChunks_ceil by done.
  split_and!; try lia.
  - intros i off Hlk. rewrite list_lookup_fmap in Hlk.
    destruct (seqZ 0 _ !! i) as [j|] eqn:Hj; simplify_eq/=.
    apply lookup_seqZ in Hj as [-> Hlt]. nia.
  - intros i Hi. rewrite list_lookup_fmap, lookup_seqZ_lt by done.
    simpl. f_equal. lia.
  - intros H0. by rewrite (Hzero H0).
  - intros NumCPU f sched s Hsize Hrun.
    pose proof (Inv_of_run _ _ _ _ _ Hrun) as HI.
    pose proof (workers_le_plan _ _ _ s HI) as Hle.
    pose proof (inv_go_acct _ _ _ _ HI) as Hgo.
    assert (length (st_chunkOffset s) ≤ Z.to_nat (ceil_div fileSize chunkSize))%nat as Hlen.
    { destruct (offs_of_state _ _ _ s HI) as [->|(size & HS & Hp)]; [simpl; lia|].
      apply Stat_size in HS. rewrite HS, Hsize in Hp.
      rewrite wrap64_id in Hp by (unfold int64_range; lia).
      rewrite Hplan in Hp. injection Hp as <-.
      rewrite length_fmap, length_seqZ. lia. }
    split_and!; [lia|done|].
    intros H0. apply nil_length_inv. rewrite (Hzero H0) in Hlen. simpl in Hlen. lia.
Qed.

(** The plan of a 2,500,000-byte file in chunks of 1 MiB has three offsets. *)
Lemma chunk_plan_correct_witness :
  ∃ plan : list Z,
    chunkPlan asyncChunkSize 2500000 = Done plan
    ∧ Z.of_nat (length plan) = ceil_div 2500000 asyncChunkSize
    ∧ (ceil_div 2500000 asyncChunkSize - 1) * asyncChunkSize < 2500000
      ≤ ceil_div 2500000 asyncChunkSize * asyncChunkSize
    ∧ numChunks asyncChunkSize 2500000 = Z.of_nat (length plan)
    ∧ (∀ (i : nat) (off : Z), plan !! i = Some off →
         off = Z.of_nat i * asyncChunkSize ∧ off < 2500000)
    ∧ (∀ i : nat, Z.of_nat i < ceil_div 2500000 asyncChunkSize →
         plan !! i = Some (Z.of_nat i * asyncChunkSize))
    ∧ (2500000 = 0 → plan = [])
    ∧ (∀ (NumCPU : Z) (f : File) (sched : list tid) (s : state),
         f_size f = 2500000 →
         run asyncChunkSize NumCPU sched (init f) = Some s →
         (length (st_workers s) ≤ length plan)%nat
         ∧ count is_go (st_trace s) = length (st_workers s)
         ∧ (2500000 = 0 → st_workers s = [])).
Proof.
  apply (chunk_plan_correct 2500000 asyncChunkSize); unfold asyncChunkSize; lia.
Defined.

(** C5. A worker whose read returns [io.EOF] takes the same branch at l.115
    as one whose read returns no error: it goes on to the receive of l.120.
    In no execution has such a worker logged anything or taken the error
    branch. *)
Theorem eof_is_not_an_error (chunkSize NumCPU : Z) (f : File)
    (sched : list tid) (s : state) (k : nat) (w : wpc) (off n : Z) :
  run chunkSize NumCPU sched (init f) = Some s →
  st_workers s !! k = Some w → st_chunkOffset s !! k = Some off →
  ReadAt f chunkSize off = ((n, Some io_EOF), f) →
  after_read (Some io_EOF) = after_read None
  ∧ after_read (Some io_EOF) = WRecv
  ∧ failed w = false ∧ logged (Worker k) s = 0%nat
  ∧ (w = WReadAt (Z.of_nat k) →
       step chunkSize NumCPU (Worker k) s
       = Some (emit (EvReadAt k off chunkSize n (Some io_EOF)) (set_worker k WRecv s))).
Proof.
  intros Hrun Hk Hoff HR. pose proof (Inv_of_run _ _ _ _ _ Hrun) as HI.
  destruct (inv_worker _ _ _ _ HI k w Hk) as [_ _ _ _ _ Hlog (off' & Hoff' & Hfail & _)].
  assert (off' = off) as -> by congruence.
  assert (read_fails chunkSize f off = false) as Hnf.
  { unfold read_fails. by rewrite HR. }
  assert (failed w = false) as Hw.
  { destruct (failed w); [|done]. specialize (Hfail eq_refl). congruence. }
  split_and!; try done.
  - unfold logged. rewrite Hlog. rewrite bool_decide_eq_false_2; [done|].
    intros ->. done.
  - intros ->. unfold step, readChunk_step.
    rewrite (worker_alive _ _ _ _ _ _ HI Hk), Hk.
    rewrite decide_True, Nat2Z.id, Hoff, (inv_file _ _ _ _ HI), HR by lia.
    simpl. destruct s; simpl in *.
    pose proof (inv_file _ _ _ _ HI) as Hf. simpl in Hf. by subst.
Qed.

Lemma eof_is_not_an_error_witness :
  after_read (Some io_EOF) = WRecv
  ∧ logged (Worker 2) scenario_final = 0%nat.
Proof.
  pose proof (eof_is_not_an_error asyncChunkSize 2 scenario_file
                scenario_schedule scenario_final 2 WReturned 2097152 402848
                ltac:(vm_compute; reflexivity) ltac:(vm_compute; reflexivity)
                ltac:(vm_compute; reflexivity) ltac:(vm_compute; reflexivity)) as H.
  split; apply H.
Defined.

(** C7. If [file.Stat()] fails, [asyncReadFile] computes no chunk plan and
    spawns no worker in any execution; it logs the error with [log.Println]
    and returns to its caller after two steps; the process stays alive. *)
Theorem size_query_failure_aborts (chunkSize NumCPU : Z) (f : File) (e : error)
    (sched : list tid) (s : state) :
  (Stat f).1 = inr e →
  run chunkSize NumCPU sched (init f) = Some s →
  st_workers s = [] ∧ st_chunkOffset s = []
  ∧ count is_plan (st_trace s) = 0%nat ∧ count is_go (st_trace s) = 0%nat
  ∧ st_alive s = true ∧ st_orch s ≠ OPanicked
  ∧ (st_orch s = OReturned → st_trace s = [EvLog Orch e; EvStat (Some e)])
  ∧ run chunkSize NumCPU [Orch; Orch] (init f) = Some (stat_reported f e)
  ∧ st_orch (stat_reported f e) = OReturned
  ∧ logged Orch (stat_reported f e) = 1%nat.
Proof.
  intros HS Hrun.
  assert (run chunkSize NumCPU [Orch; Orch] (init f) = Some (stat_reported f e)) as Hret.
  { pose proof (Stat_file f) as Hsf.
    destruct (Stat f) as [r f'] eqn:HS'. simpl in *. subst r f'.
    unfold step, asyncReadFile_step. simpl. rewrite HS'. done. }
  destruct (stat_failure_states chunkSize NumCPU f e HS sched s Hrun)
    as [-> | [-> | ->]]; split_and!; try done.
Qed.

Lemma size_query_failure_aborts_witness :
  (Stat unreadable_file).1 = inr EIO
  ∧ st_workers (stat_reported unreadable_file EIO) = []
  ∧ st_trace (stat_reported unreadable_file EIO) = [EvLog Orch EIO; EvStat (Some EIO)]
  ∧ st_alive (stat_reported unreadable_file EIO) = true.
Proof.
  pose proof (size_query_failure_aborts asyncChunkSize 4 unreadable_file EIO
                [Orch; Orch] (stat_reported unreadable_file EIO)
                ltac:(reflexivity) ltac:(reflexivity)) as H.
  split; [reflexivity|].
  split; [apply H|]. split; [apply H; reflexivity|apply H].
Defined.

(** C8. For the file of 2,500,000 bytes and the chunk size 1,048,576 the
    plan is [0; 1048576; 2097152], in every execution; the read of the third
    chunk returns 402,848 bytes and [io.EOF], which l.115 does not treat as
    an error; and in no execution does a worker log or take the error
    branch. *)
Theorem scenario_three_chunks (NumCPU : Z) (sched : list tid) (s : state) :
  run asyncChunkSize NumCPU sched (init scenario_file) = Some s →
  chunkPlan asyncChunkSize 2500000 = Done [0; 1048576; 2097152]
  ∧ (st_chunkOffset s = [] ∨ st_chunkOffset s = [0; 1048576; 2097152])
  ∧ ReadAt scenario_file asyncChunkSize 2097152
    = ((402848, Some io_EOF), scenario_file)
  ∧ after_read (Some io_EOF) = WRecv
  ∧ (∀ k w, st_workers s !! k = Some w → failed w = false)
  ∧ (∀ k, logged (Worker k) s = 0%nat)
  ∧ (∀ n err, EvReadAt 2 2097152 asyncChunkSize n err ∈ st_trace s →
       n = 402848 ∧ err = Some io_EOF).
Proof.
  intros Hrun. pose proof (Inv_of_run _ _ _ _ _ Hrun) as HI.
  assert (chunkPlan asyncChunkSize 2500000 = Done [0; 1048576; 2097152]) as Hplan
    by (vm_compute; reflexivity).
  assert (st_chunkOffset s = [] ∨ st_chunkOffset s = [0; 1048576; 2097152]) as Hoffs.
  { destruct (offs_of_state _ _ _ s HI) as [?|(size & HS & Hp)]; [by left|right].
    apply Stat_size in HS. subst size. change (f_size scenario_file) with 2500000 in Hp.
    change (wrap64 2500000) with 2500000 in Hp. congruence. }
  assert (∀ k off, st_chunkOffset s !! k = Some off →
                   read_fails asyncChunkSize scenario_file off = false) as Hok.
  { intros k off Hk. destruct Hoffs as [Ho|Ho]; rewrite Ho in Hk; [done|].
    destruct k as [|[|[|k]]]; simplify_eq/=; vm_compute; reflexivity. }
  destruct (no_failure_no_log _ _ _ s HI Hok) as [Hnf Hnl].
  split_and!; try done.
  intros n err Hev.
  pose proof (inv_reads _ _ _ _ HI) as Hr. rewrite Forall_forall in Hr.
  destruct (Hr _ Hev) as (_ & _ & HR).
  vm_compute in HR. by simplify_eq.
Qed.

Lemma scenario_three_chunks_witness :
  st_chunkOffset scenario_final = [0; 1048576; 2097152]
  ∧ st_orch scenario_final = OReturned
  ∧ st_workers scenario_final = [WReturned; WReturned; WReturned]
  ∧ EvReadAt 2 2097152 asyncChunkSize 402848 (Some io_EOF) ∈ st_trace scenario_final
  ∧ ∀ k, logged (Worker k) scenario_final = 0%nat.
Proof.
  pose proof (scenario_three_chunks 2 scenario_schedule scenario_final
                ltac:(vm_compute; reflexivity)) as H.
  split; [vm_compute; reflexivity|]. split; [vm_compute; reflexivity|].
  split; [vm_compute; reflexivity|].
  split; [apply (list_elem_of_lookup_2 _ 3%nat); vm_compute; reflexivity|].
  apply H.
Defined.

(** C9. In every execution of [asyncReadFile] the file handle is left as
    the caller passed it: neither closed nor with its read cursor moved.
    The only operations on it are [Stat] and [ReadAt], which do not change
    it, and the result of a [ReadAt] does not depend on the cursor. *)
Theorem file_handle_untouched (chunkSize NumCPU : Z) (f : File)
    (sched : list tid) (s : state) :
  run chunkSize NumCPU sched (init f) = Some s →
  st_file s = f
  ∧ f_closed (st_file s) = f_closed f ∧ f_cursor (st_file s) = f_cursor f
  ∧ (Stat f).2 = f
  ∧ (∀ len off, (ReadAt f len off).2 = f)
  ∧ (∀ len off pos, (ReadAt (Seek f pos) len off).1 = (ReadAt f len off).1).
Proof.
  intros Hrun. pose proof (inv_file _ _ _ _ (Inv_of_run _ _ _ _ _ Hrun)) as Hf.
  rewrite Hf. split_and!; try done.
  - apply Stat_file.
  - intros. apply ReadAt_file.
  - intros len off pos. unfold ReadAt, Seek. simpl. by repeat case_match.
Qed.

Lemma file_handle_untouched_witness :
  st_file scenario_final = scenario_file
  ∧ f_closed (st_file scenario_final) = false
  ∧ f_cursor (st_file scenario_final) = 0.
Proof.
  pose proof (file_handle_untouched asyncChunkSize 2 scenario_file
                scenario_schedule scenario_final ltac:(vm_compute; reflexivity)) as H.
  split; [apply H|]. split; apply H.
Defined.

(** C10. In every execution, a worker that is past its read on the success
    branch (the read returned no error, or [io.EOF]) has so far received
    from the channel and called [wg.Done] at most once each; left to run, it
    reaches the end of [readChunk] in at most two steps, and has then
    received exactly once, taking exactly one element out of the channel,
    and called [wg.Done] exactly once, lowering the counter by exactly one. *)
Theorem successful_worker_releases_once (chunkSize NumCPU : Z) (f : File)
    (sched : list tid) (s : state) (k : nat) (w : wpc) :
  run chunkSize NumCPU sched (init f) = Some s →
  st_workers s !! k = Some w → succeeded w = true →
  releases k s = Nat.b2n (released w) ∧ signals k s = Nat.b2n (signalled w)
  ∧ ∃ s', run chunkSize NumCPU (replicate (steps_left w) (Worker k)) s = Some s'
      ∧ st_workers s' !! k = Some WReturned
      ∧ releases k s' = 1%nat ∧ signals k s' = 1%nat
      ∧ (length (st_gochannel s') + 1 = length (st_gochannel s) + releases k s)%nat
      ∧ st_wg s' + 1 = st_wg s + Z.of_nat (signals k s)
      ∧ step chunkSize NumCPU (Worker k) s' = None.
Proof.
  intros Hrun Hk Hsucc. pose proof (Inv_of_run _ _ _ _ _ Hrun) as HI.
  assert (∀ s1, Inv chunkSize NumCPU f s1 → st_workers s1 !! k = Some WDoneCall →
    ∃ s', run chunkSize NumCPU [Worker k] s1 = Some s'
      ∧ st_workers s' !! k = Some WReturned
      ∧ releases k s' = 1%nat ∧ signals k s' = 1%nat
      ∧ length (st_gochannel s') = length (st_gochannel s1)
      ∧ st_wg s' + 1 = st_wg s1
      ∧ step chunkSize NumCPU (Worker k) s' = None) as Hdone.
  { intros s1 HI1 Hk1.
    pose proof (step_done _ _ _ s1 k HI1 Hk1) as Hst.
    eexists. split; [simpl; by rewrite Hst|].
    pose proof (Inv_step _ _ _ _ _ _ HI1 Hst) as HI2.
    pose proof (set_worker_lookup s1 k _ WReturned Hk1) as Hk2.
    destruct (inv_worker _ _ _ _ HI2 k WReturned Hk2) as [_ _ _ Hrel Hsig _ _].
    split_and!; try done.
    - simpl. lia.
    - unfold step, readChunk_step. simpl in *. rewrite Hk2. by destruct (st_alive s1). }
  destruct (inv_worker _ _ _ _ HI k w Hk) as [_ _ _ Hrel Hsig _ _].
  unfold releases, signals. rewrite Hrel, Hsig.
  split; [done|]. split; [done|].
  destruct w; try done; simpl.
  - (* at the receive *)
    destruct (step_recv _ _ _ s k HI Hk) as (v & rest & Hch & Hst).
    rewrite Hst.
    pose proof (Inv_step _ _ _ _ _ _ HI Hst) as HI1.
    pose proof (set_worker_lookup s k _ WDoneCall Hk) as Hk1.
    destruct (Hdone _ HI1 Hk1) as (s' & Hrun' & Hk' & Hr' & Hs' & Hc' & Hw' & Hstuck).
    exists s'. simpl in Hrun'. split; [done|]. split_and!; try done.
    + rewrite Hc', Hch. simpl. lia.
    + rewrite Hw'. simpl. lia.
  - (* at wg.Done *)
    destruct (Hdone _ HI Hk) as (s' & Hrun' & Hk' & Hr' & Hs' & Hc' & Hw' & Hstuck).
    exists s'. simpl in Hrun'. split; [done|]. split_and!; try done; lia.
  - (* returned *)
    exists s. split; [done|]. split_and!; try done; try lia.
    unfold step, readChunk_step. rewrite Hk. by destruct (st_alive s).
Qed.

Lemma successful_worker_releases_once_witness :
  releases 0 midway = 0%nat ∧ signals 0 midway = 0%nat
  ∧ ∃ s', run asyncChunkSize 2 [Worker 0; Worker 0] midway = Some s'
      ∧ st_workers s' !! 0%nat = Some WReturned
      ∧ releases 0 s' = 1%nat ∧ signals 0 s' = 1%nat
      ∧ (length (st_gochannel s') + 1 = length (st_gochannel midway) + releases 0 midway)%nat
      ∧ st_wg s' + 1 = st_wg midway + Z.of_nat (signals 0 midway)
      ∧ step asyncChunkSize 2 (Worker 0) s' = None.
Proof.
  apply (successful_worker_releases_once asyncChunkSize 2 scenario_file
           midway_schedule midway 0 WRecv);
    vm_compute; reflexivity.
Defined.

(** * Further properties of [asyncReadFile] and [readChunk] *)

(** ** The steps, case by case *)

Section StepCases.
Variable chunkSize : Z.
Variable NumCPU : Z.
Variable f : File.

Lemma with_file_same (s : state) : with_file (st_file s) s = s.
Proof. by destruct s. Qed.

(** l.113-115: a worker at its read reads its planned offset. *)
Lemma step_read (s : state) (k : nat) (i : Z) :
  Inv chunkSize NumCPU f s → st_workers s !! k = Some (WReadAt i) →
  ∃ off n err,
    i = Z.of_nat k ∧ st_chunkOffset s !! k = Some off
    ∧ ReadAt f chunkSize off = ((n, err), f)
    ∧ step chunkSize NumCPU (Worker k) s
      = Some (emit (EvReadAt k off chunkSize n err)
                (set_worker k (after_read err) s)).
Proof.
  intros HI Hk.
  destruct (inv_worker _ _ _ _ HI k _ Hk) as [_ Hidx _ _ _ _ (off & Hoff & _ & _)].
  pose proof (Hidx i eq_refl) as ->.
  pose proof (inv_file _ _ _ _ HI) as Hf.
  pose proof (ReadAt_file f chunkSize off) as Hrf.
  destruct (ReadAt f chunkSize off) as [[n err] f'] eqn:HR. simpl in Hrf. subst f'.
  exists off, n, err. split_and!; try done.
  unfold step, readChunk_step.
  rewrite (worker_alive _ _ _ _ _ _ HI Hk), Hk.
  rewrite decide_True, Nat2Z.id, Hoff, Hf, HR by lia.
  rewrite <- Hf at 1. unfold set_worker.
  by destruct s.
Qed.

(** The four steps of a worker. *)
Lemma readChunk_step_cases (s s' : state) (k : nat) :
  Inv chunkSize NumCPU f s → step chunkSize NumCPU (Worker k) s = Some s' →
  (∃ off n err,
      st_workers s !! k = Some (WReadAt (Z.of_nat k))
      ∧ st_chunkOffset s !! k = Some off
      ∧ ReadAt f chunkSize off = ((n, err), f)
      ∧ s' = emit (EvReadAt k off chunkSize n err) (set_worker k (after_read err) s))
  ∨ (∃ e, st_workers s !! k = Some (WLog e)
          ∧ s' = emit (EvLog (Worker k) e) (set_worker k WReturnedEarly s))
  ∨ (∃ v rest, st_workers s !! k = Some WRecv ∧ st_gochannel s = v :: rest
               ∧ s' = emit (EvRecv k v) (with_chan rest (set_worker k WDoneCall s)))
  ∨ (st_workers s !! k = Some WDoneCall
     ∧ s' = emit (EvDone k) (with_wg (st_wg s - 1) (set_worker k WReturned s))).
Proof.
  intros HI Hst.
  destruct (st_workers s !! k) as [w|] eqn:Hk.
  2: { unfold step, readChunk_step in Hst. rewrite Hk in Hst.
       by destruct (st_alive s). }
  destruct w as [i|e| | | | |].
  - destruct (step_read s k i HI Hk) as (off & n & err & -> & Hoff & HR & Hst').
    left. exists off, n, err. split_and!; try done. congruence.
  - right; left. exists e. split; [done|].
    rewrite (step_log _ _ _ s k e HI Hk) in Hst. congruence.
  - right; right; left.
    destruct (step_recv _ _ _ s k HI Hk) as (v & rest & Hch & Hst').
    exists v, rest. split_and!; try done. congruence.
  - right; right; right. split; [done|].
    rewrite (step_done _ _ _ s k HI Hk) in Hst. congruence.
  - unfold step, readChunk_step in Hst. rewrite Hk in Hst. by destruct (st_alive s).
  - unfold step, readChunk_step in Hst. rewrite Hk in Hst. by destruct (st_alive s).
  - unfold step, readChunk_step in Hst. rewrite Hk in Hst. by destruct (st_alive s).
Qed.

(** The steps of the orchestrator. *)
Lemma asyncReadFile_step_cases (s s' : state) :
  Inv chunkSize NumCPU f s → step chunkSize NumCPU Orch s = Some s' →
  st_workers s' = st_workers s
  ∧ (st_trace s' = st_trace s
     ∨ ∃ ev, st_trace s' = ev :: st_trace s
             ∧ match ev with
               | EvStat _ | EvLog Orch _ | EvPlan _ | EvAdd | EvSend _
               | EvWaitOver => True
               | _ => False
               end)
  ∨ ∃ i, st_orch s = OGo i ∧ i = Z.of_nat (length (st_workers s))
         ∧ s' = emit (EvGo (length (st_workers s)) i)
                  (with_workers (st_workers s ++ [WReadAt i])
                     (with_orch (OLoop (i + 1)) s)).
Proof.
  intros HI. unfold step, asyncReadFile_step.
  destruct (st_alive s); [|done].
  pose proof (inv_orch _ _ _ _ HI) as Ho. unfold orch_ok in Ho.
  pose proof (inv_conc _ _ _ _ HI) as [_ Hn].
  destruct (st_orch s) as [|e|size|i|i|i| | |] eqn:Hpc; try done.
  - destruct (Stat (st_file s)) as [[size|e] f']; intros [= <-]; left;
      (split; [done|right]); eexists; (split; [done|done]).
  - intros [= <-]. left. split; [done|right]. eexists. by split.
  - destruct (chunkPlan chunkSize (wrap64 size)); [|intros [= <-]; left; split; [done|by left]|done].
    case_decide; intros [= <-]; left; (split; [done|]); [by left|right].
    eexists. by split.
  - case_decide; intros [= <-]; left; (split; [done|]); [right|by left].
    eexists. by split.
  - case_decide; [|done]. intros [= <-]. left. split; [done|right].
    eexists. by split.
  - intros [= <-]. right. exists i. destruct Ho as [Hi Hlt].
    rewrite wrap64_id by (unfold int64_range; lia). done.
  - case_decide; [|done]. intros [= <-]. left. split; [done|right].
    eexists. by split.
Qed.
End StepCases.

(** * The claims, continued *)

(** C6. Every worker asks for exactly [chunkSize] bytes in its read, at its
    planned offset, whatever remains of the file there. A worker standing
    at l.113 can always take its step, and the step is the read of
    [chunkSize] bytes at [chunkOffset[k]]; every read a worker has issued is
    such a read; and every worker past l.113 has issued exactly one. *)
Theorem read_requests_full_chunk (chunkSize NumCPU : Z) (f : File)
    (sched : list tid) (s : state) :
  run chunkSize NumCPU sched (init f) = Some s →
  (∀ k i, st_workers s !! k = Some (WReadAt i) →
     ∃ off n err,
       st_chunkOffset s !! k = Some off
       ∧ ReadAt f chunkSize off = ((n, err), f)
       ∧ step chunkSize NumCPU (Worker k) s
         = Some (emit (EvReadAt k off chunkSize n err)
                   (set_worker k (after_read err) s)))
  ∧ (∀ k off len n err, EvReadAt k off len n err ∈ st_trace s →
       len = chunkSize ∧ st_chunkOffset s !! k = Some off
       ∧ ReadAt f chunkSize off = ((n, err), f))
  ∧ (∀ k w, st_workers s !! k = Some w →
       count (is_read k) (st_trace s)
       = if decide (w = WReadAt (Z.of_nat k)) then 0%nat else 1%nat).
Proof.
  intros Hrun. pose proof (Inv_of_run _ _ _ _ _ Hrun) as HI. split_and!.
  - intros k i Hk.
    destruct (step_read chunkSize NumCPU f s k i HI Hk)
      as (off & n & err & _ & Hoff & HR & Hstep).
    by exists off, n, err.
  - intros k off len n err Hev.
    pose proof (inv_reads _ _ _ _ HI) as Hr.
    rewrite Forall_forall in Hr. apply (Hr _ Hev).
  - intros k w Hk.
    destruct (inv_worker _ _ _ _ HI k w Hk) as [_ _ Hrd _ _ _ _].
    rewrite Hrd. case_decide.
    + by rewrite bool_decide_eq_true_2.
    + by rewrite bool_decide_eq_false_2.
Qed.

Lemma read_requests_full_chunk_witness :
  st_workers dispatched !! 2%nat = Some (WReadAt 2)
  ∧ step asyncChunkSize 3 (Worker 2) dispatched
    = Some (emit (EvReadAt 2 2097152 1048576 402848 (Some io_EOF))
              (set_worker 2 WRecv dispatched))
  ∧ f_size scenario_file - 2097152 = 402848.
Proof.
  split; [vm_compute; reflexivity|]. split; [|reflexivity].
  pose proof (read_requests_full_chunk asyncChunkSize 3 scenario_file
                dispatched_schedule dispatched ltac:(vm_compute; reflexivity))
    as [H _].
  destruct (H 2%nat 2 ltac:(vm_compute; reflexivity))
    as (off & n & err & Hoff & HR & Hstep).
  vm_compute in Hoff. injection Hoff as <-.
  vm_compute in HR. injection HR as <- <-.
  exact Hstep.
Defined.

(** ** No panic, no leak but by a failed read *)

(** X1. For a 64-bit file size, a positive chunk size and a CPU count that
    is not negative, no execution of [asyncReadFile] panics: not in
    [make], not at [chunkOffset[i]], not in [wg.Done]; the WaitGroup counter
    is never negative. *)
Theorem asyncReadFile_never_panics (chunkSize NumCPU : Z) (f : File)
    (sched : list tid) (s : state) :
  0 < chunkSize < 2 ^ 63 → 0 ≤ NumCPU → 0 ≤ f_size f < 2 ^ 63 →
  run chunkSize NumCPU sched (init f) = Some s →
  st_alive s = true ∧ st_orch s ≠ OPanicked
  ∧ (∀ k w, st_workers s !! k = Some w → w ≠ WPanicked)
  ∧ 0 ≤ st_wg s.
Proof.
  intros [Hc1 Hc2] Hcpu Hsize Hrun. pose proof (Inv_of_run _ _ _ _ _ Hrun) as HI.
  assert (st_orch s ≠ OPanicked) as Hpc.
  { intros Hpc. pose proof (inv_plan _ _ _ _ HI) as Hpl. unfold plan_ok in Hpl.
    rewrite Hpc in Hpl. destruct Hpl as (size & HS & [Hneg|Hpanic]); [lia|].
    apply Stat_size in HS. subst size.
    rewrite wrap64_id in Hpanic by (unfold int64_range; lia).
    rewrite chunkPlan_eq in Hpanic by (done || lia). done. }
  split_and!; try done.
  - destruct (st_alive s) eqn:Hal; [done|].
    by pose proof (inv_alive _ _ _ _ HI Hal).
  - intros k w Hk. by destruct (inv_worker _ _ _ _ HI k w Hk).
  - pose proof (inv_wg _ _ _ _ HI) as Hwg.
    pose proof (count_le_length signalled (st_workers s)).
    assert (0 ≤ adds_pending (st_orch s)) by (by destruct (st_orch s)). lia.
Qed.

Lemma asyncReadFile_never_panics_witness :
  st_alive faulty_final = true ∧ 0 ≤ st_wg faulty_final.
Proof.
  pose proof (asyncReadFile_never_panics asyncChunkSize 1 faulty_file
                faulty_schedule faulty_final
                ltac:(unfold asyncChunkSize; lia) ltac:(lia) ltac:(simpl; lia)
                ltac:(vm_compute; reflexivity)) as H.
  split; apply H.
Defined.

Lemma count_holds_slot (ws : list wpc) :
  count holds_slot ws = (count executing ws + count returned_early ws)%nat.
Proof.
  induction ws as [|w ws IH]; [done|].
  rewrite !count_cons, IH. destruct w; simpl; lia.
Qed.

Section Leak.
Variable chunkSize : Z.
Variable NumCPU : Z.
Variable f : File.

(** A worker that has returned stays as it is. *)
Lemma returned_early_stays (t : tid) (s s' : state) (k : nat) :
  Inv chunkSize NumCPU f s → step chunkSize NumCPU t s = Some s' →
  st_workers s !! k = Some WReturnedEarly →
  st_workers s' !! k = Some WReturnedEarly.
Proof.
  intros HI Hst Hk. destruct t as [|j].
  - destruct (asyncReadFile_step_cases _ _ _ s s' HI Hst)
      as [[-> _]|(i & _ & _ & ->)]; [done|].
    simpl. by apply lookup_app_l_Some.
  - assert (j ≠ k) as Hne.
    { intros ->. unfold step, readChunk_step in Hst. rewrite Hk in Hst.
      by destruct (st_alive s). }
    destruct (readChunk_step_cases _ _ _ s s' j HI Hst)
      as [(?&?&?&_&_&_&->)|[(?&_&->)|[(?&?&_&_&->)|(_&->)]]]; simpl;
      by rewrite list_lookup_insert_ne.
Qed.

Lemma count_returned_early_mono (t : tid) (s s' : state) :
  Inv chunkSize NumCPU f s → step chunkSize NumCPU t s = Some s' →
  (count returned_early (st_workers s) ≤ count returned_early (st_workers s'))%nat.
Proof.
  intros HI Hst. destruct t as [|j].
  - destruct (asyncReadFile_step_cases _ _ _ s s' HI Hst)
      as [[-> _]|(i & _ & _ & ->)]; [done|].
    simpl. rewrite count_app. lia.
  - destruct (readChunk_step_cases _ _ _ s s' j HI Hst)
      as [(?&?&err&Hk&_&_&->)|[(?&Hk&->)|[(?&?&Hk&_&->)|(Hk&->)]]]; simpl.
    + pose proof (count_insert returned_early _ j _ (after_read err) Hk). simpl in *. lia.
    + pose proof (count_insert returned_early _ j _ WReturnedEarly Hk). simpl in *. lia.
    + pose proof (count_insert returned_early _ j _ WDoneCall Hk). simpl in *. lia.
    + pose proof (count_insert returned_early _ j _ WReturned Hk). simpl in *. lia.
Qed.
End Leak.

(** X2. Every worker that returned through l.117 keeps an element in the
    channel for the rest of the invocation: in every state the workers
    executing their read and the failed reads so far are together at most
    the elements in the channel, which are at most [NumCPU]. *)
Theorem failed_reads_keep_their_slots (chunkSize NumCPU : Z) (f : File)
    (sched : list tid) (s : state) :
  0 ≤ NumCPU →
  run chunkSize NumCPU sched (init f) = Some s →
  Z.of_nat (count_executing s) + Z.of_nat (count returned_early (st_workers s))
  ≤ Z.of_nat (length (st_gochannel s)) ≤ NumCPU.
Proof.
  intros Hcpu Hrun. pose proof (Inv_of_run _ _ _ _ _ Hrun) as HI.
  pose proof (inv_chan _ _ _ _ HI) as Hch.
  pose proof (inv_cap _ _ _ _ HI) as Hcap.
  rewrite count_holds_slot in Hch. unfold count_executing. lia.
Qed.

Lemma failed_reads_keep_their_slots_witness :
  Z.of_nat (count_executing faulty_final)
  + Z.of_nat (count returned_early (st_workers faulty_final))
  ≤ Z.of_nat (length (st_gochannel faulty_final)) ≤ 1.
Proof.
  apply (failed_reads_keep_their_slots asyncChunkSize 1 faulty_file
           faulty_schedule faulty_final ltac:(lia) ltac:(vm_compute; reflexivity)).
Defined.

(** X3. Once the failed reads are as many as [NumCPU], an orchestrator
    waiting at the send of l.104 stays there in every continuation: no
    further worker is spawned and [asyncReadFile] never returns. *)
Theorem exhausted_slots_block_dispatch (chunkSize NumCPU : Z) (f : File)
    (sched sched' : list tid) (s s' : state) (i : Z) :
  run chunkSize NumCPU sched (init f) = Some s →
  st_orch s = OSend i →
  NumCPU ≤ Z.of_nat (count returned_early (st_workers s)) →
  run chunkSize NumCPU sched' s = Some s' →
  st_orch s' = OSend i ∧ length (st_workers s') = length (st_workers s).
Proof.
  intros Hrun Hpc Hfull. pose proof (Inv_of_run _ _ _ _ _ Hrun) as HI.
  clear Hrun sched.
  revert s HI Hpc Hfull. induction sched' as [|t sched' IH]; intros s HI Hpc Hfull; simpl.
  - by intros [= <-].
  - destruct (step chunkSize NumCPU t s) as [s1|] eqn:Hst; [|done].
    intros Hrun.
    pose proof (Inv_step _ _ _ _ _ _ HI Hst) as HI1.
    pose proof (count_returned_early_mono _ _ _ t s s1 HI Hst) as Hmono.
    assert (st_orch s1 = OSend i ∧ length (st_workers s1) = length (st_workers s))
      as [Hpc1 Hlen1].
    { destruct t as [|j].
      - exfalso. unfold step, asyncReadFile_step in Hst.
        destruct (st_alive s); [|done]. rewrite Hpc in Hst.
        pose proof (inv_chan _ _ _ _ HI) as Hch. rewrite count_holds_slot in Hch.
        rewrite decide_False in Hst by lia. done.
      - destruct (readChunk_step_cases _ _ _ s s1 j HI Hst)
          as [(?&?&?&_&_&_&->)|[(?&_&->)|[(?&?&_&_&->)|(_&->)]]]; simpl;
          by rewrite length_insert. }
    destruct (IH s1 HI1 Hpc1 ltac:(lia) Hrun) as [? ?]. split; [done|lia].
Qed.

Lemma exhausted_slots_block_dispatch_witness :
  st_orch leak_state = OSend 1
  ∧ length (st_workers leak_state) = 1%nat
  ∧ enabled asyncChunkSize 1 leak_state = [].
Proof.
  pose proof (exhausted_slots_block_dispatch asyncChunkSize 1 leak_file
                leak_schedule [] leak_state leak_state 1
                ltac:(vm_compute; reflexivity) ltac:(vm_compute; reflexivity)
                ltac:(vm_compute; discriminate) ltac:(reflexivity)) as [H _].
  split; [exact H|]. vm_compute. done.
Defined.

(** X4. When [asyncReadFile] is back with its caller after a successful size
    query, nothing is left behind: the counter is zero, the channel is
    empty, there is one worker per planned offset, and each of them has
    read once, received once, called [wg.Done] once and logged nothing. *)
Theorem return_leaves_nothing_behind (chunkSize NumCPU : Z) (f : File)
    (sched : list tid) (s : state) :
  run chunkSize NumCPU sched (init f) = Some s → st_orch s = OReturned →
  st_wg s = 0 ∧ st_gochannel s = []
  ∧ length (st_workers s) = length (st_chunkOffset s)
  ∧ ∀ k, (k < length (st_chunkOffset s))%nat →
      st_workers s !! k = Some WReturned
      ∧ count (is_read k) (st_trace s) = 1%nat
      ∧ releases k s = 1%nat ∧ signals k s = 1%nat
      ∧ logged (Worker k) s = 0%nat.
Proof.
  intros Hrun Hpc. pose proof (Inv_of_run _ _ _ _ _ Hrun) as HI.
  destruct (returned_all_signalled _ _ _ s HI Hpc) as [Hlen Hall].
  pose proof (inv_orch _ _ _ _ HI) as Ho. unfold orch_ok in Ho. rewrite Hpc in Ho.
  pose proof (inv_conc _ _ _ _ HI) as [Hn _].
  pose proof (inv_chan _ _ _ _ HI) as Hch. rewrite Hpc in Hch. simpl in Hch.
  assert (count holds_slot (st_workers s) = 0%nat) as Hz.
  { destruct (decide (0 < count holds_slot (st_workers s))%nat) as [Hpos|]; [|lia].
    destruct (count_pos_lookup _ _ Hpos) as (k & w & Hk & Hw).
    by rewrite (Hall k w Hk) in Hw. }
  split_and!; [apply Ho|apply nil_length_inv; lia|lia|].
  intros k Hk.
  destruct (lookup_lt_is_Some_2 (st_workers s) k ltac:(lia)) as [w Hw].
  pose proof (Hall k w Hw) as ->.
  destruct (inv_worker _ _ _ _ HI k _ Hw) as [_ _ Hrd Hrel Hsig Hlog _].
  split_and!; done.
Qed.

Lemma return_leaves_nothing_behind_witness :
  st_wg scenario_final = 0 ∧ st_gochannel scenario_final = []
  ∧ length (st_workers scenario_final) = 3%nat.
Proof.
  pose proof (return_leaves_nothing_behind asyncChunkSize 2 scenario_file
                scenario_schedule scenario_final
                ltac:(vm_compute; reflexivity) ltac:(vm_compute; reflexivity))
    as (H1 & H2 & H3 & _).
  split; [exact H1|]. split; [exact H2|]. rewrite H3. vm_compute. reflexivity.
Defined.

(** X5. No execution of [asyncReadFile] has more than
    [6 * concurrency + 4] steps, whatever the reads return: an invocation
    that does not return comes to a halt with every goroutine blocked or
    gone; it never spins. *)
Theorem executions_are_bounded (chunkSize NumCPU : Z) (f : File)
    (sched : list tid) (s : state) :
  run chunkSize NumCPU sched (init f) = Some s →
  (length sched ≤ 6 * Z.to_nat (numChunks chunkSize (wrap64 (f_size f))) + 4)%nat.
Proof.
  intros Hrun.
  pose proof (run_measure _ _ _ sched _ _ (Inv_init chunkSize NumCPU f) Hrun) as H.
  unfold measure in H at 2. simpl in H. lia.
Qed.

Lemma executions_are_bounded_witness :
  (length scenario_schedule ≤ 22)%nat.
Proof.
  apply (executions_are_bounded asyncChunkSize 2 scenario_file
           scenario_schedule scenario_final).
  vm_compute. reflexivity.
Defined.

(** ** Dispatch order *)

Section RunInvariant.
Variable chunkSize : Z.
Variable NumCPU : Z.
Variable f : File.
Variable P : state → Prop.
Hypothesis P_init : P (init f).
Hypothesis P_step :
  ∀ t s s', Inv chunkSize NumCPU f s → P s →
            step chunkSize NumCPU t s = Some s' → P s'.

(** A property that the steps keep holds along every execution. *)
Lemma run_invariant (sched : list tid) (s : state) :
  run chunkSize NumCPU sched (init f) = Some s → P s.
Proof using P_init P_step.
  assert (∀ s0, Inv chunkSize NumCPU f s0 → P s0 →
                run chunkSize NumCPU sched s0 = Some s → P s) as Hgen.
  { induction sched as [|t sched IH]; intros s0 HI HP; simpl.
    - by intros [= <-].
    - destruct (step chunkSize NumCPU t s0) as [s1|] eqn:Hst; [|done].
      apply IH; [by eapply Inv_step|by eapply P_step]. }
  apply Hgen; [apply Inv_init|done].
Qed.
End RunInvariant.

Lemma spawns_emit (ev : event) (s s' : state) :
  st_trace s' = ev :: st_trace s →
  spawns s' = spawns s ++ from_option (λ p, [p]) [] (spawn_of ev).
Proof.
  intros Htr. unfold spawns. rewrite Htr, reverse_cons, omap_app.
  simpl. by destruct (spawn_of ev).
Qed.

Lemma spawns_in_order (chunkSize NumCPU : Z) (f : File) (sched : list tid) (s : state) :
  run chunkSize NumCPU sched (init f) = Some s →
  spawns s = (λ k, (k, Z.of_nat k)) <$> seq 0 (length (st_workers s)).
Proof.
  apply (run_invariant chunkSize NumCPU f
           (λ s, spawns s = (λ k, (k, Z.of_nat k)) <$> seq 0 (length (st_workers s))));
    [done|].
  intros t s0 s1 HI HP Hst. destruct t as [|j].
  - destruct (asyncReadFile_step_cases _ _ _ s0 s1 HI Hst)
      as [[Hws [Htr|(ev & Htr & Hev)]]|(i & _ & -> & ->)].
    + unfold spawns. by rewrite Htr, Hws.
    + rewrite (spawns_emit ev s0 s1 Htr), Hws, HP.
      destruct ev as [|[|]| | | | | | | |]; try done; simpl; by rewrite app_nil_r.
    + rewrite (spawns_emit (EvGo (length (st_workers s0)) (Z.of_nat (length (st_workers s0)))) s0)
        by done.
      simpl. rewrite HP, length_app. simpl.
      rewrite Nat.add_1_r, seq_S, fmap_app. done.
  - destruct (readChunk_step_cases _ _ _ s0 s1 j HI Hst)
      as [(?&?&?&_&_&_&->)|[(?&_&->)|[(?&?&_&_&->)|(_&->)]]];
      rewrite (spawns_emit _ s0) by done; simpl;
      by rewrite app_nil_r, length_insert.
Qed.

(** X6. Workers are dispatched in plan order: the k-th [go] statement hands
    its worker the index k, and that worker's read is at offset
    [k * chunkSize], below the file size. *)
Theorem dispatch_follows_plan (chunkSize NumCPU : Z) (f : File)
    (sched : list tid) (s : state) :
  0 < chunkSize < 2 ^ 63 → 0 ≤ f_size f < 2 ^ 63 →
  run chunkSize NumCPU sched (init f) = Some s →
  spawns s = (λ k, (k, Z.of_nat k)) <$> seq 0 (length (st_workers s))
  ∧ ∀ k off len n err, EvReadAt k off len n err ∈ st_trace s →
      off = Z.of_nat k * chunkSize ∧ off < f_size f.
Proof.
  intros Hchunk Hsize Hrun. split; [by eapply spawns_in_order|].
  intros k off len n err Hev.
  pose proof (Inv_of_run _ _ _ _ _ Hrun) as HI.
  pose proof (inv_reads _ _ _ _ HI) as Hr. rewrite Forall_forall in Hr.
  destruct (Hr _ Hev) as (_ & Hoff & _).
  destruct (offs_of_state _ _ _ s HI) as [Hnil|(size & HS & Hp)];
    [by rewrite Hnil in Hoff|].
  apply Stat_size in HS. subst size.
  rewrite wrap64_id in Hp by (unfold int64_range; lia).
  destruct Hchunk as [Hc1 Hc2].
  rewrite chunkPlan_eq in Hp by done. injection Hp as Hp. rewrite <- Hp in Hoff.
  rewrite list_lookup_fmap in Hoff.
  destruct (seqZ 0 _ !! k) as [j|] eqn:Hj; simplify_eq/=.
  apply lookup_seqZ in Hj as [-> Hlt].
  pose proof (ceil_div_bounds (f_size f) chunkSize ltac:(lia) Hc1). nia.
Qed.

Lemma dispatch_follows_plan_witness :
  spawns scenario_final = [(0%nat, 0); (1%nat, 1); (2%nat, 2)]
  ∧ 2097152 = Z.of_nat 2 * asyncChunkSize.
Proof.
  pose proof (dispatch_follows_plan asyncChunkSize 2 scenario_file
                scenario_schedule scenario_final
                ltac:(unfold asyncChunkSize; lia) ltac:(simpl; lia)
                ltac:(vm_compute; reflexivity)) as [H1 H2].
  split; [rewrite H1; vm_compute; reflexivity|].
  apply (H2 2%nat 2097152 1048576 402848 (Some io_EOF)).
  apply (list_elem_of_lookup_2 _ 3%nat). vm_compute. reflexivity.
Defined.

(** ** The reads cover the file *)

Section Owed.
Variable chunkSize : Z.
Variable f : File.

Lemma chunk_bytes_nonneg (off : Z) : 0 ≤ chunk_bytes chunkSize f off.
Proof. unfold chunk_bytes, ReadAt. repeat case_match; simpl; lia. Qed.

Lemma owed_nonneg (offs : list Z) :
  ∀ k ws, 0 ≤ owed_from chunkSize f k offs ws.
Proof.
  induction offs as [|off offs IH]; intros k ws; simpl; [lia|].
  pose proof (chunk_bytes_nonneg off). pose proof (IH (S k) ws).
  destruct (has_read (ws !! k)); lia.
Qed.

(** What is owed depends on the workers only through who has read. *)
Lemma owed_ext (ws ws' : list wpc) (offs : list Z) :
  ∀ k0, (∀ k, (k0 ≤ k)%nat → has_read (ws !! k) = has_read (ws' !! k)) →
        owed_from chunkSize f k0 offs ws = owed_from chunkSize f k0 offs ws'.
Proof.
  induction offs as [|off offs IH]; intros k0 Hext; simpl; [done|].
  rewrite (Hext k0) by lia. rewrite (IH (S k0)); [done|].
  intros k Hk. apply Hext. lia.
Qed.

(** The read of worker [j] pays the bytes of its chunk. *)
Lemma owed_flip (ws ws' : list wpc) (j : nat) (offs : list Z) :
  (∀ k, k ≠ j → has_read (ws !! k) = has_read (ws' !! k)) →
  has_read (ws !! j) = false → has_read (ws' !! j) = true →
  ∀ k0 off, (k0 ≤ j)%nat → offs !! (j - k0)%nat = Some off →
    owed_from chunkSize f k0 offs ws' + chunk_bytes chunkSize f off
    = owed_from chunkSize f k0 offs ws.
Proof.
  intros Hext Hj Hj'. induction offs as [|o offs IH]; intros k0 off Hle Hoff; [done|].
  simpl. destruct (decide (k0 = j)) as [->|Hne].
  - rewrite Nat.sub_diag in Hoff. simpl in Hoff. simplify_eq.
    rewrite Hj, Hj'.
    rewrite (owed_ext ws' ws offs (S j)); [lia|].
    intros k Hk. symmetry. apply Hext. lia.
  - rewrite (Hext k0 Hne).
    replace (j - k0)%nat with (S (j - S k0)) in Hoff by lia. simpl in Hoff.
    rewrite <- (IH (S k0) off ltac:(lia) Hoff). lia.
Qed.

(** Nothing is owed once every worker of the plan has read. *)
Lemma owed_all_read (ws : list wpc) (offs : list Z) :
  ∀ k0, (∀ k, (k0 ≤ k < k0 + length offs)%nat → has_read (ws !! k) = true) →
        owed_from chunkSize f k0 offs ws = 0.
Proof.
  induction offs as [|off offs IH]; intros k0 Hall; simpl; [done|].
  rewrite (Hall k0) by (simpl; lia). rewrite IH; [done|].
  intros k Hk. apply Hall. simpl. lia.
Qed.

Lemma bytes_read_emit (ev : event) (s s' : state) :
  st_trace s' = ev :: st_trace s → bytes_read s' = read_bytes ev + bytes_read s.
Proof. intros Htr. unfold bytes_read. by rewrite Htr. Qed.

(** In a healthy file the chunks from index [a] on hold the bytes from
    [a * chunkSize] on. *)
Lemma owed_plan (m : nat) :
  f_closed f = false → 0 < chunkSize → (∀ i, chunkSize * i ∉ f_bad f) →
  ∀ a k, 0 ≤ a →
    owed_from chunkSize f k (Z.mul chunkSize <$> seqZ a (Z.of_nat m)) []
    = Z.max 0 (Z.min (f_size f - a * chunkSize) (Z.of_nat m * chunkSize)).
Proof.
  intros Hopen Hc Hbad. induction m as [|m IH]; intros a k Ha.
  - simpl. lia.
  - rewrite seqZ_cons by lia. rewrite fmap_cons. cbn [owed_from].
    rewrite lookup_nil. cbn [has_read]. replace (Z.pred (Z.of_nat (S m))) with (Z.of_nat m) by lia.
    rewrite (IH (Z.succ a) (S k)) by lia.
    unfold chunk_bytes, ReadAt. rewrite Hopen.
    rewrite decide_False by nia. rewrite decide_False by lia.
    rewrite decide_False by apply Hbad.
    case_decide; simpl; nia.
Qed.
End Owed.

Section Coverage.
Variable chunkSize : Z.
Variable NumCPU : Z.
Variable f : File.

Lemma no_reads_no_bytes (tr : list event) :
  (∀ k, count (is_read k) tr = 0%nat) →
  foldr (λ ev acc, read_bytes ev + acc) 0 tr = 0.
Proof.
  induction tr as [|ev tr IH]; intros Hz; [done|]. simpl.
  rewrite IH.
  - destruct ev as [| | | | | |k off len n err| | |]; try done.
    specialize (Hz k). rewrite count_cons in Hz. simpl in Hz.
    rewrite bool_decide_eq_true_2 in Hz by done. done.
  - intros k. specialize (Hz k). rewrite count_cons in Hz. lia.
Qed.

Lemma no_workers_no_bytes (s : state) :
  Inv chunkSize NumCPU f s → st_workers s = [] → bytes_read s = 0.
Proof.
  intros HI Hws. apply no_reads_no_bytes. intros k.
  destruct (inv_fresh _ _ _ _ HI k) as (_ & _ & _ & Hr); [|done].
  rewrite Hws. simpl. lia.
Qed.

(** The plan changes only in the planning step, before any worker. *)
Lemma asyncReadFile_step_plan (s s' : state) :
  step chunkSize NumCPU Orch s = Some s' →
  st_chunkOffset s' = st_chunkOffset s
  ∨ ∃ size co, st_orch s = OPlan size ∧ st_workers s' = st_workers s
               ∧ st_trace s' = EvPlan co :: st_trace s.
Proof.
  unfold step, asyncReadFile_step. destruct (st_alive s); [|done].
  destruct (st_orch s) as [|e|size|i|i|i| | |] eqn:Hpc; try done.
  - destruct (Stat (st_file s)) as [[size|e] f']; intros [= <-]; by left.
  - intros [= <-]. by left.
  - destruct (chunkPlan chunkSize (wrap64 size)) as [co| |]; [|intros [= <-]; by left|done].
    case_decide; intros [= <-]; [by left|right]. by exists size, co.
  - case_decide; intros [= <-]; by left.
  - case_decide; [|done]. intros [= <-]. by left.
  - intros [= <-]. by left.
  - case_decide; [|done]. intros [= <-]. by left.
Qed.

Lemma has_read_spawn (ws : list wpc) (i : Z) (k : nat) :
  has_read ((ws ++ [WReadAt i]) !! k) = has_read (ws !! k).
Proof.
  destruct (decide (k < length ws)%nat).
  - by rewrite lookup_app_l.
  - rewrite lookup_app_r by lia. rewrite (lookup_ge_None_2 ws k) by lia.
    by destruct (k - length ws)%nat as [|[|?]].
Qed.

Lemma has_read_insert (ws : list wpc) (j k : nat) (w w' : wpc) :
  ws !! j = Some w → has_read (Some w) = has_read (Some w') →
  has_read (<[j := w']> ws !! k) = has_read (ws !! k).
Proof.
  intros Hj Hw. destruct (decide (k = j)) as [->|Hne].
  - rewrite list_lookup_insert_eq by (by eapply lookup_lt_Some). by rewrite Hj.
  - by rewrite list_lookup_insert_ne.
Qed.

(** The bytes read so far and the bytes still owed make up the bytes of
    the plan. *)
Lemma bytes_accounting (sched : list tid) (s : state) :
  run chunkSize NumCPU sched (init f) = Some s →
  bytes_read s + owed_from chunkSize f 0 (st_chunkOffset s) (st_workers s)
  = owed_from chunkSize f 0 (st_chunkOffset s) [].
Proof.
  apply (run_invariant chunkSize NumCPU f
           (λ s, bytes_read s
                 + owed_from chunkSize f 0 (st_chunkOffset s) (st_workers s)
                 = owed_from chunkSize f 0 (st_chunkOffset s) [])); [done|].
  intros t s0 s1 HI HP Hst. destruct t as [|j].
  - destruct (asyncReadFile_step_plan s0 s1 Hst) as [Hoffs|(size & co & Hpc & Hws & Htr)].
    + rewrite Hoffs.
      destruct (asyncReadFile_step_cases _ _ _ s0 s1 HI Hst)
        as [[Hws [Htr|(ev & Htr & Hev)]]|(i & _ & -> & ->)].
      * unfold bytes_read. by rewrite Htr, Hws.
      * rewrite (bytes_read_emit ev s0 s1 Htr), Hws.
        destruct ev as [|[|]| | | | | | | |]; try done.
      * rewrite (bytes_read_emit (EvGo (length (st_workers s0)) (Z.of_nat (length (st_workers s0)))) s0)
          by done.
        simpl. rewrite (owed_ext chunkSize f _ (st_workers s0)); [done|].
        intros k _. apply has_read_spawn.
    + pose proof (inv_orch _ _ _ _ HI) as Ho. unfold orch_ok in Ho.
      rewrite Hpc in Ho. destruct Ho as [Hnil _].
      rewrite (bytes_read_emit _ s0 s1 Htr), Hws, Hnil. simpl.
      rewrite (no_workers_no_bytes s0 HI Hnil). lia.
  - destruct (readChunk_step_cases _ _ _ s0 s1 j HI Hst)
      as [(off&n&err&Hk&Hoff&HR&->)|[(e&Hk&->)|[(v&rest&Hk&_&->)|(Hk&->)]]].
    + rewrite (bytes_read_emit (EvReadAt j off chunkSize n err) s0) by done.
      simpl.
      pose proof (owed_flip chunkSize f (st_workers s0)
                    (<[j := after_read err]> (st_workers s0)) j (st_chunkOffset s0)) as Hflip.
      rewrite <- HP.
      rewrite <- (Hflip) with (k0 := 0%nat) (off := off).
      * unfold chunk_bytes. rewrite HR. simpl. lia.
      * intros k Hne. by rewrite list_lookup_insert_ne.
      * by rewrite Hk.
      * rewrite list_lookup_insert_eq by (by eapply lookup_lt_Some).
        unfold after_read. destruct err; [case_decide|]; done.
      * lia.
      * by rewrite Nat.sub_0_r.
    + rewrite (bytes_read_emit (EvLog (Worker j) e) s0) by done. simpl.
      rewrite (owed_ext chunkSize f _ (st_workers s0)); [done|].
      intros k _. by eapply has_read_insert.
    + rewrite (bytes_read_emit (EvRecv j v) s0) by done. simpl.
      rewrite (owed_ext chunkSize f _ (st_workers s0)); [done|].
      intros k _. by eapply has_read_insert.
    + rewrite (bytes_read_emit (EvDone j) s0) by done. simpl.
      rewrite (owed_ext chunkSize f _ (st_workers s0)); [done|].
      intros k _. by eapply has_read_insert.
Qed.

Lemma bytes_read_nonneg (s : state) :
  Inv chunkSize NumCPU f s → 0 ≤ bytes_read s.
Proof.
  intros HI. pose proof (inv_reads _ _ _ _ HI) as Hr. unfold bytes_read.
  induction Hr as [|ev tr Hev _ IH]; simpl; [lia|].
  destruct ev as [| | | | | |k off len n err| | |]; simpl; try lia.
  destruct Hev as (_ & _ & HR).
  pose proof (chunk_bytes_nonneg chunkSize f off) as Hnn.
  unfold chunk_bytes in Hnn. rewrite HR in Hnn. simpl in Hnn. lia.
Qed.
End Coverage.

(** X7. On an open file none of whose chunk reads the device fails, the
    bytes returned by the reads never exceed the file size, and when
    [asyncReadFile] is back with its caller they add up to exactly the file
    size: every byte has been read, none twice. *)
Theorem every_byte_is_read_once (chunkSize NumCPU : Z) (f : File)
    (sched : list tid) (s : state) :
  0 < chunkSize < 2 ^ 63 → 0 ≤ f_size f < 2 ^ 63 →
  f_closed f = false → f_stat_fault f = false →
  (∀ i, chunkSize * i ∉ f_bad f) →
  run chunkSize NumCPU sched (init f) = Some s →
  0 ≤ bytes_read s ≤ f_size f
  ∧ (st_orch s = OReturned → bytes_read s = f_size f).
Proof.
  intros [Hc1 Hc2] Hsize Hopen Hstat Hbad Hrun.
  pose proof (Inv_of_run _ _ _ _ _ Hrun) as HI.
  pose proof (bytes_accounting _ _ _ _ _ Hrun) as Hacc.
  pose proof (owed_nonneg chunkSize f (st_chunkOffset s) 0 (st_workers s)) as Hnn.
  pose proof (bytes_read_nonneg _ _ _ s HI) as Hbn.
  pose proof (ceil_div_bounds (f_size f) chunkSize ltac:(lia) Hc1) as Hb.
  pose proof (ceil_div_nonneg chunkSize Hc1 (f_size f) ltac:(lia)) as Hn.
  assert ((Stat f).1 = inl (f_size f)) as HS.
  { unfold Stat. by rewrite Hopen, Hstat. }
  assert (owed_from chunkSize f 0
            (Z.mul chunkSize <$> seqZ 0 (ceil_div (f_size f) chunkSize)) []
          = f_size f) as Htotal.
  { rewrite <- (Z2Nat.id (ceil_div (f_size f) chunkSize)) at 1 by done.
    rewrite owed_plan by (done || lia).
    rewrite Z2Nat.id by done. nia. }
  assert (planned chunkSize f s →
          owed_from chunkSize f 0 (st_chunkOffset s) [] = f_size f) as Hplanned.
  { intros (size & HS' & Hp).
    assert (size = f_size f) as -> by congruence.
    rewrite wrap64_id in Hp by (unfold int64_range; lia).
    rewrite chunkPlan_eq in Hp by done. injection Hp as Hp. by rewrite <- Hp. }
  split.
  - destruct (offs_of_state _ _ _ s HI) as [Hnil|Hp].
    + rewrite Hnil in Hacc. simpl in Hacc. lia.
    + rewrite (Hplanned Hp) in Hacc. lia.
  - intros Hpc.
    pose proof (inv_plan _ _ _ _ HI) as Hpl. unfold plan_ok in Hpl.
    rewrite Hpc in Hpl. destruct Hpl as [[[e He] _]|Hp]; [congruence|].
    rewrite (Hplanned Hp) in Hacc.
    destruct (returned_all_signalled _ _ _ s HI Hpc) as [Hlen Hall].
    pose proof (inv_conc _ _ _ _ HI) as [Hn' _].
    rewrite owed_all_read in Hacc; [lia|].
    intros k Hk.
    destruct (lookup_lt_is_Some_2 (st_workers s) k ltac:(lia)) as [w Hw].
    by rewrite Hw, (Hall k w Hw).
Qed.

Lemma every_byte_is_read_once_witness :
  bytes_read scenario_final = 2500000.
Proof.
  apply (every_byte_is_read_once asyncChunkSize 2 scenario_file
           scenario_schedule scenario_final);
    try (vm_compute; reflexivity); try (unfold asyncChunkSize; lia);
    try (simpl; lia).
  intros i Hi. by apply elem_of_nil in Hi.
Defined.

(** ** The cursor of the handle *)

Lemma Stat_Seek (f : File) (pos : Z) :
  Stat (Seek f pos) = ((Stat f).1, Seek f pos).
Proof. unfold Stat, Seek. simpl. by repeat case_match. Qed.

Lemma ReadAt_Seek (f : File) (pos len off : Z) :
  ReadAt (Seek f pos) len off = ((ReadAt f len off).1, Seek f pos).
Proof. unfold ReadAt, Seek. simpl. by repeat case_match. Qed.

Lemma step_reseek (chunkSize NumCPU : Z) (pos : Z) (t : tid) (s : state) :
  step chunkSize NumCPU t (reseek pos s)
  = reseek pos <$> step chunkSize NumCPU t s.
Proof.
  destruct s as [f wg ch offs n pc ws tr al].
  unfold step, reseek. simpl. destruct al; [|done].
  destruct t as [|k].
  - unfold asyncReadFile_step. simpl.
    destruct pc as [|e|size|i|i|i| | |]; simpl; try done.
    + rewrite Stat_Seek. pose proof (Stat_file f) as Hf.
      destruct (Stat f) as [[size|e] f']; simpl in *; by subst.
    + destruct (chunkPlan chunkSize (wrap64 size)); try done. by case_decide.
    + by case_decide.
    + by case_decide.
    + by case_decide.
  - unfold readChunk_step. simpl.
    destruct (ws !! k) as [[i|e| | | | |]|]; simpl; try done.
    + destruct (if decide (0 ≤ i) then offs !! Z.to_nat i else None) as [off|]; [|done].
      rewrite ReadAt_Seek. pose proof (ReadAt_file f chunkSize off) as Hf.
      destruct (ReadAt f chunkSize off) as [[m err] f']; simpl in *; by subst.
    + by destruct ch.
    + by case_decide.
Qed.

Lemma run_reseek (chunkSize NumCPU : Z) (pos : Z) (sched : list tid) (s : state) :
  run chunkSize NumCPU sched (reseek pos s)
  = reseek pos <$> run chunkSize NumCPU sched s.
Proof.
  revert s. induction sched as [|t sched IH]; intros s; simpl; [done|].
  rewrite step_reseek.
  destruct (step chunkSize NumCPU t s) as [s1|]; simpl; [apply IH|done].
Qed.

(** X8. [asyncReadFile] does not depend on where the read cursor of the
    handle stands, as after the sequential scan of [syncReadFile]: from a
    handle with the cursor at any position every schedule leads to the same
    state, cursor apart, with the same plan, the same reads and the same
    results. *)
Theorem cursor_is_irrelevant (chunkSize NumCPU : Z) (f : File) (pos : Z)
    (sched : list tid) :
  run chunkSize NumCPU sched (init (Seek f pos))
  = reseek pos <$> run chunkSize NumCPU sched (init f).
Proof. apply (run_reseek chunkSize NumCPU pos sched (init f)). Qed.

(** ** The log *)

Lemma read_failed_with_mono (k : nat) (e : error) (ev : event) (tr : list event) :
  read_failed_with k e tr → read_failed_with k e (ev :: tr).
Proof.
  intros [Hne (off & len & n & Hin)]. split; [done|].
  exists off, len, n. by right.
Qed.

Lemma logs_ok_run (chunkSize NumCPU : Z) (f : File) (sched : list tid) (s : state) :
  run chunkSize NumCPU sched (init f) = Some s → logs_ok f s.
Proof.
  apply (run_invariant chunkSize NumCPU f (logs_ok f)).
  { split_and!; simpl; intros; by (done || apply elem_of_nil in H). }
  intros t s0 s1 HI (HW & HL & HO) Hst. unfold logs_ok. destruct t as [|j].
  - (* the orchestrator: its only log line is the one of l.62 *)
    assert (∀ e, EvLog Orch e ∈ st_trace s1 → (Stat f).1 = inr e) as HO1.
    { pose proof (inv_plan _ _ _ _ HI) as Hpl. unfold plan_ok in Hpl.
      revert Hst. unfold step, asyncReadFile_step. destruct (st_alive s0); [|done].
      destruct (st_orch s0) as [|e0|size|i|i|i| | |] eqn:Hpc; try done.
      - destruct (Stat (st_file s0)) as [[size|e0] f']; intros [= <-] e He;
          simpl in He; apply elem_of_cons in He as [?|?]; by (done || apply HO).
      - intros [= <-] e He. simpl in He.
        apply elem_of_cons in He as [[= ->]|?]; by (done || apply HO).
      - destruct (chunkPlan chunkSize (wrap64 size)); [|intros [= <-]; apply HO|done].
        case_decide; intros [= <-] e He; simpl in He; [by apply HO|].
        apply elem_of_cons in He as [?|?]; by (done || apply HO).
      - case_decide; intros [= <-] e He; simpl in He; [|by apply HO].
        apply elem_of_cons in He as [?|?]; by (done || apply HO).
      - case_decide; [|done]. intros [= <-] e He. simpl in He.
        apply elem_of_cons in He as [?|?]; by (done || apply HO).
      - intros [= <-] e He. simpl in He.
        apply elem_of_cons in He as [?|?]; by (done || apply HO).
      - case_decide; [|done]. intros [= <-] e He. simpl in He.
        apply elem_of_cons in He as [?|?]; by (done || apply HO). }
    destruct (asyncReadFile_step_cases _ _ _ s0 s1 HI Hst)
      as [[Hws [Htr|(ev & Htr & Hev)]]|(i & _ & -> & ->)].
    + split_and!; [|rewrite Htr|done]; rewrite ?Hws, ?Htr; done.
    + rewrite Hws. split_and!; [| |done]; rewrite Htr.
      * intros k e Hk. apply read_failed_with_mono. by apply HW.
      * intros k e He. apply read_failed_with_mono. apply HL.
        apply elem_of_cons in He as [<-|?]; [|done]. done.
    + split_and!; [| |done]; simpl.
      * intros k e Hk. apply read_failed_with_mono. apply (HW k).
        apply lookup_app_Some in Hk as [?|[_ Hk]]; [done|].
        by destruct (k - length (st_workers s0))%nat as [|[|?]].
      * intros k e He. apply read_failed_with_mono. apply HL.
        by apply elem_of_cons in He as [?|?].
  - destruct (readChunk_step_cases _ _ _ s0 s1 j HI Hst)
      as [(off&n&err&Hk&Hoff&HR&->)|[(e0&Hk&->)|[(v&rest&Hk&_&->)|(Hk&->)]]]; simpl.
    + split_and!.
      * intros k e Hk'. destruct (decide (k = j)) as [->|Hne].
        -- rewrite list_lookup_insert_eq in Hk' by (by eapply lookup_lt_Some).
           unfold after_read in Hk'. destruct err as [e'|]; [|done].
           case_decide; simplify_eq. split; [done|].
           exists off, chunkSize, n. by left.
        -- rewrite list_lookup_insert_ne in Hk' by done.
           apply read_failed_with_mono. by apply HW.
      * intros k e He. apply read_failed_with_mono. apply HL.
        by apply elem_of_cons in He as [?|?].
      * intros e He. apply HO. by apply elem_of_cons in He as [?|?].
    + split_and!.
      * intros k e Hk'. apply read_failed_with_mono. apply (HW k).
        destruct (decide (k = j)) as [->|Hne].
        -- by rewrite list_lookup_insert_eq in Hk' by (by eapply lookup_lt_Some).
        -- by rewrite list_lookup_insert_ne in Hk'.
      * intros k e He. apply read_failed_with_mono.
        apply elem_of_cons in He as [[= -> ->]|?]; [by apply HW|by apply HL].
      * intros e He. apply HO. by apply elem_of_cons in He as [?|?].
    + split_and!.
      * intros k e Hk'. apply read_failed_with_mono. apply (HW k).
        destruct (decide (k = j)) as [->|Hne].
        -- by rewrite list_lookup_insert_eq in Hk' by (by eapply lookup_lt_Some).
        -- by rewrite list_lookup_insert_ne in Hk'.
      * intros k e He. apply read_failed_with_mono. apply HL.
        by apply elem_of_cons in He as [?|?].
      * intros e He. apply HO. by apply elem_of_cons in He as [?|?].
    + split_and!.
      * intros k e Hk'. apply read_failed_with_mono. apply (HW k).
        destruct (decide (k = j)) as [->|Hne].
        -- by rewrite list_lookup_insert_eq in Hk' by (by eapply lookup_lt_Some).
        -- by rewrite list_lookup_insert_ne in Hk'.
      * intros k e He. apply read_failed_with_mono. apply HL.
        by apply elem_of_cons in He as [?|?].
      * intros e He. apply HO. by apply elem_of_cons in He as [?|?].
Qed.

(** X9. Every log line reports a failure that happened: a line of worker k
    carries the error, other than [io.EOF], that the read of chunk k
    returned; a line of the orchestrator carries the error of [Stat]. A
    worker has logged one line if it left through the return of l.117, and
    none otherwise. *)
Theorem log_lines_are_failures (chunkSize NumCPU : Z) (f : File)
    (sched : list tid) (s : state) :
  run chunkSize NumCPU sched (init f) = Some s →
  (∀ k e, EvLog (Worker k) e ∈ st_trace s →
     e ≠ io_EOF
     ∧ ∃ off n, st_chunkOffset s !! k = Some off
                ∧ ReadAt f chunkSize off = ((n, Some e), f))
  ∧ (∀ e, EvLog Orch e ∈ st_trace s → (Stat f).1 = inr e)
  ∧ (∀ k w, st_workers s !! k = Some w →
       logged (Worker k) s = if decide (w = WReturnedEarly) then 1%nat else 0%nat).
Proof.
  intros Hrun. pose proof (Inv_of_run _ _ _ _ _ Hrun) as HI.
  destruct (logs_ok_run _ _ _ _ _ Hrun) as (_ & HL & HO).
  split_and!; [|done|].
  - intros k e He. destruct (HL k e He) as [Hne (off & len & n & Hin)].
    split; [done|].
    pose proof (inv_reads _ _ _ _ HI) as Hr. rewrite Forall_forall in Hr.
    destruct (Hr _ Hin) as (_ & Hoff & HR). by exists off, n.
  - intros k w Hk.
    destruct (inv_worker _ _ _ _ HI k w Hk) as [_ _ _ _ _ Hlog _].
    unfold logged. rewrite Hlog. case_decide.
    + by rewrite bool_decide_eq_true_2.
    + by rewrite bool_decide_eq_false_2.
Qed.

Lemma log_lines_are_failures_witness :
  EIO ≠ io_EOF
  ∧ ∃ off n, st_chunkOffset faulty_final !! 0%nat = Some off
             ∧ ReadAt faulty_file asyncChunkSize off = ((n, Some EIO), faulty_file).
Proof.
  pose proof (log_lines_are_failures asyncChunkSize 1 faulty_file
                faulty_schedule faulty_final ltac:(vm_compute; reflexivity))
    as (H & _).
  apply (H 0%nat EIO).
  apply (list_elem_of_lookup_2 _ 0%nat). vm_compute. reflexivity.
Defined.

(** * The sequential scan *)

(** ** Bytes and lines *)

Lemma IndexByte_Some (l : list byte) (c : byte) (i : nat) :
  IndexByte l c = Some i → l !! i = Some c ∧ c ∉ take i l.
Proof.
  revert i. induction l as [|b l IH]; intros i; simpl; [done|].
  case_decide as Hb.
  - intros [= <-]. subst. split; [done|]. simpl. apply not_elem_of_nil.
  - destruct (IndexByte l c) as [j|]; [|done]. simpl. intros [= <-].
    destruct (IH j eq_refl) as [Hj Hn]. split; [done|].
    simpl. intros [?|?]%elem_of_cons; [congruence|done].
Qed.

Lemma IndexByte_None (l : list byte) (c : byte) :
  IndexByte l c = None ↔ c ∉ l.
Proof.
  induction l as [|b l IH]; simpl.
  - split; [intros _; apply not_elem_of_nil|done].
  - case_decide as Hb.
    + subst. split; [done|]. intros Hn. exfalso. apply Hn. by left.
    + destruct (IndexByte l c) as [j|] eqn:Hj; simpl.
      * split; [done|]. intros Hn. exfalso.
        assert (c ∉ l) as Hl by (intros ?; apply Hn; by right).
        by apply IH in Hl.
      * split; [|done]. intros _ [?|?]%elem_of_cons; [congruence|].
        by apply (proj1 IH).
Qed.

Lemma IndexByte_app (l l' : list byte) (c : byte) (i : nat) :
  IndexByte l c = Some i → IndexByte (l ++ l') c = Some i.
Proof.
  revert i. induction l as [|b l IH]; intros i; simpl; [done|].
  case_decide; [done|].
  destruct (IndexByte l c) as [j|]; [|done]. simpl. intros [= <-].
  by rewrite (IH j eq_refl).
Qed.

Lemma IndexByte_lt (l : list byte) (c : byte) (i : nat) :
  IndexByte l c = Some i → (i < length l)%nat.
Proof. intros [H _]%IndexByte_Some. by eapply lookup_lt_Some. Qed.

(** [file.Read] on an open handle within the file. *)
Lemma ReadBytes_open (data : list byte) (f : File) (c len : nat) :
  f_closed f = false → f_size f = Z.of_nat (length data) →
  (c ≤ length data)%nat → (0 < len)%nat → Z.of_nat c ∉ f_bad f →
  ReadBytes data (Seek f (Z.of_nat c)) (Z.of_nat len)
  = if decide (c = length data)
    then (([], Some io_EOF), Seek f (Z.of_nat c))
    else ((take (Nat.min len (length data - c)) (drop c data), None),
          Seek f (Z.of_nat (c + Nat.min len (length data - c)))).
Proof.
  intros Hopen Hsize Hc Hlen Hgood. unfold ReadBytes, Read. simpl.
  rewrite Hopen, Hsize. rewrite decide_False by (by intros [_ ?]).
  case_decide as Hz; case_decide as Hd; try lia.
  - by rewrite Nat2Z.id.
  - rewrite Nat2Z.id. unfold Seek. simpl.
    replace (Z.to_nat (Z.max 0 (Z.min (Z.of_nat len) (Z.of_nat (length data) - Z.of_nat c))))
      with (Nat.min len (length data - c)) by lia.
    do 2 f_equal; first [done | by rewrite Hopen | lia].
Qed.

(** ** One call of [Scan] *)

Lemma advance_0 (s : Scanner) : advance 0 s = s.
Proof. destruct s. unfold advance. simpl. f_equal. lia. Qed.

Lemma ScanLines_newline (held : list byte) (atEOF : bool) (i : nat) :
  IndexByte held x0a = Some i →
  ScanLines held atEOF = ((i + 1)%nat, Some (dropCR (take i held))).
Proof.
  intros Hi. unfold ScanLines. rewrite Hi.
  destruct held; [done|]. by rewrite andb_false_r.
Qed.

Section ScanFacts.
Variable bufSize : nat.
Variable data : list byte.
Variable f : File.
Hypothesis buf_pos : (0 < bufSize)%nat.
Hypothesis f_open : f_closed f = false.
Hypothesis f_data : f_size f = Z.of_nat (length data).
Hypothesis f_good : ∀ pos, 0 ≤ pos ≤ f_size f → pos ∉ f_bad f.

Local Abbreviation scanning := (scanning bufSize data f).

(** What the scanner holds is the beginning of what is left of the file. *)
Lemma held_prefix (p : nat) (s : Scanner) :
  scanning p s →
  drop p data = sc_held s ++ drop (p + length (sc_held s)) data.
Proof.
  intros HS. rewrite (sg_held _ _ _ _ _ HS) at 1.
  by rewrite <- drop_drop, take_drop.
Qed.

(** A newline in the window: the scanner gives the line the data have. *)
Lemma scan_newline (p : nat) (s : Scanner) (i : nat) :
  scanning p s → IndexByte (sc_held s) x0a = Some i →
  next_line bufSize (drop p data) = inl (dropCR (take i (sc_held s)), S i)
  ∧ scanning (p + S i) (advance (i + 1) s).
Proof.
  intros HS Hi. pose proof (IndexByte_lt _ _ _ Hi) as Hlt.
  pose proof (held_prefix p s HS) as Hpre.
  destruct HS as [Hlen Hmax Hr Hheld Hbound Hfits Herr].
  split.
  - unfold next_line. rewrite Hpre.
    destruct (sc_held s) as [|b held] eqn:Hh; [simpl in Hlt; lia|].
    rewrite <- Hh in *. clear Hh.
    destruct (sc_held s ++ _) as [|b' rest'] eqn:Hrest.
    { apply app_eq_nil in Hrest as [Hn _]. rewrite Hn in Hlt. simpl in Hlt. lia. }
    rewrite <- Hrest. clear Hrest.
    rewrite take_app, (take_ge (sc_held s)) by lia.
    rewrite (IndexByte_app _ _ _ _ Hi).
    rewrite take_app_le by lia. done.
  - split; unfold advance; simpl; try done.
    + rewrite Hr. f_equal. rewrite length_drop. f_equal. lia.
    + rewrite length_drop. rewrite Hheld at 1.
      rewrite take_drop_commute, drop_drop.
      replace (p + S i)%nat with (p + (i + 1))%nat by lia.
      rewrite take_drop_commute. do 2 f_equal. lia.
    + rewrite length_drop. lia.
    + rewrite length_drop. lia.
    + rewrite length_drop. destruct Herr as [?|(? & ? & ?)]; [by left|right].
      split_and!; [done|lia|lia].
Qed.

(** At the end of the file what is held without a newline is the last
    line. *)
Lemma scan_last_line (p : nat) (s : Scanner) :
  scanning p s → sc_err s = Some (ReaderError io_EOF) →
  sc_held s ≠ [] → IndexByte (sc_held s) x0a = None →
  next_line bufSize (drop p data) = inl (dropCR (sc_held s), length (sc_held s))
  ∧ scanning (p + length (sc_held s)) (advance (length (sc_held s)) s).
Proof.
  intros HS He Hne Hi. pose proof (held_prefix p s HS) as Hpre.
  destruct HS as [Hlen Hmax Hr Hheld Hbound Hfits Herr].
  destruct Herr as [?|(_ & Hend & Hroom)]; [congruence|].
  rewrite (drop_ge data (p + length (sc_held s))) in Hpre by lia.
  rewrite app_nil_r in Hpre.
  split.
  - unfold next_line. rewrite Hpre.
    destruct (sc_held s) as [|b held] eqn:Hh; [done|]. rewrite <- Hh in *.
    rewrite take_ge by lia. rewrite Hi.
    rewrite bool_decide_eq_true_2 by lia. done.
  - split; unfold advance; simpl; rewrite ?drop_all; simpl; try done; try lia.
    + rewrite Hr. f_equal. lia.
    + right. split_and!; [done|lia|lia].
Qed.

Lemma scan_at_eof (p : nat) (s : Scanner) :
  scanning p s → sc_err s = Some (ReaderError io_EOF) → sc_held s = [] →
  next_line bufSize (drop p data) = inr AtEOF ∧ p = length data.
Proof.
  intros [Hlen Hmax Hr Hheld Hbound Hfits Herr] He Hnil.
  destruct Herr as [?|(_ & Hend & _)]; [congruence|].
  rewrite Hnil in Hend. simpl in Hend.
  split; [|lia]. by rewrite drop_ge by lia.
Qed.

(** A full buffer without a newline: the line is too long. *)
Lemma scan_too_long (p : nat) (s : Scanner) :
  scanning p s → IndexByte (sc_held s) x0a = None →
  length (sc_held s) = bufSize →
  next_line bufSize (drop p data) = inr TooLong.
Proof.
  intros HS Hi Hfull. pose proof (held_prefix p s HS) as Hpre.
  unfold next_line. rewrite Hpre.
  destruct (sc_held s ++ _) as [|b rest] eqn:Hrest.
  { apply app_eq_nil in Hrest as [Hn _]. rewrite Hn in Hfull. simpl in Hfull. lia. }
  rewrite <- Hrest.
  rewrite take_app, take_ge, Hfull, Nat.sub_diag, take_0, app_nil_r, Hi by lia.
  rewrite bool_decide_eq_false_2; [done|]. rewrite length_app. lia.
Qed.

Lemma make_room_scanning (p : nat) (s : Scanner) :
  scanning p s → sc_err s = None →
  scanning p (make_room s)
  ∧ sc_held (make_room s) = sc_held s ∧ sc_err (make_room s) = None
  ∧ (sc_end (make_room s) = sc_len (make_room s) →
     length (sc_held s) = bufSize).
Proof.
  intros [Hlen Hmax Hr Hheld Hbound Hfits Herr] He. unfold make_room, sc_end.
  destruct (bool_decide (0 < sc_start s)%nat) eqn:Hs0.
  - apply bool_decide_eq_true_1 in Hs0. rewrite andb_true_l.
    destruct (_ || _) eqn:Hc.
    + split_and!; try done.
      * split; try done; [simpl; lia|by left].
      * simpl. intros. lia.
    + apply orb_false_elim in Hc as [Hc _]. apply bool_decide_eq_false_1 in Hc.
      split_and!; try done; intros; lia.
  - apply bool_decide_eq_false_1 in Hs0. rewrite andb_false_l.
    split_and!; try done; intros; lia.
Qed.

(** A read keeps the scanner in step with the file, and brings the call
    nearer to its end. *)
Lemma read_more_scanning (p : nat) (s : Scanner) :
  scanning p s → sc_err s = None → (sc_end s < sc_len s)%nat →
  scanning p (read_more data s)
  ∧ (scan_measure data p (read_more data s) < scan_measure data p s)%nat
  ∧ (IndexByte (sc_held s) x0a = None → sc_err (read_more data s) = None →
     sc_held (read_more data s) ≠ []).
Proof.
  intros [Hlen Hmax Hr Hheld Hbound Hfits Herr] He Hroom.
  unfold read_more, sc_end in *. rewrite Hr.
  rewrite (ReadBytes_open data f) by (done || lia || (apply f_good; lia)).
  unfold scan_measure. rewrite He.
  case_decide as Hend.
  - (* nothing is left: io.EOF *)
    unfold filled, setErr. simpl. rewrite app_nil_r, He. simpl.
    split_and!; [|lia|done].
    split; simpl; rewrite ?app_nil_r; try done. right. split_and!; [done|lia|lia].
  - set (n := Nat.min (sc_len s - (sc_start s + length (sc_held s)))
                      (length data - (p + length (sc_held s)))).
    assert (0 < n)%nat as Hn by lia.
    assert (length (take n (drop (p + length (sc_held s)) data)) = n) as Hlen'.
    { rewrite length_take, length_drop. lia. }
    unfold filled. rewrite bool_decide_eq_false_2.
    2: { intros Hnil. rewrite Hnil in Hlen'. simpl in Hlen'. lia. }
    simpl. rewrite He, length_app, Hlen'.
    split_and!; [|lia|].
    + split; simpl; rewrite ?length_app, ?Hlen'; try done; try lia.
      * f_equal. lia.
      * rewrite Hheld at 1.
        rewrite <- drop_drop. apply take_take_drop.
      * by left.
    + intros _ _ Hnil. apply app_eq_nil in Hnil as [_ Hnil].
      rewrite Hnil in Hlen'. simpl in Hlen'. lia.
Qed.

(** A call of [Scan] returns, with the next line of the data if there is
    one that fits the buffer. *)
Lemma Scan_next (fuel : nat) (p : nat) (s : Scanner) :
  scanning p s → (scan_measure data p s ≤ fuel)%nat →
  ∃ s', match next_line bufSize (drop p data) with
        | inl (t, n) =>
            Scan fuel data s = Done (Some t, s')
            ∧ scanning (p + n) s' ∧ (0 < n)%nat
        | inr AtEOF =>
            Scan fuel data s = Done (None, s')
            ∧ p = length data
            ∧ sc_err s' = Some (ReaderError io_EOF)
            ∧ sc_r s' = Seek f (Z.of_nat (length data))
        | inr TooLong =>
            Scan fuel data s = Done (None, s')
            ∧ (p + bufSize ≤ length data)%nat
            ∧ sc_err s' = Some ErrTooLong
            ∧ sc_r s' = Seek f (Z.of_nat (p + bufSize))
        end.
Proof.
  revert s. induction fuel as [|fuel IH]; intros s HS Hm.
  { unfold scan_measure in Hm. destruct (sc_err s); lia. }
  cbn [Scan].
  destruct (IndexByte (sc_held s) x0a) as [i|] eqn:Hi.
  - destruct (scan_newline p s i HS Hi) as [Hnl HS']. rewrite Hnl.
    exists (advance (i + 1) s).
    unfold held_token. rewrite bool_decide_eq_true_2.
    2: { unfold sc_end. apply IndexByte_lt in Hi. lia. }
    rewrite orb_true_l, (ScanLines_newline _ _ i Hi).
    split_and!; [done|done|lia].
  - destruct (sc_err s) as [e|] eqn:He.
    + destruct (sg_err _ _ _ _ _ HS) as [?|(He' & Hend & Hroom)]; [congruence|].
      unfold held_token. rewrite He.
      rewrite (bool_decide_eq_true_2 (Some e ≠ None)) by done.
      rewrite orb_true_r. unfold ScanLines. rewrite Hi.
      destruct (decide (sc_held s = [])) as [Hnil|Hne].
      * assert (sc_err s = Some (ReaderError io_EOF)) as He2 by congruence.
        destruct (scan_at_eof p s HS He2 Hnil) as [Hnl Hp].
        rewrite Hnl. exists (shut_down s).
        rewrite (bool_decide_eq_true_2 (sc_held s = [])) by done.
        rewrite andb_true_l, advance_0, He.
        rewrite (bool_decide_eq_true_2 (Some e ≠ None)) by done.
        split_and!; [done|done|simpl; congruence|].
        simpl. rewrite (sg_reader _ _ _ _ _ HS), Hnil. simpl.
        f_equal. lia.
      * assert (sc_err s = Some (ReaderError io_EOF)) as He2 by congruence.
        destruct (scan_last_line p s HS He2 Hne Hi) as [Hnl HS'].
        rewrite Hnl. exists (advance (length (sc_held s)) s).
        rewrite (bool_decide_eq_false_2 (sc_held s = [])) by done.
        rewrite andb_false_r.
        split_and!; [done|done|].
        destruct (sc_held s); [done|simpl; lia].
    + assert (held_token s = (0%nat, None)) as ->.
      { unfold held_token, ScanLines. rewrite He, Hi.
        rewrite (bool_decide_eq_false_2 (None ≠ None)) by (intros H; by apply H).
        by destruct (bool_decide _). }
      rewrite advance_0, He.
      rewrite (bool_decide_eq_false_2 (None ≠ None)) by (intros H; by apply H).
      destruct (make_room_scanning p s HS He)
        as (HS1 & Hheld1 & He1 & Hfull).
      case_bool_decide as Hend.
      * pose proof (Hfull Hend) as Hlen.
        rewrite (scan_too_long p s HS Hi Hlen).
        exists (setErr ErrTooLong (make_room s)).
        unfold cannot_grow.
        rewrite (sg_len _ _ _ _ _ HS1), (sg_max _ _ _ _ _ HS1).
        rewrite bool_decide_eq_true_2 by lia. rewrite orb_true_l.
        pose proof (sg_bound _ _ _ _ _ HS) as Hb.
        split_and!; [done|lia| |].
        -- unfold setErr. by rewrite He1.
        -- unfold setErr. rewrite He1. simpl.
           rewrite (sg_reader _ _ _ _ _ HS1), Hheld1, Hlen. done.
      * assert (sc_end (make_room s) < sc_len (make_room s))%nat as Hroom.
        { pose proof (sg_fits _ _ _ _ _ HS1) as Hf.
          rewrite (sg_len _ _ _ _ _ HS1). unfold sc_end in *.
          rewrite (sg_len _ _ _ _ _ HS1) in Hend. lia. }
        destruct (read_more_scanning p
                    (make_room s) HS1 He1 Hroom) as (HS2 & Hlt & _).
        apply IH; [done|].
        unfold scan_measure in *. rewrite He1, Hheld1 in Hlt. rewrite He in Hm.
        lia.
Qed.

(** The loop of [syncReadFile] finds the lines one after the other. *)
Lemma scan_all_lines (fuel : nat) (p : nat) (s : Scanner)
    (texts : list (list byte)) :
  scanning p s → (length data - p < fuel)%nat →
  ∃ s', let '(found, m, e) := lines_upto fuel bufSize (drop p data) in
        scan_all fuel data s texts = Done (texts ++ found, s')
        ∧ match e with
          | AtEOF =>
              sc_err s' = Some (ReaderError io_EOF)
              ∧ sc_r s' = Seek f (Z.of_nat (length data))
          | TooLong =>
              sc_err s' = Some ErrTooLong
              ∧ sc_r s' = Seek f (Z.of_nat (p + m + bufSize))
          end.
Proof.
  revert p s texts. induction fuel as [|fuel IH]; intros p s texts HS Hfuel; [lia|].
  cbn [scan_all lines_upto].
  destruct (Scan_next (length data + 2) p s HS) as [s1 Hnext].
  { unfold scan_measure. destruct (sc_err s); lia. }
  destruct (next_line bufSize (drop p data)) as [[t n]|[|]].
  - destruct Hnext as (-> & HS1 & Hn).
    pose proof (sg_bound _ _ _ _ _ HS1) as Hb.
    destruct (IH (p + n)%nat s1 (texts ++ [t]) HS1) as [s2 Hrest]; [lia|].
    rewrite drop_drop.
    destruct (lines_upto fuel bufSize (drop (p + n) data)) as [[found m] e].
    exists s2. destruct Hrest as [-> Hend]. rewrite <- app_assoc. split; [done|].
    destruct e; [done|]. by rewrite Nat.add_assoc.
  - destruct Hnext as (-> & Hp & He & Hr). exists s1. by rewrite app_nil_r.
  - destruct Hnext as (-> & Hp & He & Hr). exists s1.
    by rewrite app_nil_r, Nat.add_0_r.
Qed.
End ScanFacts.

(** ** The lines of the data *)

Lemma short_lines_spec (max : nat) (rest : list byte) :
  short_lines max rest = true
  ↔ ∀ i, (i + max ≤ length rest)%nat → x0a ∈ take max (drop i rest).
Proof.
  unfold short_lines. rewrite forallb_forall. split.
  - intros H i Hi. apply (bool_decide_eq_true_1 _), H, in_seq. lia.
  - intros H i Hi%in_seq. apply bool_decide_eq_true_2, H. lia.
Qed.

Lemma short_lines_drop (max : nat) (rest : list byte) (n : nat) :
  (0 < max)%nat →
  short_lines max rest = true → short_lines max (drop n rest) = true.
Proof.
  rewrite !short_lines_spec. intros Hmax H i Hi. rewrite length_drop in Hi.
  rewrite drop_drop. apply H. lia.
Qed.

Lemma short_lines_line (max : nat) (rest : list byte) (i : nat) :
  rest !! i = Some x0a → (i < max)%nat →
  short_lines max (drop (S i) rest) = true → short_lines max rest = true.
Proof.
  rewrite !short_lines_spec. intros Hi Hmax H j Hj.
  destruct (decide (j ≤ i)%nat) as [Hle|Hgt].
  - apply (list_elem_of_lookup_2 _ (i - j)).
    rewrite lookup_take_lt by lia. rewrite lookup_drop.
    by replace (j + (i - j))%nat with i by lia.
  - specialize (H (j - S i)%nat). rewrite length_drop, drop_drop in H.
    replace (S i + (j - S i))%nat with j in H by lia. apply H. lia.
Qed.

Lemma lines_upto_nil (fuel max : nat) : lines_upto fuel max [] = ([], 0%nat, AtEOF).
Proof. by destruct fuel. Qed.

Lemma terminated_cons (raw : list byte) (raws : list (list byte)) :
  terminated (raw :: raws) = raw ++ x0a :: terminated raws.
Proof. unfold terminated. simpl. by rewrite <- app_assoc. Qed.

(** The lines found are the lines of the data: up to the end, if every
    line fits, and else up to the line that does not. *)
Lemma lines_upto_spec (fuel max : nat) (rest : list byte) :
  (0 < max)%nat → (length rest < fuel)%nat →
  ∃ raws, let '(texts, m, e) := lines_upto fuel max rest in
    texts = dropCR <$> raws
    ∧ Forall (λ raw, x0a ∉ raw) raws
    ∧ match e with
      | AtEOF =>
          short_lines max rest = true
          ∧ m = length rest
          ∧ (rest = terminated raws
             ∨ (rest ++ [x0a] = terminated raws ∧ last raws ≠ Some []))
      | TooLong =>
          short_lines max rest = false
          ∧ take m rest = terminated raws
          ∧ (m + max ≤ length rest)%nat
          ∧ x0a ∉ take max (drop m rest)
      end.
Proof.
  intros Hmax. revert rest. induction fuel as [|fuel IH]; intros rest Hfuel; [lia|].
  cbn [lines_upto]. unfold next_line.
  destruct rest as [|b rest0] eqn:Hrest.
  { exists []. split_and!; [done|done| |done|by left].
    unfold short_lines. simpl. by replace (1 - max)%nat with 0%nat by lia. }
  rewrite <- Hrest in *. assert (rest ≠ []) as Hne by (by subst). clear Hrest.
  destruct (IndexByte (take max rest) x0a) as [i|] eqn:Hi.
  - pose proof (IndexByte_lt _ _ _ Hi) as Hlt. rewrite length_take in Hlt.
    apply IndexByte_Some in Hi as [Hnl Hno].
    rewrite lookup_take_lt in Hnl by lia. rewrite take_take in Hno.
    replace (i `min` max)%nat with i in Hno by lia.
    destruct (IH (drop (S i) rest)) as [raws Hraws].
    { rewrite length_drop. lia. }
    destruct (lines_upto fuel max (drop (S i) rest)) as [[texts m] e].
    destruct Hraws as (-> & Hall & He).
    exists (take i rest :: raws). split_and!; [done|by constructor|].
    assert (rest = take i rest ++ x0a :: drop (S i) rest) as Hsplit.
    { by rewrite take_drop_middle. }
    destruct e.
    + destruct He as (Hshort & -> & Hend).
      split_and!.
      * apply (short_lines_line max rest i); [done|lia|done].
      * rewrite length_drop. lia.
      * rewrite terminated_cons.
        destruct Hend as [Hend|[Hend Hlast]]; [left|right].
        -- by rewrite <- Hend.
        -- split.
           ++ rewrite <- Hend. rewrite Hsplit at 1. by rewrite <- app_assoc.
           ++ destruct raws as [|raw raws]; [|done].
              by destruct (drop (S i) rest).
    + destruct He as (Hshort & Htake & Hlen & Hlong).
      rewrite length_drop in Hlen. rewrite drop_drop in Hlong.
      split_and!; [|  |lia|done].
      * destruct (short_lines max rest) eqn:Hs; [|done].
        apply (short_lines_drop _ _ (S i)) in Hs; [congruence|done].
      * rewrite <- take_take_drop, terminated_cons, Htake.
        rewrite (take_S_r _ _ _ Hnl). by rewrite <- app_assoc.
  - apply IndexByte_None in Hi. case_bool_decide as Hlen.
    + rewrite drop_all, lines_upto_nil. exists [rest].
      rewrite take_ge in Hi by lia.
      split_and!; [done|by repeat constructor| |lia|].
      * apply short_lines_spec. intros j Hj. lia.
      * right. split; [|simpl; congruence].
        unfold terminated. simpl. by rewrite app_nil_r.
    + exists []. split_and!; [done|done| |done|lia|done].
      destruct (short_lines max rest) eqn:Hs; [|done].
      exfalso. apply Hi. rewrite short_lines_spec in Hs. apply (Hs 0%nat). lia.
Qed.

(** ** The scan, whatever the reads return *)

Lemma Seek_cursor (f : File) : Seek f (f_cursor f) = f.
Proof. by destruct f. Qed.

(** A read returns an error and nothing else, or moves the cursor on by the
    bytes it returns. *)
Lemma ReadBytes_cases (data : list byte) (r : File) (len : Z) :
  0 < len → 0 ≤ f_cursor r ≤ f_size r →
  ∃ bytes err n,
    ReadBytes data r len = ((bytes, err), Seek r (f_cursor r + n))
    ∧ Z.of_nat (length bytes) ≤ n ≤ len
    ∧ f_cursor r + n ≤ f_size r
    ∧ (err = None → 0 < n) ∧ (err ≠ None → n = 0).
Proof.
  intros Hlen Hcur. unfold ReadBytes, Read.
  destruct (f_closed r) eqn:Hclosed.
  { exists [], (Some ErrClosed), 0. rewrite Z.add_0_r, Seek_cursor.
    split_and!; simpl; try done; lia. }
  case_decide as Hbad.
  { exists [], (Some EIO), 0. rewrite Z.add_0_r, Seek_cursor.
    split_and!; simpl; try done; lia. }
  case_decide as Hn.
  { exists [], (Some io_EOF), 0. rewrite Z.add_0_r, Seek_cursor.
    split_and!; simpl; try done; lia. }
  set (n := Z.max 0 (Z.min len (f_size r - f_cursor r))) in *.
  exists (take (Z.to_nat n) (drop (Z.to_nat (f_cursor r)) data)), None, n.
  split_and!; try done; try lia.
  - unfold Seek. by rewrite Hclosed.
  - rewrite length_take. lia.
Qed.

Lemma held_token_cases (s : Scanner) :
  (held_token s = (0%nat, None))
  ∨ ∃ n t, held_token s = (n, Some t) ∧ (0 < n ≤ length (sc_held s))%nat.
Proof.
  unfold held_token. destruct (_ || _). 2: { by left. }
  unfold ScanLines.
  destruct (IndexByte (sc_held s) x0a) as [i|] eqn:Hi.
  - apply IndexByte_lt in Hi. destruct (sc_held s) as [|b held] eqn:Hh.
    { simpl in Hi. lia. }
    rewrite (bool_decide_eq_false_2 (b :: held = [])) by done.
    rewrite andb_false_r. right. eexists _, _. split; [done|lia].
  - destruct (bool_decide (sc_err s ≠ None)); [|by left].
    rewrite andb_true_l. case_bool_decide as Hnil; [by left|right].
    eexists _, _. split; [done|]. destruct (sc_held s); [done|simpl; lia].
Qed.

Section ScanReturns.
Variable bufSize : nat.
Variable data : list byte.
Variable f : File.
Hypothesis buf_pos : (0 < bufSize)%nat.

Local Abbreviation scanner_ok := (scanner_ok bufSize f).

Lemma make_room_ok (s : Scanner) :
  scanner_ok s →
  scanner_ok (make_room s)
  ∧ sc_held (make_room s) = sc_held s ∧ sc_r (make_room s) = sc_r s
  ∧ sc_err (make_room s) = sc_err s.
Proof.
  intros [Hlen Hmax Hr Hcur Hfits]. unfold make_room.
  destruct (_ && _); [|done].
  split_and!; try done. split; try done. simpl. lia.
Qed.

(** A read keeps the scanner in order, and brings the call nearer to its
    end. *)
Lemma read_more_ok (s : Scanner) :
  scanner_ok s → sc_err s = None → (sc_end s < sc_len s)%nat →
  scanner_ok (read_more data s)
  ∧ (read_measure (read_more data s) < read_measure s)%nat
  ∧ (unscanned (read_more data s) ≤ unscanned s)%nat.
Proof.
  intros [Hlen Hmax Hr Hcur Hfits] He Hroom. unfold read_more, sc_end in *.
  assert (f_size (sc_r s) = f_size f) as Hsize by (by rewrite Hr).
  destruct (ReadBytes_cases data (sc_r s)
              (Z.of_nat (sc_len s - (sc_start s + length (sc_held s)))))
    as (bytes & err & n & -> & Hn & Hend & Hok & Hfail); [lia|lia|].
  assert (scanner_ok
            (mkScanner (Seek (sc_r s) (f_cursor (sc_r s) + n)) (sc_len s)
               (sc_maxTokenSize s) (sc_start s) (sc_held s ++ bytes) (sc_err s)))
    as Hok'.
  { split; simpl; try done; try lia.
    - rewrite Hr. done.
    - rewrite length_app. lia. }
  unfold read_measure, unscanned, filled, setErr. simpl. rewrite He.
  destruct err as [e|].
  - specialize (Hfail ltac:(done)). subst n.
    simpl. rewrite length_app. split_and!; [|lia|lia].
    destruct Hok'. by split.
  - specialize (Hok eq_refl). case_bool_decide as Hnil.
    + simpl. rewrite length_app. split_and!; [|lia|lia].
      destruct Hok'. by split.
    + simpl. rewrite length_app. split_and!; [|lia|lia].
      destruct Hok'. by split.
Qed.

(** A call of [Scan] returns; a token takes at least one byte. *)
Lemma Scan_returns (fuel : nat) (s : Scanner) :
  scanner_ok s → (read_measure s ≤ fuel)%nat →
  ∃ r s', Scan fuel data s = Done (r, s')
          ∧ scanner_ok s'
          ∧ (unscanned s' ≤ unscanned s)%nat
          ∧ (is_Some r → (unscanned s' < unscanned s)%nat).
Proof.
  revert s. induction fuel as [|fuel IH]; intros s Hok Hm.
  { unfold read_measure in Hm. destruct (sc_err s); lia. }
  cbn [Scan].
  destruct (held_token_cases s) as [->|(n & t & -> & Hn)].
  - rewrite advance_0. case_bool_decide as He.
    + exists None, (shut_down s). split_and!; [done| | |by intros [? ?]].
      * destruct Hok. split; simpl; try done. lia.
      * unfold unscanned. simpl. lia.
    + assert (sc_err s = None) as He' by (by destruct (sc_err s)).
      destruct (make_room_ok s Hok) as (Hok1 & Hheld1 & Hr1 & He1).
      rewrite He' in He1.
      case_bool_decide as Hend.
      * unfold cannot_grow.
        rewrite (so_len _ _ _ Hok1), (so_max _ _ _ Hok1).
        rewrite bool_decide_eq_true_2 by lia. rewrite orb_true_l.
        exists None, (setErr ErrTooLong (make_room s)).
        unfold setErr. rewrite He1.
        split_and!; [done| | |by intros [? ?]].
        -- destruct Hok1. by split.
        -- unfold unscanned. simpl. rewrite Hheld1, Hr1. lia.
      * assert (sc_end (make_room s) < sc_len (make_room s))%nat as Hroom.
        { pose proof (so_fits _ _ _ Hok1) as Hf.
          rewrite (so_len _ _ _ Hok1). unfold sc_end in *.
          rewrite (so_len _ _ _ Hok1) in Hend. lia. }
        destruct (read_more_ok (make_room s) Hok1 He1 Hroom)
          as (Hok2 & Hlt & Hle).
        destruct (IH (read_more data (make_room s)) Hok2)
          as (r & s' & Hscan & Hok' & Hle' & Hlt').
        { unfold read_measure in *. rewrite He1, Hr1 in Hlt.
          rewrite He' in Hm. lia. }
        exists r, s'.
        assert (unscanned (make_room s) = unscanned s) as Heq.
        { unfold unscanned. by rewrite Hheld1, Hr1. }
        split_and!; [done|done|lia|].
        intros Hr. specialize (Hlt' Hr). lia.
  - exists (Some t), (advance n s). split_and!; [done| | |].
    + destruct Hok. split; simpl; try done. rewrite length_drop. lia.
    + unfold unscanned. simpl. rewrite length_drop. lia.
    + intros _. unfold unscanned. simpl. rewrite length_drop. lia.
Qed.

Hypothesis f_data : f_size f = Z.of_nat (length data).

(** The loop of [syncReadFile] comes to its end. *)
Lemma scan_all_returns (fuel : nat) (s : Scanner) (texts : list (list byte)) :
  scanner_ok s → (unscanned s < fuel)%nat →
  ∃ texts' s', scan_all fuel data s texts = Done (texts', s') ∧ scanner_ok s'.
Proof.
  revert s texts. induction fuel as [|fuel IH]; intros s texts Hok Hfuel; [lia|].
  cbn [scan_all].
  destruct (Scan_returns (length data + 2) s Hok) as (r & s1 & -> & Hok1 & Hle & Hlt).
  { pose proof (so_cursor _ _ _ Hok) as Hc.
    pose proof (so_reader _ _ _ Hok) as Hr.
    unfold read_measure. destruct (sc_err s); [lia|].
    rewrite Hr. simpl. lia. }
  destruct r as [t|].
  - apply IH; [done|]. specialize (Hlt ltac:(done)). lia.
  - by exists texts, s1.
Qed.
End ScanReturns.

(** ** The sequential scan of a file *)

Lemma syncReadFile_lines (bufSize : nat) (data : list byte) (f : File) :
  (0 < bufSize)%nat → f_closed f = false →
  f_size f = Z.of_nat (length data) → f_cursor f = 0 →
  (∀ pos, 0 ≤ pos ≤ f_size f → pos ∉ f_bad f) →
  ∃ s', let '(found, m, e) := lines_upto (length data + 1) bufSize data in
        syncReadFile bufSize data f = Done (found, s')
        ∧ match e with
          | AtEOF =>
              sc_err s' = Some (ReaderError io_EOF)
              ∧ sc_r s' = Seek f (Z.of_nat (length data))
          | TooLong =>
              sc_err s' = Some ErrTooLong
              ∧ sc_r s' = Seek f (Z.of_nat (m + bufSize))
          end.
Proof.
  intros Hbuf Hopen Hsize Hcur Hgood. unfold syncReadFile.
  destruct (scan_all_lines bufSize data f Hbuf Hopen Hsize Hgood
              (length data + 1) 0 (Buffer (NewScanner f) bufSize bufSize) [])
    as [s' Hs'].
  - split; simpl; try done; try lia; [|by left].
    destruct f. unfold Seek. simpl in *. by subst.
  - lia.
  - exists s'. rewrite drop_0 in Hs'.
    by destruct (lines_upto (length data + 1) bufSize data) as [[found m] e].
Qed.

(** X10. A file all of whose lines fit the buffer is scanned to its end,
    if no read fails: on a freshly opened file whose device fails no read,
    and of which every [bufSize] bytes in a row hold a newline,
    [syncReadFile] returns after [scanner.Scan] has given every line of the
    file, in order, each without its newline and without a carriage return
    before it; a last line without a newline is given too, unless it is
    empty. The scanner is left with no error but [io.EOF] and the handle,
    still open, with the cursor at the end of the file. *)
Theorem syncReadFile_scans_every_line (bufSize : nat) (data : list byte)
    (f : File) :
  (0 < bufSize)%nat → f_closed f = false →
  f_size f = Z.of_nat (length data) → f_cursor f = 0 →
  (∀ pos, 0 ≤ pos ≤ f_size f → pos ∉ f_bad f) →
  short_lines bufSize data = true →
  ∃ raws s',
    syncReadFile bufSize data f = Done (dropCR <$> raws, s')
    ∧ Forall (λ raw, x0a ∉ raw) raws
    ∧ (data = terminated raws
       ∨ (data ++ [x0a] = terminated raws ∧ last raws ≠ Some []))
    ∧ sc_err s' = Some (ReaderError io_EOF)
    ∧ sc_r s' = Seek f (Z.of_nat (length data)).
Proof.
  intros Hbuf Hopen Hsize Hcur Hgood Hshort.
  destruct (syncReadFile_lines bufSize data f Hbuf Hopen Hsize Hcur Hgood)
    as [s' Hs'].
  destruct (lines_upto_spec (length data + 1) bufSize data Hbuf) as [raws Hraws];
    [lia|].
  destruct (lines_upto (length data + 1) bufSize data) as [[found m] e].
  destruct Hs' as (Hrun & Hend). destruct Hraws as (-> & Hall & He).
  destruct e.
  - destruct He as (_ & _ & Hdata). destruct Hend as [Herr Hr].
    by exists raws, s'.
  - destruct He as (Hno & _). congruence.
Qed.

Lemma syncReadFile_scans_every_line_witness :
  ∃ raws s',
    syncReadFile 8 lines_data lines_file = Done (dropCR <$> raws, s')
    ∧ Forall (λ raw, x0a ∉ raw) raws
    ∧ (lines_data = terminated raws
       ∨ (lines_data ++ [x0a] = terminated raws ∧ last raws ≠ Some []))
    ∧ sc_err s' = Some (ReaderError io_EOF)
    ∧ sc_r s' = Seek lines_file (Z.of_nat (length lines_data)).
Proof.
  apply (syncReadFile_scans_every_line 8 lines_data lines_file);
    [lia|reflexivity|reflexivity|reflexivity| |vm_compute; reflexivity].
  intros pos _. apply not_elem_of_nil.
Defined.



(** X12. The two passes of [main] on the one handle (l.49 and l.54),
    whatever the reads of the scan return, the errors of a closed handle or
    of the device among them: the sequential scan returns and leaves the
    handle as it was but for the cursor, which stands within the file; and
    [asyncReadFile], run on the handle the scan leaves behind, does under
    every schedule what it does on the handle as it was before the scan. *)
Theorem asyncReadFile_after_syncReadFile (chunkSize NumCPU : Z) (bufSize : nat)
    (data : list byte) (f : File) (sched : list tid) :
  (0 < bufSize)%nat → f_size f = Z.of_nat (length data) →
  0 ≤ f_cursor f ≤ f_size f →
  ∃ texts scanner pos,
    syncReadFile bufSize data f = Done (texts, scanner)
    ∧ sc_r scanner = Seek f pos
    ∧ 0 ≤ pos ≤ f_size f
    ∧ run chunkSize NumCPU sched (init (sc_r scanner))
      = (reseek pos <$> run chunkSize NumCPU sched (init f)).
Proof.
  intros Hbuf Hsize Hcur. unfold syncReadFile.
  destruct (scan_all_returns bufSize data f Hbuf Hsize (length data + 1)
              (Buffer (NewScanner f) bufSize bufSize) [])
    as (texts & scanner & Hscan & Hok).
  - split; simpl; try done; try lia. by rewrite Seek_cursor.
  - unfold unscanned. simpl. lia.
  - exists texts, scanner, (f_cursor (sc_r scanner)).
    pose proof (so_reader _ _ _ Hok) as Hr.
    split_and!; [done|done|apply (so_cursor _ _ _ Hok)..|].
    rewrite Hr at 1. apply (run_reseek chunkSize NumCPU _ sched (init f)).
Qed.

Lemma asyncReadFile_after_syncReadFile_witness :
  ∃ texts scanner pos,
    syncReadFile 8 broken_data broken_file = Done (texts, scanner)
    ∧ sc_r scanner = Seek broken_file pos
    ∧ 0 ≤ pos ≤ f_size broken_file
    ∧ run 4 2 (sched_first 4 2 40 (init broken_file)) (init (sc_r scanner))
      = (reseek pos <$> run 4 2 (sched_first 4 2 40 (init broken_file))
                            (init broken_file)).
Proof.
  apply (asyncReadFile_after_syncReadFile 4 2 8 broken_data broken_file);
    [lia|reflexivity|vm_compute; split; discriminate].
Defined.

Lemma Read_error (f : File) (len : Z) (e : error) :
  (Read f len).1.2 = Some e → Read f len = ((0, Some e), f).
Proof. unfold Read. repeat case_match; simpl; congruence. Qed.

(** X14. A read error ends the scan without a word: if the first read of
    the handle returns an error, as it does on a closed handle or where the
    device fails the read at the cursor, [syncReadFile] returns as ever,
    [scanner.Scan] has given no line, and the handle is as it was. The
    error is in the scanner, where [syncReadFile] never looks. *)
Theorem syncReadFile_read_error_is_silent (bufSize : nat) (data : list byte)
    (f : File) (e : error) :
  (0 < bufSize)%nat →
  (Read f (Z.of_nat bufSize)).1.2 = Some e →
  ∃ scanner,
    syncReadFile bufSize data f = Done ([], scanner)
    ∧ sc_err scanner = Some (ReaderError e)
    ∧ sc_r scanner = f.
Proof.
  intros Hbuf Hread. apply Read_error in Hread.
  unfold syncReadFile.
  replace (length data + 1)%nat with (S (length data)) by lia.
  cbn [scan_all].
  replace (length data + 2)%nat with (S (S (length data))) by lia.
  cbn [Scan].
  set (s0 := Buffer (NewScanner f) bufSize bufSize).
  assert (held_token s0 = (0%nat, None)) as -> by done.
  rewrite advance_0.
  assert (make_room s0 = s0) as -> by done.
  rewrite (bool_decide_eq_false_2 (sc_err s0 ≠ None)) by (intros H; by apply H).
  rewrite (bool_decide_eq_false_2 (sc_end s0 = sc_len s0)).
  2: { unfold sc_end. simpl. lia. }
  assert (read_more data s0
          = mkScanner f bufSize bufSize 0 [] (Some (ReaderError e))) as ->.
  { unfold read_more, ReadBytes, sc_end. simpl.
    rewrite Nat.sub_0_r, Hread. done. }
  eexists. split; [|split]; [reflexivity|done..].
Qed.

Lemma syncReadFile_read_error_is_silent_witness :
  ∃ scanner,
    syncReadFile 8 broken_data broken_file = Done ([], scanner)
    ∧ sc_err scanner = Some (ReaderError EIO)
    ∧ sc_r scanner = broken_file.
Proof.
  apply (syncReadFile_read_error_is_silent 8 broken_data broken_file EIO);
    [lia|reflexivity].
Defined.
